(** * Verification of the task DAG engine and the lifecycle orchestrator

    Shallow embedding of
      - [src/codex_agent/core/models.py]        (enumerations, [Task], [StateTransition]),
      - [src/codex_agent/core/orchestrator.py]  (the lifecycle state machine),
      - [src/codex_agent/dag/engine.py]         (the task dependency graph).

    Python objects are mutated in place; here every method takes the object
    state and returns the state it leaves behind, together with its return
    value or the exception it raises. *)

From Stdlib Require Import String List ZArith Bool Lia Permutation Sorted Relations.
Import ListNotations.

Local Open Scope string_scope.
Local Open Scope list_scope.

(** ** Python run-time values shared by both engines *)

Module LifecycleState.
Inductive t : Type :=
  | IDLE | PLANNING | SCAFFOLDING | BUILDING | VERIFYING
  | DEPLOYING | OBSERVING | MAINTAINING | FAILED.

Definition eqb (a b : t) : bool :=
  match a, b with
  | IDLE, IDLE | PLANNING, PLANNING | SCAFFOLDING, SCAFFOLDING
  | BUILDING, BUILDING | VERIFYING, VERIFYING | DEPLOYING, DEPLOYING
  | OBSERVING, OBSERVING | MAINTAINING, MAINTAINING | FAILED, FAILED => true
  | _, _ => false
  end.
End LifecycleState.

(** Exceptions raised by the modelled methods.  The payloads are the data the
    source interpolates into the message.  [RecursionError] is the
    interpreter's answer to a call nested deeper than its recursion limit. *)
Inductive exn : Type :=
  | DAGCycleError (message : string)
  | KeyError (key : string)
  | StateTransitionError (current to_state : LifecycleState.t)
                         (allowed : list LifecycleState.t)
  | RecursionError.

Inductive result (A : Type) : Type :=
  | Ok (a : A)
  | Raise (e : exn).
Arguments Ok {A} a.
Arguments Raise {A} e.

(** *** Insertion-ordered dictionaries with [str] keys

    A Python [dict] keeps its keys in insertion order, and the engine's
    results depend on that order, so a dictionary is a list of bindings with
    pairwise distinct keys. *)
Module PyDict.
Section Dict.
Context {V : Type}.

Definition dict : Type := list (string * V).

(** [d.get(k)] *)
Fixpoint get (d : dict) (k : string) : option V :=
  match d with
  | [] => None
  | (k', v) :: d' => if String.eqb k k' then Some v else get d' k
  end.

(** [k in d] *)
Definition mem (d : dict) (k : string) : bool :=
  match get d k with Some _ => true | None => false end.

(** [d[k] = v]: an existing key keeps its position, a new key goes last. *)
Fixpoint set (d : dict) (k : string) (v : V) : dict :=
  match d with
  | [] => [(k, v)]
  | (k', v') :: d' =>
      if String.eqb k k' then (k', v) :: d' else (k', v') :: set d' k v
  end.

(** [del d[k]] *)
Fixpoint del (d : dict) (k : string) : dict :=
  match d with
  | [] => []
  | (k', v') :: d' => if String.eqb k k' then d' else (k', v') :: del d' k
  end.

Definition keys (d : dict) : list string := map fst d.
Definition values (d : dict) : list V := map snd d.

(** Representation invariant of a dictionary: no key is bound twice. *)
Definition wf (d : dict) : Prop := NoDup (keys d).
End Dict.
Arguments dict V : clear implicits.
End PyDict.
Import PyDict.

(** *** [set] objects, used for membership only *)
Definition set_mem (x : string) (s : list string) : bool :=
  existsb (String.eqb x) s.
Definition set_add (x : string) (s : list string) : list string :=
  if set_mem x s then s else x :: s.
Definition set_remove (x : string) (s : list string) : list string :=
  filter (fun y => negb (String.eqb x y)) s.

(** *** [collections.defaultdict(list)]

    Reading [d[k]] for a missing key stores an empty list under [k] and
    returns it ([dd_touch] is the effect, [dd_lookup] the value). *)
Definition ddict : Type := dict (list string).

Definition dd_lookup (d : ddict) (k : string) : list string :=
  match get d k with Some l => l | None => [] end.

Definition dd_touch (d : ddict) (k : string) : ddict :=
  if mem d k then d else d ++ [(k, [])].

(** [d[k].append(x)] *)
Definition dd_append (d : ddict) (k x : string) : ddict :=
  set (dd_touch d k) k (dd_lookup d k ++ [x]).

(** [list.remove(x)]: drops the first occurrence. *)
Fixpoint list_remove (x : string) (l : list string) : list string :=
  match l with
  | [] => []
  | y :: l' => if String.eqb x y then l' else y :: list_remove x l'
  end.

(** [if x in d[k]: d[k].remove(x)] *)
Definition dd_discard (d : ddict) (k x : string) : ddict :=
  let d' := dd_touch d k in
  if set_mem x (dd_lookup d k) then set d' k (list_remove x (dd_lookup d k)) else d'.

(** ** [core/models.py] *)

Inductive TaskType : Type :=
  | SCAFFOLD | IMPLEMENT | TEST | REFACTOR | DEPLOY | MAINTAIN | DOCUMENT.

Module TaskStatus.
Inductive t : Type :=
  | PENDING | RUNNING | COMPLETED | FAILED | BLOCKED | SKIPPED.

Definition eqb (a b : t) : bool :=
  match a, b with
  | PENDING, PENDING | RUNNING, RUNNING | COMPLETED, COMPLETED
  | FAILED, FAILED | BLOCKED, BLOCKED | SKIPPED, SKIPPED => true
  | _, _ => false
  end.
End TaskStatus.

Record Verification : Type := mkVerification {
  verification_type : string;
  command : option string;
  expected_output : option string;
  timeout_seconds : Z
}.

(** [datetime] values are totally ordered instants; they are modelled by the
    number of microseconds since the epoch. *)
Definition datetime : Type := Z.

Record Task : Type := mkTask {
  id : string;
  type : TaskType;
  title : string;
  description : string;
  dependencies : list string;
  status : TaskStatus.t;
  priority : Z;
  estimated_complexity : Z;
  target_files : list string;
  verification : option Verification;
  created_at : datetime;
  started_at : option datetime;
  completed_at : option datetime;
  attempts : Z;
  last_error : option string
}.

(** [task.status = s] *)
Definition set_status (s : TaskStatus.t) (t : Task) : Task :=
  mkTask (id t) (type t) (title t) (description t) (dependencies t) s
         (priority t) (estimated_complexity t) (target_files t)
         (verification t) (created_at t) (started_at t) (completed_at t)
         (attempts t) (last_error t).

Record StateTransition : Type := mkStateTransition {
  from_state : LifecycleState.t;
  to_state : LifecycleState.t;
  timestamp : datetime;
  trigger : string
}.

(** ** [core/orchestrator.py] *)
Module Orchestrator.
Import LifecycleState.

(** The class attribute [TRANSITIONS], a dictionary keyed by state. *)
Definition TRANSITIONS : list (LifecycleState.t * list LifecycleState.t) :=
  [ (IDLE, [PLANNING]);
    (PLANNING, [SCAFFOLDING; FAILED]);
    (SCAFFOLDING, [BUILDING; FAILED]);
    (BUILDING, [VERIFYING; FAILED]);
    (VERIFYING, [DEPLOYING; BUILDING; FAILED]);
    (DEPLOYING, [OBSERVING; FAILED]);
    (OBSERVING, [MAINTAINING; IDLE]);
    (MAINTAINING, [BUILDING; OBSERVING; IDLE; FAILED]);
    (FAILED, [IDLE]) ].

(** [TRANSITIONS.get(s, [])] *)
Fixpoint TRANSITIONS_get (tbl : list (LifecycleState.t * list LifecycleState.t))
         (s : LifecycleState.t) : list LifecycleState.t :=
  match tbl with
  | [] => []
  | (s', l) :: tbl' => if LifecycleState.eqb s s' then l else TRANSITIONS_get tbl' s
  end.

(** The instance attributes.  [config] is never read by the methods
    modelled here and is left out. *)
Record t : Type := mk {
  current_state : LifecycleState.t;
  previous_state : option LifecycleState.t;
  transition_history : list StateTransition;
  current_task : option Task
}.

(** [__init__] *)
Definition init : t := mk IDLE None [] None.

Definition can_transition (self : t) (to : LifecycleState.t) : bool :=
  existsb (LifecycleState.eqb to) (TRANSITIONS_get TRANSITIONS (current_state self)).

(** [transition]; [now] is the value of [datetime.utcnow()]. *)
Definition transition (now : datetime) (to : LifecycleState.t) (trig : string)
           (self : t) : result StateTransition * t :=
  if negb (can_transition self to) then
    (Raise (StateTransitionError (current_state self) to
              (TRANSITIONS_get TRANSITIONS (current_state self))), self)
  else
    let transition := mkStateTransition (current_state self) to now trig in
    (Ok transition,
     mk to (Some (current_state self))
        (transition_history self ++ [transition]) (current_task self)).

(** [reset]; the warning it logs from a state other than [FAILED] has no
    effect on the object. *)
Definition reset (self : t) : t :=
  mk IDLE (previous_state self) (transition_history self) None.

Definition get_state (self : t) : LifecycleState.t := current_state self.

Definition get_allowed_transitions (self : t) : list LifecycleState.t :=
  TRANSITIONS_get TRANSITIONS (current_state self).

Definition is_terminal_state (self : t) : bool :=
  existsb (LifecycleState.eqb (current_state self)) [IDLE; FAILED].

End Orchestrator.

(** ** [dag/engine.py] *)
Module TaskDAG.
Import TaskStatus.

Record t : Type := mk {
  tasks : dict Task;
  _adjacency_list : ddict;
  _reverse_adjacency : ddict
}.

(** [__init__] *)
Definition init : t := mk [] [] [].

Definition with_tasks (self : t) (ts : dict Task) : t :=
  mk ts (_adjacency_list self) (_reverse_adjacency self).
Definition with_adjacency (self : t) (adj : ddict) : t :=
  mk (tasks self) adj (_reverse_adjacency self).

(** *** [_has_cycle]

    [dfs] is the nested function of the source.  It threads the two sets
    [visited] and [rec_stack]; [visited] is kept in order of insertion
    (latest first), which is also the order in which [dfs] reads, and so
    materialises, the entries [_adjacency_list[task_id]].  The recursion
    is bounded by [fuel]; [dfs_loop] is the [for dependent_id in ...]
    loop of one activation.

    The definitions of this module describe the calls that the interpreter
    lets run to their end.  [dfs] is recursive and the source has no guard
    on its depth, so on a long path the interpreter raises [RecursionError]
    instead; module [Limited] below has the same methods under a limit on
    the nested activations of [dfs], and they agree with the ones here
    whenever they do not raise [RecursionError]. *)
Definition dfs_result : Type := option (bool * list string * list string).

Fixpoint dfs_loop (rec : string -> list string -> list string -> dfs_result)
         (task_id : string) (dependents : list string)
         (visited rec_stack : list string) : dfs_result :=
  match dependents with
  | [] => Some (false, visited, set_remove task_id rec_stack)
  | dependent_id :: rest =>
      if negb (set_mem dependent_id visited) then
        match rec dependent_id visited rec_stack with
        | None => None
        | Some (true, visited', rec_stack') => Some (true, visited', rec_stack')
        | Some (false, visited', rec_stack') =>
            dfs_loop rec task_id rest visited' rec_stack'
        end
      else if set_mem dependent_id rec_stack then Some (true, visited, rec_stack)
      else dfs_loop rec task_id rest visited rec_stack
  end.

Fixpoint dfs (fuel : nat) (adj : ddict) (task_id : string)
         (visited rec_stack : list string) : dfs_result :=
  match fuel with
  | O => None
  | S fuel' =>
      dfs_loop (dfs fuel' adj) task_id (dd_lookup adj task_id)
               (set_add task_id visited) (set_add task_id rec_stack)
  end.

(** The loop [for task_id in self.tasks] of [_has_cycle]. *)
Fixpoint dfs_roots (fuel : nat) (adj : ddict) (roots : list string)
         (visited rec_stack : list string) : option (bool * list string) :=
  match roots with
  | [] => Some (false, visited)
  | task_id :: rest =>
      if negb (set_mem task_id visited) then
        match dfs fuel adj task_id visited rec_stack with
        | None => None
        | Some (true, visited', _) => Some (true, visited')
        | Some (false, visited', rec_stack') =>
            dfs_roots fuel adj rest visited' rec_stack'
        end
      else dfs_roots fuel adj rest visited rec_stack
  end.

(** Every activation of [dfs] adds a new element of this list to
    [visited], so its length bounds the depth of the recursion
    ([has_cycle_run_total] below). *)
Definition nodes (self : t) : list string :=
  keys (tasks self) ++ concat (values (_adjacency_list self)).

Definition has_cycle_run (self : t) : option (bool * list string) :=
  dfs_roots (S (length (nodes self))) (_adjacency_list self)
            (keys (tasks self)) [] [].

(** [_has_cycle] returns the answer and leaves the entries read by [dfs]
    materialised.  The branch [None] is never taken ([has_cycle_run_total]).
    The interpreter's recursion limit is added in [Limited._has_cycle]. *)
Definition _has_cycle (self : t) : bool * t :=
  match has_cycle_run self with
  | Some (found, visited) =>
      (found, with_adjacency self
                (fold_left dd_touch (rev visited) (_adjacency_list self)))
  | None => (true, self)
  end.

(** *** [add_task] *)
Definition add_edges (task : Task) (self : t) : t :=
  fold_left
    (fun d dep_id =>
       mk (tasks d)
          (dd_append (_adjacency_list d) dep_id (id task))
          (dd_append (_reverse_adjacency d) (id task) dep_id))
    (dependencies task) self.

Definition add_task (task : Task) (self : t) : result unit * t :=
  let self := with_tasks self (set (tasks self) (id task) task) in
  let self := add_edges task self in
  let (cyclic, self) := _has_cycle self in
  if cyclic then
    (Raise (DAGCycleError ("Adding task " ++ id task ++ " would create a cycle")%string),
     with_tasks self (del (tasks self) (id task)))
  else (Ok tt, self).

(** *** [remove_task] *)
Definition remove_task (task_id : string) (self : t) : t :=
  match get (tasks self) task_id with
  | None => self
  | Some task =>
      let adj :=
        fold_left (fun adj dep_id => dd_discard adj dep_id task_id)
                  (dependencies task) (_adjacency_list self) in
      let dependents := dd_lookup adj task_id in
      let adj := dd_touch adj task_id in
      let radj :=
        fold_left (fun radj dependent_id => dd_discard radj dependent_id task_id)
                  dependents (_reverse_adjacency self) in
      mk (del (tasks self) task_id) (del adj task_id) (del radj task_id)
  end.

Definition get_task (task_id : string) (self : t) : option Task :=
  get (tasks self) task_id.

Definition get_all_tasks (self : t) : list Task := values (tasks self).

(** *** [get_ready_tasks] and [get_next_task] *)

(** [all(self.tasks[dep_id].status == COMPLETED
         for dep_id in task.dependencies if dep_id in self.tasks)] *)
Definition deps_completed (ts : dict Task) (task : Task) : bool :=
  forallb
    (fun dep_id =>
       match get ts dep_id with
       | Some dep => TaskStatus.eqb (status dep) COMPLETED
       | None => true
       end)
    (dependencies task).

Definition is_ready (ts : dict Task) (task : Task) : bool :=
  TaskStatus.eqb (status task) PENDING && deps_completed ts task.

(** The sort key [(t.priority, t.created_at)] and the order of tuples. *)
Definition sort_key (task : Task) : Z * Z := (priority task, created_at task).

Definition key_leb (a b : Z * Z) : bool :=
  (fst a <? fst b)%Z || ((fst a =? fst b)%Z && (snd a <=? snd b)%Z).

(** [list.sort(key=...)] is stable: an element is inserted before the first
    element whose key is not smaller, and the list is rebuilt from the
    right, so elements with equal keys keep their relative order. *)
Fixpoint sort_insert (x : Task) (l : list Task) : list Task :=
  match l with
  | [] => [x]
  | y :: l' =>
      if key_leb (sort_key x) (sort_key y) then x :: y :: l'
      else y :: sort_insert x l'
  end.

Definition sort_by_key (l : list Task) : list Task :=
  fold_right sort_insert [] l.

Definition get_ready_tasks (self : t) : list Task :=
  sort_by_key (filter (is_ready (tasks self)) (values (tasks self))).

Definition get_next_task (self : t) : option Task :=
  match get_ready_tasks self with
  | [] => None
  | task :: _ => Some task
  end.

(** *** [get_blocked_tasks]

    The loop assigns [task.status] on the objects stored in [self.tasks],
    so later iterations read the statuses written by earlier ones. *)
Definition is_terminal (s : TaskStatus.t) : bool :=
  existsb (TaskStatus.eqb s) [COMPLETED; FAILED; SKIPPED].

Definition has_failed_dep (ts : dict Task) (task : Task) : bool :=
  existsb
    (fun dep_id =>
       match get ts dep_id with
       | Some dep => TaskStatus.eqb (status dep) FAILED
       | None => false
       end)
    (dependencies task).

Definition blocked_step (acc : list Task * dict Task) (key : string)
  : list Task * dict Task :=
  let (blocked, ts) := acc in
  match get ts key with
  | None => acc
  | Some task =>
      if is_terminal (status task) then acc
      else if has_failed_dep ts task then
        let task := set_status BLOCKED task in
        (blocked ++ [task], set ts key task)
      else acc
  end.

Definition get_blocked_tasks (self : t) : list Task * t :=
  let (blocked, ts) := fold_left blocked_step (keys (tasks self)) ([], tasks self) in
  (blocked, with_tasks self ts).

(** *** [topological_sort] *)

(** [in_degree], as built by the dictionary comprehension and the loop
    that adds the tasks without an entry. *)
Definition in_degree_init (self : t) : dict Z :=
  fold_left
    (fun deg task_id => if mem deg task_id then deg else set deg task_id 0%Z)
    (keys (tasks self))
    (map (fun kv => (fst kv, Z.of_nat (length (snd kv)))) (_reverse_adjacency self)).

(** The inner loop [for dependent_id in self._adjacency_list[task_id]]. *)
Fixpoint kahn_relax (dependents : list string) (in_degree : dict Z)
         (queue : list string) : result (dict Z * list string) :=
  match dependents with
  | [] => Ok (in_degree, queue)
  | dependent_id :: rest =>
      match get in_degree dependent_id with
      | None => Raise (KeyError dependent_id)
      | Some n =>
          let n := (n - 1)%Z in
          kahn_relax rest (set in_degree dependent_id n)
                     (if (n =? 0)%Z then queue ++ [dependent_id] else queue)
      end
  end.

(** The loop [while queue]; [None] only when [fuel] is exhausted. *)
Fixpoint kahn_loop (fuel : nat) (ts : dict Task) (adj : ddict)
         (in_degree : dict Z) (queue : list string) (sorted : list Task)
  : option (result (list Task) * ddict) :=
  match queue with
  | [] => Some (Ok sorted, adj)
  | task_id :: queue' =>
      match fuel with
      | O => None
      | S fuel' =>
          match get ts task_id with
          | None => Some (Raise (KeyError task_id), adj)
          | Some task =>
              match kahn_relax (dd_lookup adj task_id) in_degree queue' with
              | Raise e => Some (Raise e, dd_touch adj task_id)
              | Ok (in_degree', queue'') =>
                  kahn_loop fuel' ts (dd_touch adj task_id) in_degree' queue''
                            (sorted ++ [task])
              end
          end
      end
  end.

Definition zero_keys (in_degree : dict Z) : list string :=
  keys (filter (fun kv => (snd kv =? 0)%Z) in_degree).

(** Each iteration of [while queue] removes one element from the queue, and
    an element is only appended when its in-degree drops from 1 to 0, so
    this number bounds the iterations ([kahn_run_total] below). *)
Definition kahn_fuel (in_degree : dict Z) (queue : list string) : nat :=
  length queue + length (filter (fun kv => (0 <? snd kv)%Z) in_degree).

Definition kahn_run (self : t) : option (result (list Task) * ddict) :=
  let in_degree := in_degree_init self in
  let queue := zero_keys in_degree in
  kahn_loop (kahn_fuel in_degree queue) (tasks self) (_adjacency_list self)
            in_degree queue [].

(** The branch [None] is never taken ([kahn_run_total]). *)
Definition topological_sort (self : t) : result (list Task) * t :=
  match kahn_run self with
  | Some (Ok sorted, adj) =>
      if negb (length sorted =? length (tasks self))%nat
      then (Raise (DAGCycleError "DAG contains a cycle"), with_adjacency self adj)
      else (Ok sorted, with_adjacency self adj)
  | Some (Raise e, adj) => (Raise e, with_adjacency self adj)
  | None => (Raise (DAGCycleError "DAG contains a cycle"), self)
  end.

(** *** [get_task_dependencies] and [get_task_dependents] *)
Definition resolve (ts : dict Task) (ids : list string) : list Task :=
  flat_map (fun k => match get ts k with Some task => [task] | None => [] end) ids.

Definition get_task_dependencies (task_id : string) (self : t) : list Task :=
  match get (tasks self) task_id with
  | None => []
  | Some task => resolve (tasks self) (dependencies task)
  end.

Definition get_task_dependents (task_id : string) (self : t) : list Task * t :=
  (resolve (tasks self) (dd_lookup (_adjacency_list self) task_id),
   with_adjacency self (dd_touch (_adjacency_list self) task_id)).

Definition is_complete (self : t) : bool :=
  forallb (fun task => is_terminal (status task)) (values (tasks self)).

(** [__len__] *)
Definition len (self : t) : nat := length (tasks self).

(** *** [validate]

    The messages for the dependencies that are not in the graph, task by
    task in store order. *)
Definition missing_dependency_errors (ts : dict Task) : list string :=
  flat_map
    (fun task =>
       flat_map
         (fun dep_id =>
            if mem ts dep_id then []
            else [("Task " ++ id task ++ " depends on non-existent task " ++ dep_id)%string])
         (dependencies task))
    (values ts).

(** [validate] catches the [DAGCycleError] of [topological_sort] and nothing
    else, so any other exception of the sort leaves the method. *)
Definition validate (self : t) : result (list string) * t :=
  let (cyclic, self) := _has_cycle self in
  let errors := if cyclic then ["DAG contains a cycle"%string] else [] in
  let errors := errors ++ missing_dependency_errors (tasks self) in
  match topological_sort self with
  | (Ok sorted_tasks, self) =>
      (Ok (if negb (length sorted_tasks =? length (tasks self))%nat
           then errors ++ ["Some tasks are unreachable"%string]
           else errors),
       self)
  | (Raise (DAGCycleError _), self) => (Ok errors, self)
  | (Raise e, self) => (Raise e, self)
  end.

End TaskDAG.

(** ** [dag/engine.py] under the interpreter's recursion limit

    [depth] is the number of activations of the nested function [dfs] that
    the interpreter still allows when [_has_cycle] is entered: the recursion
    limit less the frames of the callers.  A call of [dfs] that would open
    one activation more raises [RecursionError].  Nothing in the source
    catches it: it leaves [dfs], [_has_cycle] and the method that called
    [_has_cycle], so [add_task] does not reach its rollback and the task
    stays stored.  The other methods of the engine do not recurse and are
    those of [TaskDAG]. *)
Module Limited.
Import TaskDAG.

Definition dfs_result : Type := result bool * list string * list string.

(** The loop [for dependent_id in self._adjacency_list[task_id]]; a [True]
    of the nested call is returned at once and its exception passes
    through. *)
Fixpoint dfs_loop (rec : string -> list string -> list string -> dfs_result)
         (task_id : string) (dependents : list string)
         (visited rec_stack : list string) : dfs_result :=
  match dependents with
  | [] => (Ok false, visited, set_remove task_id rec_stack)
  | dependent_id :: rest =>
      if negb (set_mem dependent_id visited) then
        match rec dependent_id visited rec_stack with
        | (Ok false, visited', rec_stack') =>
            dfs_loop rec task_id rest visited' rec_stack'
        | (Ok true, visited', rec_stack') => (Ok true, visited', rec_stack')
        | (Raise e, visited', rec_stack') => (Raise e, visited', rec_stack')
        end
      else if set_mem dependent_id rec_stack then (Ok true, visited, rec_stack)
      else dfs_loop rec task_id rest visited rec_stack
  end.

Fixpoint dfs (depth : nat) (adj : ddict) (task_id : string)
         (visited rec_stack : list string) : dfs_result :=
  match depth with
  | O => (Raise RecursionError, visited, rec_stack)
  | S depth' =>
      dfs_loop (dfs depth' adj) task_id (dd_lookup adj task_id)
               (set_add task_id visited) (set_add task_id rec_stack)
  end.

(** The loop [for task_id in self.tasks] of [_has_cycle]. *)
Fixpoint dfs_roots (depth : nat) (adj : ddict) (roots : list string)
         (visited rec_stack : list string) : result bool * list string :=
  match roots with
  | [] => (Ok false, visited)
  | task_id :: rest =>
      if negb (set_mem task_id visited) then
        match dfs depth adj task_id visited rec_stack with
        | (Ok false, visited', rec_stack') =>
            dfs_roots depth adj rest visited' rec_stack'
        | (Ok true, visited', _) => (Ok true, visited')
        | (Raise e, visited', _) => (Raise e, visited')
        end
      else dfs_roots depth adj rest visited rec_stack
  end.

(** [_has_cycle]: the answer or the exception, and the entries read by
    [dfs] up to that point left materialised. *)
Definition _has_cycle (depth : nat) (self : t) : result bool * t :=
  let (outcome, visited) :=
    dfs_roots depth (_adjacency_list self) (keys (tasks self)) [] [] in
  (outcome,
   with_adjacency self (fold_left dd_touch (rev visited) (_adjacency_list self))).

(** [add_task]: the rollback runs only when [_has_cycle] returns [True]. *)
Definition add_task (depth : nat) (task : Task) (self : t) : result unit * t :=
  let self := with_tasks self (set (tasks self) (id task) task) in
  let self := add_edges task self in
  match _has_cycle depth self with
  | (Ok true, self) =>
      (Raise (DAGCycleError ("Adding task " ++ id task ++ " would create a cycle")%string),
       with_tasks self (del (tasks self) (id task)))
  | (Ok false, self) => (Ok tt, self)
  | (Raise e, self) => (Raise e, self)
  end.

(** [validate]: an exception of [_has_cycle] is raised before any message
    is collected; of the exceptions of [topological_sort] only
    [DAGCycleError] is caught. *)
Definition validate (depth : nat) (self : t) : result (list string) * t :=
  match _has_cycle depth self with
  | (Raise e, self) => (Raise e, self)
  | (Ok cyclic, self) =>
      let errors := if cyclic then ["DAG contains a cycle"%string] else [] in
      let errors := errors ++ missing_dependency_errors (tasks self) in
      match topological_sort self with
      | (Ok sorted_tasks, self) =>
          (Ok (if negb (length sorted_tasks =? length (tasks self))%nat
               then errors ++ ["Some tasks are unreachable"%string]
               else errors),
           self)
      | (Raise (DAGCycleError _), self) => (Ok errors, self)
      | (Raise e, self) => (Raise e, self)
      end
  end.

End Limited.

(** ** Vocabulary of the specification *)

(** The order on tasks induced by the sort key [(priority, created_at)]. *)
Definition key_le (a b : Task) : Prop :=
  (priority a < priority b)%Z
  \/ (priority a = priority b /\ (created_at a <= created_at b)%Z).

(** Its strict part. *)
Definition key_lt (a b : Task) : Prop :=
  (priority a < priority b)%Z
  \/ (priority a = priority b /\ (created_at a < created_at b)%Z).

(** [add_task] files every task under its own identifier. *)
Definition keyed (ts : dict Task) : Prop :=
  forall k task, In (k, task) ts -> id task = k.

(** The task store is a dictionary, and every task sits under its own id. *)
Definition tasks_ok (self : TaskDAG.t) : Prop :=
  wf (TaskDAG.tasks self) /\ keyed (TaskDAG.tasks self).

(** One of the dependencies of [task] is in the graph with status [FAILED]. *)
Definition failed_dependency (self : TaskDAG.t) (task : Task) : Prop :=
  exists dep_id dep,
    In dep_id (dependencies task)
    /\ TaskDAG.get_task dep_id self = Some dep
    /\ status dep = TaskStatus.FAILED.

(** The status of [task] is none of [COMPLETED], [FAILED], [SKIPPED]. *)
Definition non_terminal (task : Task) : Prop :=
  status task <> TaskStatus.COMPLETED
  /\ status task <> TaskStatus.FAILED
  /\ status task <> TaskStatus.SKIPPED.

(** The test applied by [get_blocked_tasks] to a stored task, and its effect
    on one binding of the task store. *)
Definition blocks (ts : dict Task) (task : Task) : bool :=
  negb (TaskDAG.is_terminal (status task)) && TaskDAG.has_failed_dep ts task.

Definition mark_blocked (ts : dict Task) (kv : string * Task) : string * Task :=
  (fst kv, if blocks ts (snd kv) then set_status TaskStatus.BLOCKED (snd kv) else snd kv).

(** All three dictionaries of a graph are dictionaries. *)
Definition graph_wf (self : TaskDAG.t) : Prop :=
  tasks_ok self
  /\ wf (TaskDAG._adjacency_list self)
  /\ wf (TaskDAG._reverse_adjacency self).

(** Number of times [x] is listed under [k] in an adjacency index. *)
Definition edge_count (index : ddict) (k x : string) : nat :=
  count_occ string_dec (dd_lookup index k) x.

(** *** Dependency graphs of task sets *)

Definition task_ids (ts : list Task) : list string := map id ts.

(** [depends_on ts a b]: a task of [ts] with id [b] lists [a] as a dependency. *)
Definition depends_on (ts : list Task) (a b : string) : Prop :=
  exists task, In task ts /\ id task = b /\ In a (dependencies task).

(** A chain of dependencies leads from some id back to itself. *)
Definition has_dependency_cycle (ts : list Task) : Prop :=
  exists x, clos_trans string (depends_on ts) x x.

(** Every dependency listed by a task of [ts] is the id of a task of [ts]. *)
Definition dependencies_closed (ts : list Task) : Prop :=
  forall task dep_id,
    In task ts -> In dep_id (dependencies task) -> In dep_id (task_ids ts).

(** An acyclic set of tasks: the ids are pairwise distinct, every listed
    dependency is a task of the set, and no chain of dependencies leads from
    a task back to itself. *)
Definition acyclic_task_set (ts : list Task) : Prop :=
  NoDup (task_ids ts) /\ dependencies_closed ts /\ ~ has_dependency_cycle ts.

(** In [sorted], every dependency comes before each of its dependents. *)
Definition dependencies_first (sorted : list Task) : Prop :=
  forall i j ti tj,
    nth_error sorted i = Some ti -> nth_error sorted j = Some tj ->
    In (id ti) (dependencies tj) -> i < j.

(** The edges recorded in the forward index. *)
Definition index_edge (adj : ddict) (a b : string) : Prop := In b (dd_lookup adj a).

(** The ids of the tasks of [ts] that name [x], in order, once per mention. *)
Definition dependents_of (ts : list Task) (x : string) : list string :=
  flat_map (fun task => map (fun _ => id task)
                            (filter (String.eqb x) (dependencies task))) ts.

(** The dependency lists of the tasks of [ts] that have one, in order. *)
Definition reverse_index (ts : list Task) : ddict :=
  flat_map (fun task => match dependencies task with
                        | [] => []
                        | _ :: _ => [(id task, dependencies task)]
                        end) ts.

(** [self] is the graph reached by inserting the tasks [ts], which have
    distinct ids, in this order into the empty graph: the store holds them in
    order, the forward index answers [dependents_of], and the reverse index
    is [reverse_index]. *)
Definition represents (ts : list Task) (self : TaskDAG.t) : Prop :=
  TaskDAG.tasks self = map (fun task => (id task, task)) ts
  /\ (forall x, dd_lookup (TaskDAG._adjacency_list self) x = dependents_of ts x)
  /\ TaskDAG._reverse_adjacency self = reverse_index ts.

(** The forward index [adj] has a cycle that can be reached from one of
    [roots]. *)
Definition cycle_reachable (adj : ddict) (roots : list string) : Prop :=
  exists x y,
    In x roots
    /\ clos_refl_trans string (index_edge adj) x y
    /\ clos_trans string (index_edge adj) y y.

(** Invariant of [dfs]: the nodes that are visited and no longer on the
    recursion stack are finished, their successors are finished too, and a
    rank decreases along every edge that leaves a finished node. *)
Definition finished_ranked (adj : ddict) (visited rec_stack : list string) : Prop :=
  exists rank : string -> nat,
    forall u v,
      In u visited -> ~ In u rec_stack -> index_edge adj u v ->
      In v visited /\ ~ In v rec_stack /\ rank v < rank u.

(** Number of nodes of the universe [U] that [dfs] has not visited yet. *)
Definition unvisited (U visited : list string) : nat :=
  length (filter (fun u => negb (set_mem u visited)) U).

(** *** Invariants of Kahn's algorithm *)

(** Number of listed dependencies of [task] that are not in [processed]. *)
Definition pending (processed : list string) (task : Task) : nat :=
  length (filter (fun d => negb (set_mem d processed)) (dependencies task)).

(** Every task of [l] has all its dependencies among [seen] or earlier in [l]. *)
Fixpoint ordered_from (seen : list string) (l : list Task) : Prop :=
  match l with
  | [] => True
  | task :: l' =>
      incl (dependencies task) seen /\ ordered_from (id task :: seen) l'
  end.

(** Invariant of the loop [while queue], for the graph of the tasks [ts]. *)
Definition kahn_inv (ts : list Task) (in_degree : dict Z) (queue : list string)
           (sorted : list Task) : Prop :=
  let processed := task_ids sorted in
  NoDup (processed ++ queue)
  /\ incl (processed ++ queue) (task_ids ts)
  /\ (forall task, In task ts ->
        get in_degree (id task) = Some (Z.of_nat (pending processed task)))
  /\ (forall task, In task ts ->
        In (id task) (processed ++ queue) <-> pending processed task = 0)
  /\ incl sorted ts
  /\ ordered_from [] sorted.

(** Invariant of the inner loop over the dependents of one task, after the
    dependents [seen] have been handled: [queue0] is the queue at entry and
    [processed] the ids sorted before this task. *)
Definition relax_inv (ts : list Task) (processed seen queue0 : list string)
           (in_degree : dict Z) (queue : list string) : Prop :=
  (forall task, In task ts ->
     get in_degree (id task) =
       Some (Z.of_nat (pending processed task)
             - Z.of_nat (count_occ string_dec seen (id task)))%Z)
  /\ exists fresh,
       queue = queue0 ++ fresh
       /\ NoDup fresh
       /\ forall c, In c fresh <->
             exists task, In task ts /\ id task = c
                          /\ 0 < pending processed task
                             <= count_occ string_dec seen c.

(** Number of entries of [in_degree] that are still positive. *)
Definition positive_count (in_degree : dict Z) : nat :=
  length (filter (fun kv => (0 <? snd kv)%Z) in_degree).

(** Position of the first occurrence of [x] in [l] ([length l] if there is none). *)
Fixpoint index_of (x : string) (l : list string) : nat :=
  match l with
  | [] => 0
  | y :: l' => if String.eqb x y then 0 else S (index_of x l')
  end.

(** Some task of [ts] lists a dependency that is not a task of [ts]. *)
Definition has_dangling_dependency (ts : list Task) : Prop :=
  exists task dep_id,
    In task ts /\ In dep_id (dependencies task) /\ ~ In dep_id (task_ids ts).

(** What a run under the recursion limit gives when it is not cut off. *)
Definition returned (r : Limited.dfs_result) : TaskDAG.dfs_result :=
  match r with
  | (Ok found, visited, rec_stack) => Some (found, visited, rec_stack)
  | (Raise _, _, _) => None
  end.

Definition returned_roots (r : result bool * list string) : option (bool * list string) :=
  match r with
  | (Ok found, visited) => Some (found, visited)
  | (Raise _, _) => None
  end.

(** ** Drivers and sample data *)

(** [Task(id=i, type=IMPLEMENT, title=i, description="", dependencies=deps,
    priority=p, created_at=c)], the other fields at their defaults. *)
Definition new_task (i : string) (deps : list string) (p : Z) (c : datetime) : Task :=
  mkTask i IMPLEMENT i "" deps TaskStatus.PENDING p 3%Z [] None c None None 0%Z None.

(** [for task in l: dag.add_task(task)]; the loop stops at the first
    exception. *)
Fixpoint add_tasks (l : list Task) (self : TaskDAG.t) : result unit * TaskDAG.t :=
  match l with
  | [] => (Ok tt, self)
  | task :: rest =>
      match TaskDAG.add_task task self with
      | (Ok _, self') => add_tasks rest self'
      | (Raise e, self') => (Raise e, self')
      end
  end.

(** [dag.get_task(i).status = s], as the driver and the tests do it. *)
Definition mark_status (i : string) (s : TaskStatus.t) (self : TaskDAG.t) : TaskDAG.t :=
  match get (TaskDAG.tasks self) i with
  | Some task => TaskDAG.with_tasks self (set (TaskDAG.tasks self) i (set_status s task))
  | None => self
  end.

(** The scenario of the unit tests: a chain [A <- B <- C] and an independent
    task [D]; then [A] is completed and [B] has failed. *)
Definition chain_tasks : list Task :=
  [new_task "A" [] 100%Z 1%Z; new_task "B" ["A"] 100%Z 2%Z;
   new_task "C" ["B"] 100%Z 3%Z; new_task "D" [] 100%Z 4%Z].

Definition chain_graph : TaskDAG.t := snd (add_tasks chain_tasks TaskDAG.init).

Definition chain_failed : TaskDAG.t :=
  mark_status "B" TaskStatus.FAILED (mark_status "A" TaskStatus.COMPLETED chain_graph).

(** A rank of the ids of [chain_tasks] that grows along every dependency. *)
Definition chain_rank (x : string) : nat :=
  if String.eqb x "B" then 1 else if String.eqb x "C" then 2 else 0.

(** The scenario of [test_cycle_detection]: [task1] names [task2], which is
    not stored yet, and [task2] names [task1]. *)
Definition cycle_graph : TaskDAG.t :=
  snd (TaskDAG.add_task (new_task "task1" ["task2"] 100%Z 1%Z) TaskDAG.init).

Definition closing_task : Task := new_task "task2" ["task1"] 100%Z 2%Z.

(** [B] depends on [A]; a second task with id [A] names [B]. *)
Definition pair_graph : TaskDAG.t :=
  snd (add_tasks [new_task "A" [] 100%Z 1%Z; new_task "B" ["A"] 100%Z 2%Z]
                 TaskDAG.init).

(** One task whose only dependency is not in the graph. *)
Definition dangling_task : Task := new_task "t" ["ghost"] 100%Z 1%Z.

Definition dangling_graph : TaskDAG.t :=
  snd (TaskDAG.add_task dangling_task TaskDAG.init).

(** A rank that grows along the only dependency of [dangling_task]. *)
Definition dangling_rank (x : string) : nat := if String.eqb x "t" then 1 else 0.

(** Two tasks [t] and [u] that both depend on [a]. *)
Definition fan_a : Task := new_task "a" [] 100%Z 1%Z.
Definition fan_t : Task := new_task "t" ["a"] 100%Z 2%Z.
Definition fan_u : Task := new_task "u" ["a"] 100%Z 3%Z.

Definition fan_graph : TaskDAG.t :=
  snd (add_tasks [fan_a; fan_t; fan_u] TaskDAG.init).

(** [for task in l: dag.add_task(task)] under the recursion limit, every
    call made with [depth] activations of [dfs] to spare. *)
Fixpoint add_tasks_within (depth : nat) (l : list Task) (self : TaskDAG.t)
  : result unit * TaskDAG.t :=
  match l with
  | [] => (Ok tt, self)
  | task :: rest =>
      match Limited.add_task depth task self with
      | (Ok _, self') => add_tasks_within depth rest self'
      | (Raise e, self') => (Raise e, self')
      end
  end.

(** The chain [A <- B <- C] and [D] after the run: [A] and [D] completed,
    [B] failed, [C] skipped. *)
Definition chain_done : TaskDAG.t :=
  mark_status "D" TaskStatus.COMPLETED
    (mark_status "C" TaskStatus.SKIPPED
       (mark_status "B" TaskStatus.FAILED
          (mark_status "A" TaskStatus.COMPLETED chain_graph))).

(** Two tasks: [a], and [b] that depends on [a] and on a task [ghost] that
    is never added. *)
Definition optional_a : Task := new_task "a" [] 100%Z 1%Z.
Definition optional_b : Task := new_task "b" ["a"; "ghost"] 100%Z 2%Z.

(** A rank that grows along the dependencies of [optional_b]. *)
Definition optional_rank (x : string) : nat := if String.eqb x "b" then 1 else 0.

(** ** Callers of the orchestrator *)

(** One call on an orchestrator by a caller that catches
    [StateTransitionError] and goes on. *)
Inductive call : Type :=
  | Transition (now : datetime) (to : LifecycleState.t) (trig : string)
  | Reset.

Definition apply_call (c : call) (self : Orchestrator.t) : Orchestrator.t :=
  match c with
  | Transition now to trig => snd (Orchestrator.transition now to trig self)
  | Reset => Orchestrator.reset self
  end.

Definition run_calls (cs : list call) (self : Orchestrator.t) : Orchestrator.t :=
  fold_left (fun s c => apply_call c s) cs self.

Definition is_reset (c : call) : bool :=
  match c with Reset => true | Transition _ _ _ => false end.

(** [for to in targets: orchestrator.transition(to, trig)]; the loop stops
    at the first exception. *)
Fixpoint transitions (now : datetime) (trig : string)
         (targets : list LifecycleState.t) (self : Orchestrator.t)
  : result unit * Orchestrator.t :=
  match targets with
  | [] => (Ok tt, self)
  | to :: rest =>
      match Orchestrator.transition now to trig self with
      | (Ok _, self') => transitions now trig rest self'
      | (Raise e, self') => (Raise e, self')
      end
  end.

(** The record goes from a state to one of its allowed successors. *)
Definition allowed_record (r : StateTransition) : Prop :=
  In (to_state r) (Orchestrator.TRANSITIONS_get Orchestrator.TRANSITIONS (from_state r)).

(** The last record of a history. *)
Definition last_record (h : list StateTransition) : option StateTransition :=
  hd_error (rev h).

(** Every record of [h] starts where the record before it ended or, after a
    reset, at [IDLE]; the first one starts at [start] or at [IDLE]. *)
Fixpoint linked (start : LifecycleState.t) (h : list StateTransition) : Prop :=
  match h with
  | [] => True
  | r :: h' =>
      (from_state r = start \/ from_state r = LifecycleState.IDLE)
      /\ linked (to_state r) h'
  end.

(** Every record of [h] starts where the record before it ended, the first
    one at [start]. *)
Fixpoint chained (start : LifecycleState.t) (h : list StateTransition) : Prop :=
  match h with
  | [] => True
  | r :: h' => from_state r = start /\ chained (to_state r) h'
  end.

(** What every sequence of calls keeps true of an orchestrator. *)
Definition history_ok (self : Orchestrator.t) : Prop :=
  Forall allowed_record (Orchestrator.transition_history self)
  /\ linked LifecycleState.IDLE (Orchestrator.transition_history self)
  /\ Orchestrator.previous_state self =
       option_map from_state (last_record (Orchestrator.transition_history self))
  /\ (Orchestrator.current_state self = LifecycleState.IDLE
       \/ option_map to_state (last_record (Orchestrator.transition_history self))
          = Some (Orchestrator.current_state self)).

(** * Properties *)

(** ** Dictionaries *)
Section DictFacts.
Context {V : Type}.
Implicit Types (d : dict V) (k : string) (v : V).

Lemma get_In d k v : get d k = Some v -> In (k, v) d.
Proof.
  induction d as [|[k' v'] d IH]; simpl; [discriminate|].
  destruct (String.eqb_spec k k') as [->|Hne].
  - intros [= ->]. now left.
  - intros H. right. auto.
Qed.

Lemma get_None_keys d k : get d k = None <-> ~ In k (keys d).
Proof.
  induction d as [|[k' v'] d IH]; simpl.
  - tauto.
  - destruct (String.eqb_spec k k') as [->|Hne].
    + split; [discriminate | intros H; exfalso; apply H; now left].
    + rewrite IH. split; [intros H [Heq|Hin]; congruence | tauto].
Qed.

Lemma mem_keys d k : mem d k = true <-> In k (keys d).
Proof.
  unfold mem. destruct (get d k) eqn:E.
  - split; [intros _|reflexivity].
    apply get_In in E. apply (in_map fst) in E. exact E.
  - apply get_None_keys in E. split; [discriminate | tauto].
Qed.

Lemma mem_false_keys d k : mem d k = false <-> ~ In k (keys d).
Proof.
  rewrite <- mem_keys. destruct (mem d k); split; congruence.
Qed.

Lemma In_get d k v : wf d -> In (k, v) d -> get d k = Some v.
Proof.
  unfold wf. induction d as [|[k' v'] d IH]; simpl; [tauto|].
  intros Hnd [Heq|Hin].
  - injection Heq as -> ->. now rewrite String.eqb_refl.
  - inversion Hnd as [|? ? Hnotin Hnd']; subst.
    destruct (String.eqb_spec k k') as [->|Hne]; [|auto].
    exfalso. apply Hnotin. apply (in_map fst) in Hin. exact Hin.
Qed.

Lemma get_set_eq d k v : get (set d k v) k = Some v.
Proof.
  induction d as [|[k' v'] d IH]; simpl.
  - now rewrite String.eqb_refl.
  - destruct (String.eqb_spec k k') as [->|Hne]; simpl.
    + now rewrite String.eqb_refl.
    + destruct (String.eqb_spec k k'); [contradiction|exact IH].
Qed.

Lemma get_set_neq d k k' v : k <> k' -> get (set d k v) k' = get d k'.
Proof.
  intros Hne. induction d as [|[k0 v0] d IH]; simpl.
  - destruct (String.eqb_spec k' k); [congruence|reflexivity].
  - destruct (String.eqb_spec k k0) as [->|Hne0]; simpl.
    + destruct (String.eqb_spec k' k0); [congruence|reflexivity].
    + now rewrite IH.
Qed.

Lemma keys_set_mem d k v : mem d k = true -> keys (set d k v) = keys d.
Proof.
  unfold mem. induction d as [|[k' v'] d IH]; simpl; [discriminate|].
  destruct (String.eqb_spec k k') as [->|Hne]; simpl; [reflexivity|].
  intros H. now rewrite IH.
Qed.

Lemma set_new d k v : mem d k = false -> set d k v = d ++ [(k, v)].
Proof.
  unfold mem. induction d as [|[k' v'] d IH]; simpl; [reflexivity|].
  destruct (String.eqb_spec k k') as [->|Hne]; simpl; [discriminate|].
  intros H. now rewrite IH.
Qed.

Lemma wf_set d k v : wf d -> wf (set d k v).
Proof.
  unfold wf. intros Hwf. destruct (mem d k) eqn:E.
  - now rewrite keys_set_mem.
  - rewrite set_new by exact E. unfold keys. rewrite map_app. simpl.
    apply NoDup_app; [exact Hwf | repeat constructor; simpl; tauto |].
    intros x Hx [<-|[]]. apply mem_false_keys in E. contradiction.
Qed.

Lemma get_del_neq d k k' : k <> k' -> get (del d k) k' = get d k'.
Proof.
  intros Hne. induction d as [|[k0 v0] d IH]; simpl; [reflexivity|].
  destruct (String.eqb_spec k k0) as [->|Hne0]; simpl.
  - destruct (String.eqb_spec k' k0); [congruence|reflexivity].
  - now rewrite IH.
Qed.

Lemma keys_del_incl d k : incl (keys (del d k)) (keys d).
Proof.
  induction d as [|[k0 v0] d IH]; simpl; [apply incl_refl|].
  destruct (String.eqb k k0); simpl.
  - apply incl_tl, incl_refl.
  - apply incl_cons; [now left | now apply incl_tl].
Qed.

Lemma wf_del d k : wf d -> wf (del d k).
Proof.
  unfold wf. induction d as [|[k0 v0] d IH]; simpl; [auto|].
  intros Hnd. inversion Hnd as [|? ? Hnotin Hnd']; subst.
  destruct (String.eqb k k0); simpl; [exact Hnd'|].
  constructor; [|auto]. intros Hin. apply Hnotin. now apply (keys_del_incl d k).
Qed.

Lemma get_del_eq d k : wf d -> get (del d k) k = None.
Proof.
  unfold wf. induction d as [|[k0 v0] d IH]; simpl; [reflexivity|].
  intros Hnd. inversion Hnd as [|? ? Hnotin Hnd']; subst.
  destruct (String.eqb_spec k k0) as [->|Hne]; simpl.
  - now apply get_None_keys.
  - destruct (String.eqb_spec k k0); [contradiction|auto].
Qed.

Lemma del_absent d k : get d k = None -> del d k = d.
Proof.
  induction d as [|[k0 v0] d IH]; simpl; [reflexivity|].
  destruct (String.eqb k k0); [discriminate|].
  intros H. now rewrite IH.
Qed.
End DictFacts.

(** ** The lifecycle state machine *)
Section OrchestratorFacts.
Import LifecycleState Orchestrator.

Lemma LifecycleState_eqb_spec (a b : LifecycleState.t) :
  reflect (a = b) (LifecycleState.eqb a b).
Proof. destruct a, b; simpl; constructor; congruence. Qed.

Lemma can_transition_In (self : Orchestrator.t) (to : LifecycleState.t) :
  can_transition self to = true <-> In to (get_allowed_transitions self).
Proof.
  unfold can_transition, get_allowed_transitions.
  rewrite existsb_exists. split.
  - intros (x & Hin & Heq).
    destruct (LifecycleState_eqb_spec to x); [now subst | discriminate].
  - intros Hin. exists to. split; [exact Hin|].
    now destruct (LifecycleState_eqb_spec to to).
Qed.

(** What [transition] does when the target is allowed. *)
Lemma transition_allowed now to trig self :
  In to (get_allowed_transitions self) ->
  let record := mkStateTransition (current_state self) to now trig in
  transition now to trig self =
    (Ok record,
     Orchestrator.mk to (Some (current_state self))
       (transition_history self ++ [record]) (current_task self)).
Proof.
  intros Hin. apply can_transition_In in Hin.
  unfold transition. now rewrite Hin.
Qed.

(** What [transition] does when the target is not allowed. *)
Lemma transition_refused now to trig self :
  ~ In to (get_allowed_transitions self) ->
  transition now to trig self =
    (Raise (StateTransitionError (current_state self) to
              (get_allowed_transitions self)), self).
Proof.
  intros Hnot. unfold transition.
  destruct (can_transition self to) eqn:E; [|reflexivity].
  apply can_transition_In in E. contradiction.
Qed.
End OrchestratorFacts.

Section OrchestratorTheorems.
Import LifecycleState Orchestrator.

(** C2.  [transition now to trig] succeeds exactly when [to] is in the
    allowed set of the current state.  When it is not, the call raises
    [StateTransitionError] (carrying the current state, the requested state
    and the allowed set) and the orchestrator is unchanged.  When it is, the
    call returns the record [{from_state = old current state; to_state = to;
    trigger = trig}], the previous state becomes the old current state, the
    current state becomes [to], and the history grows by exactly that record
    at its end.  From [IDLE] the call succeeds for [PLANNING] only; for
    [BUILDING] it fails and leaves the orchestrator unchanged. *)
Theorem transition_spec (now : datetime) (to : LifecycleState.t) (trig : string)
        (self : Orchestrator.t) :
  let allowed := TRANSITIONS_get TRANSITIONS (current_state self) in
  let record := mkStateTransition (current_state self) to now trig in
  let outcome := transition now to trig self in
  ((exists r, fst outcome = Ok r) <-> In to allowed)
  /\ (~ In to allowed ->
      outcome = (Raise (StateTransitionError (current_state self) to allowed), self))
  /\ (In to allowed ->
      fst outcome = Ok record
      /\ current_state (snd outcome) = to
      /\ previous_state (snd outcome) = Some (current_state self)
      /\ transition_history (snd outcome) = transition_history self ++ [record]
      /\ current_task (snd outcome) = current_task self)
  /\ (current_state self = IDLE ->
      ((exists r, fst outcome = Ok r) <-> to = PLANNING)
      /\ transition now BUILDING trig self =
           (Raise (StateTransitionError IDLE BUILDING [PLANNING]), self)).
Proof.
  intros allowed record outcome.
  assert (Hok : In to allowed -> outcome = 
            (Ok record, Orchestrator.mk to (Some (current_state self))
                          (transition_history self ++ [record]) (current_task self))).
  { intros Hin. exact (transition_allowed now to trig self Hin). }
  assert (Hfail : ~ In to allowed ->
            outcome = (Raise (StateTransitionError (current_state self) to allowed), self)).
  { intros Hnot. exact (transition_refused now to trig self Hnot). }
  assert (Hiff : (exists r, fst outcome = Ok r) <-> In to allowed).
  { split.
    - intros [r Hr]. destruct (in_dec (fun a b => reflect_dec _ _ (LifecycleState_eqb_spec a b)) to allowed)
        as [Hin|Hnot]; [exact Hin|].
      rewrite (Hfail Hnot) in Hr. discriminate.
    - intros Hin. rewrite (Hok Hin). now eexists. }
  split; [exact Hiff|]. split; [exact Hfail|]. split.
  - intros Hin. rewrite (Hok Hin). simpl. repeat split.
  - intros Hidle. split.
    + rewrite Hiff. subst allowed. rewrite Hidle. simpl. intuition congruence.
    + rewrite (transition_refused now BUILDING trig self).
      * unfold get_allowed_transitions. now rewrite Hidle.
      * unfold get_allowed_transitions. rewrite Hidle. simpl. intuition discriminate.
Qed.

Lemma transition_spec_witness :
  transition 7%Z PLANNING "manual" init =
    (Ok (mkStateTransition IDLE PLANNING 7%Z "manual"),
     Orchestrator.mk PLANNING (Some IDLE) [mkStateTransition IDLE PLANNING 7%Z "manual"] None)
  /\ transition 7%Z BUILDING "manual" init =
       (Raise (StateTransitionError IDLE BUILDING [PLANNING]), init).
Proof.
  pose proof (transition_spec 7%Z PLANNING "manual" init) as H.
  destruct H as (_ & _ & Hok & Hidle).
  split.
  - destruct (transition 7%Z PLANNING "manual" init) as [r o] eqn:E.
    simpl in Hok. destruct Hok as (Hr & Hc & Hp & Hh & Ht); [now left|].
    destruct o; simpl in *. now subst.
  - apply Hidle. reflexivity.
Defined.

(** C9.  [reset] returns normally from every state.  Afterwards the current
    state is [IDLE] and no task is in flight, whatever the state was; the
    transition history and the recorded previous state are those of before
    the call, so no record is appended. *)
Theorem reset_spec (self : Orchestrator.t) :
  current_state (reset self) = IDLE
  /\ current_task (reset self) = None
  /\ transition_history (reset self) = transition_history self
  /\ previous_state (reset self) = previous_state self.
Proof. destruct self; simpl. repeat split. Qed.

End OrchestratorTheorems.

(** ** Ready tasks *)
Section ReadyFacts.
Import TaskStatus TaskDAG.

Lemma TaskStatus_eqb_spec (a b : TaskStatus.t) : reflect (a = b) (TaskStatus.eqb a b).
Proof. destruct a, b; simpl; constructor; congruence. Qed.

Lemma key_leb_le a b : key_leb (sort_key a) (sort_key b) = true <-> key_le a b.
Proof. unfold key_leb, key_le, sort_key; simpl. lia. Qed.

Lemma key_leb_false a b : key_leb (sort_key a) (sort_key b) = false -> key_le b a.
Proof. unfold key_leb, key_le, sort_key; simpl. lia. Qed.

Lemma key_le_trans a b c : key_le a b -> key_le b c -> key_le a c.
Proof. unfold key_le. lia. Qed.

Lemma sort_insert_perm x l : Permutation (sort_insert x l) (x :: l).
Proof.
  induction l as [|y l IH]; simpl; [reflexivity|].
  destruct (key_leb (sort_key x) (sort_key y)); [reflexivity|].
  rewrite IH. apply perm_swap.
Qed.

Lemma sort_by_key_perm l : Permutation (sort_by_key l) l.
Proof.
  induction l as [|x l IH]; simpl; [reflexivity|].
  rewrite sort_insert_perm. now constructor.
Qed.

Lemma sort_insert_sorted x l :
  StronglySorted key_le l -> StronglySorted key_le (sort_insert x l).
Proof.
  induction 1 as [|y l Hs IH Hall]; simpl.
  - repeat constructor.
  - destruct (key_leb (sort_key x) (sort_key y)) eqn:E.
    + apply key_leb_le in E. constructor; [now constructor|].
      constructor; [exact E|].
      eapply Forall_impl; [|exact Hall]. intros z Hz. eapply key_le_trans; eauto.
    + apply key_leb_false in E. constructor; [exact IH|].
      rewrite Forall_forall. intros z Hz.
      apply (Permutation_in _ (sort_insert_perm x l)) in Hz.
      destruct Hz as [<-|Hz]; [exact E|].
      rewrite Forall_forall in Hall. auto.
Qed.

Lemma sort_by_key_sorted l : StronglySorted key_le (sort_by_key l).
Proof.
  induction l as [|x l IH]; simpl; [constructor|]. now apply sort_insert_sorted.
Qed.

(** Stability: tasks with one and the same key come out in the order in
    which they went in. *)
Lemma sort_insert_stable (same : Task -> bool) x l :
  (forall y, same y = true -> sort_key y = sort_key x) ->
  filter same (sort_insert x l) = filter same (x :: l).
Proof.
  intros Hsame. induction l as [|y l IH]; simpl; [reflexivity|].
  destruct (key_leb (sort_key x) (sort_key y)) eqn:E; [reflexivity|].
  simpl. rewrite IH. simpl.
  destruct (same y) eqn:Ey; [|reflexivity].
  apply Hsame in Ey. rewrite Ey in E.
  unfold key_leb in E. lia.
Qed.

Lemma sort_by_key_stable (c : Z * Z) l :
  let same := fun t => ((fst (sort_key t) =? fst c) && (snd (sort_key t) =? snd c))%Z in
  filter same (sort_by_key l) = filter same l.
Proof.
  intros same. induction l as [|x l IH]; simpl; [reflexivity|].
  destruct (same x) eqn:Ex.
  - rewrite sort_insert_stable.
    + simpl. now rewrite Ex, IH.
    + intros y Hy. unfold same in *. destruct (sort_key x), (sort_key y); simpl in *.
      f_equal; lia.
  - assert (Hgen : forall l', filter same (sort_insert x l') = filter same l').
    { induction l' as [|y l' IH']; simpl; [now rewrite Ex|].
      destruct (key_leb (sort_key x) (sort_key y)); simpl; [now rewrite Ex|].
      now rewrite IH'. }
    now rewrite Hgen.
Qed.

(** The readiness test of the source, read as a proposition. *)
Lemma is_ready_spec (ts : dict Task) (task : Task) :
  is_ready ts task = true <->
  status task = PENDING
  /\ (forall dep_id dep, In dep_id (dependencies task) ->
        get ts dep_id = Some dep -> status dep = COMPLETED).
Proof.
  unfold is_ready, deps_completed.
  rewrite andb_true_iff, forallb_forall. split.
  - intros [Hs Hd]. split.
    + now destruct (TaskStatus_eqb_spec (status task) PENDING).
    + intros dep_id dep Hin Hget. specialize (Hd _ Hin). rewrite Hget in Hd.
      now destruct (TaskStatus_eqb_spec (status dep) COMPLETED).
  - intros [Hs Hd]. split.
    + now rewrite Hs.
    + intros dep_id Hin. destruct (get ts dep_id) as [dep|] eqn:E; [|reflexivity].
      now rewrite (Hd _ _ Hin E).
Qed.

Lemma get_ready_tasks_perm (self : TaskDAG.t) :
  Permutation (get_ready_tasks self)
              (filter (is_ready (tasks self)) (get_all_tasks self)).
Proof. apply sort_by_key_perm. Qed.

Lemma get_ready_tasks_In (self : TaskDAG.t) (task : Task) :
  In task (get_ready_tasks self) <->
  In task (get_all_tasks self) /\ is_ready (tasks self) task = true.
Proof.
  rewrite <- filter_In. split; apply Permutation_in;
    [|symmetry]; apply get_ready_tasks_perm.
Qed.

Lemma get_next_task_head (self : TaskDAG.t) (task : Task) :
  get_next_task self = Some task ->
  exists rest, get_ready_tasks self = task :: rest.
Proof.
  unfold get_next_task. destruct (get_ready_tasks self) as [|x rest]; [discriminate|].
  intros [= ->]. now exists rest.
Qed.

Lemma get_next_task_min (self : TaskDAG.t) (task other : Task) :
  get_next_task self = Some task -> In other (get_ready_tasks self) ->
  key_le task other.
Proof.
  intros Hnext Hin. destruct (get_next_task_head _ _ Hnext) as [rest Hrest].
  pose proof (sort_by_key_sorted (filter (is_ready (tasks self)) (values (tasks self))))
    as Hs.
  fold (get_ready_tasks self) in Hs. rewrite Hrest in Hs, Hin.
  inversion Hs as [|? ? _ Hall]; subst.
  destruct Hin as [<-|Hin].
  - unfold key_le. lia.
  - rewrite Forall_forall in Hall. auto.
Qed.

End ReadyFacts.

Section ReadyTheorems.
Import TaskStatus TaskDAG.

(** C3.  [get_ready_tasks] returns exactly the stored tasks whose status is
    [PENDING] and whose listed dependencies are each either absent from the
    graph or [COMPLETED], once per stored occurrence, in ascending order of
    [(priority, created_at)].  [get_next_task] returns the head of that list:
    it is [None] only when nothing is ready, it is never preceded by another
    ready task in the key order, a ready task that comes strictly first in
    the key order is the one returned, and of two ready tasks with equal
    priority the one created later is never returned.  Neither method changes
    the graph, so repeating the call repeats the answer. *)
Theorem get_ready_tasks_spec (self : TaskDAG.t) :
  (forall task,
      In task (get_ready_tasks self) <->
      In task (get_all_tasks self)
      /\ status task = PENDING
      /\ (forall dep_id dep, In dep_id (dependencies task) ->
            get_task dep_id self = Some dep -> status dep = COMPLETED))
  /\ Permutation (get_ready_tasks self)
                 (filter (is_ready (tasks self)) (get_all_tasks self))
  /\ StronglySorted key_le (get_ready_tasks self)
  /\ (get_next_task self = None <-> get_ready_tasks self = [])
  /\ (forall first, get_next_task self = Some first ->
        In first (get_ready_tasks self)
        /\ forall other, In other (get_ready_tasks self) -> key_le first other)
  /\ (forall first, In first (get_ready_tasks self) ->
        (forall other, In other (get_ready_tasks self) ->
           other = first \/ key_lt first other) ->
        get_next_task self = Some first)
  /\ (forall t1 t2, In t1 (get_ready_tasks self) -> In t2 (get_ready_tasks self) ->
        priority t1 = priority t2 -> (created_at t1 < created_at t2)%Z ->
        get_next_task self <> Some t2).
Proof.
  assert (Hnone : get_next_task self = None <-> get_ready_tasks self = []).
  { unfold get_next_task. destruct (get_ready_tasks self); split; congruence. }
  assert (Hhead : forall first, get_next_task self = Some first ->
            In first (get_ready_tasks self)
            /\ forall other, In other (get_ready_tasks self) -> key_le first other).
  { intros first Hnext. split.
    - destruct (get_next_task_head _ _ Hnext) as [rest ->]. now left.
    - intros other. now apply get_next_task_min. }
  split; [|split; [|split; [|split; [|split; [|split]]]]].
  - intros task. rewrite get_ready_tasks_In, is_ready_spec. unfold get_task. tauto.
  - apply get_ready_tasks_perm.
  - apply sort_by_key_sorted.
  - exact Hnone.
  - exact Hhead.
  - intros first Hin Hmin.
    assert (Hex : exists m, get_next_task self = Some m).
    { unfold get_next_task. destruct (get_ready_tasks self); [contradiction|].
      now eexists. }
    destruct Hex as [m Hnext]. rewrite Hnext.
    destruct (Hhead m Hnext) as [Hm Hle].
    destruct (Hmin m Hm) as [->|Hlt]; [reflexivity|].
    specialize (Hle first Hin). unfold key_le, key_lt in *. lia.
  - intros t1 t2 H1 H2 Hp Hc Hnext.
    destruct (Hhead t2 Hnext) as [_ Hle]. specialize (Hle t1 H1).
    unfold key_le in Hle. lia.
Qed.

End ReadyTheorems.

Lemma get_ready_tasks_spec_witness :
  let early := new_task "early" [] 5%Z 10%Z in
  let late := new_task "late" [] 5%Z 20%Z in
  TaskDAG.get_next_task (snd (add_tasks [late; early] TaskDAG.init)) = Some early.
Proof.
  intros early late.
  apply (get_ready_tasks_spec (snd (add_tasks [late; early] TaskDAG.init))).
  - vm_compute. auto.
  - intros other Hin. vm_compute in Hin.
    destruct Hin as [<-|[<-|[]]]; [now left | right; unfold key_lt; simpl; lia].
Defined.

(** ** Blocked tasks *)
Section BlockedFacts.
Import TaskStatus TaskDAG.

Lemma get_app {V : Type} (l1 l2 : dict V) (k : string) :
  get (l1 ++ l2) k = match get l1 k with Some v => Some v | None => get l2 k end.
Proof.
  induction l1 as [|[k' v'] l1 IH]; simpl; [reflexivity|].
  now destruct (String.eqb k k').
Qed.

Lemma get_map_values {V W : Type} (f : string * V -> W) (l : dict V) (k : string) :
  get (map (fun kv => (fst kv, f kv)) l) k =
  match get l k with Some v => Some (f (k, v)) | None => None end.
Proof.
  induction l as [|[k' v'] l IH]; simpl; [reflexivity|].
  destruct (String.eqb_spec k k') as [->|Hne]; [reflexivity|exact IH].
Qed.

Lemma set_app_mid {V : Type} (l1 l2 : dict V) (k : string) (v v' : V) :
  ~ In k (keys l1) -> set (l1 ++ (k, v) :: l2) k v' = l1 ++ (k, v') :: l2.
Proof.
  induction l1 as [|[k0 v0] l1 IH]; simpl; intros Hnotin.
  - now rewrite String.eqb_refl.
  - destruct (String.eqb_spec k k0) as [->|Hne]; [tauto|].
    rewrite IH; tauto.
Qed.

Lemma existsb_pointwise {A : Type} (f g : A -> bool) (l : list A) :
  (forall x, In x l -> f x = g x) -> existsb f l = existsb g l.
Proof.
  induction l as [|x l IH]; simpl; intros H; [reflexivity|].
  rewrite (H x) by now left. rewrite IH; auto.
Qed.

Lemma blocks_not_failed ts task : blocks ts task = true -> status task <> FAILED.
Proof. unfold blocks, is_terminal. destruct (status task); simpl; congruence. Qed.

Lemma mark_blocked_failed ts kv :
  TaskStatus.eqb (status (snd (mark_blocked ts kv))) FAILED =
  TaskStatus.eqb (status (snd kv)) FAILED.
Proof.
  unfold mark_blocked. simpl. destruct (blocks ts (snd kv)) eqn:E; [|reflexivity].
  apply blocks_not_failed in E. simpl. now destruct (status (snd kv)).
Qed.

(** Statuses written by earlier iterations never change the outcome of the
    failed-dependency test of a later one. *)
Lemma has_failed_dep_marked ts0 (pre suf : dict Task) (task : Task) :
  has_failed_dep (map (mark_blocked ts0) pre ++ suf) task =
  has_failed_dep (pre ++ suf) task.
Proof.
  unfold has_failed_dep. apply existsb_pointwise. intros dep_id _.
  rewrite !get_app.
  change (map (mark_blocked ts0) pre)
    with (map (fun kv => (fst kv, snd (mark_blocked ts0 kv))) pre).
  rewrite get_map_values.
  destruct (get pre dep_id) as [dep|]; [|reflexivity].
  apply mark_blocked_failed.
Qed.

Lemma keys_mark_blocked ts0 (l : dict Task) : keys (map (mark_blocked ts0) l) = keys l.
Proof. unfold keys. rewrite map_map. reflexivity. Qed.

Lemma blocked_fold ts0 : forall (suf pre : dict Task) (blocked : list Task),
  ts0 = pre ++ suf -> wf ts0 ->
  fold_left blocked_step (keys suf) (blocked, map (mark_blocked ts0) pre ++ suf) =
  (blocked ++ map (set_status BLOCKED) (filter (blocks ts0) (values suf)),
   map (mark_blocked ts0) ts0).
Proof.
  induction suf as [|[k task] suf IH]; intros pre blocked Heq Hwf.
  - simpl. rewrite !app_nil_r. rewrite app_nil_r in Heq. now subst.
  - assert (Hnotin : ~ In k (keys pre)).
    { subst ts0. unfold wf, keys in Hwf. rewrite map_app in Hwf. simpl in Hwf.
      apply NoDup_remove_2 in Hwf. intros Hin. apply Hwf, in_or_app. now left. }
    assert (Hget : get (map (mark_blocked ts0) pre ++ (k, task) :: suf) k = Some task).
    { rewrite get_app.
      assert (Hnone : get (map (mark_blocked ts0) pre) k = None).
      { apply get_None_keys. now rewrite keys_mark_blocked. }
      rewrite Hnone. simpl. now rewrite String.eqb_refl. }
    assert (Hpre : forall task',
               task' = snd (mark_blocked ts0 (k, task)) ->
               map (mark_blocked ts0) pre ++ (k, task') :: suf =
               map (mark_blocked ts0) (pre ++ [(k, task)]) ++ suf).
    { intros task' ->. rewrite map_app, <- app_assoc. reflexivity. }
    assert (Hts0 : ts0 = (pre ++ [(k, task)]) ++ suf).
    { rewrite <- app_assoc. exact Heq. }
    simpl. rewrite Hget.
    rewrite has_failed_dep_marked, <- Heq.
    unfold blocks at 1.
    destruct (is_terminal (status task)) eqn:Et; simpl.
    + rewrite (Hpre task) by (unfold mark_blocked, blocks; simpl; now rewrite Et).
      now apply IH.
    + destruct (has_failed_dep ts0 task) eqn:Ef.
      * rewrite set_app_mid by now rewrite keys_mark_blocked.
        rewrite (Hpre (set_status BLOCKED task))
          by (unfold mark_blocked, blocks; simpl; now rewrite Et, Ef).
        rewrite IH by assumption. simpl. now rewrite <- app_assoc.
      * rewrite (Hpre task) by (unfold mark_blocked, blocks; simpl; now rewrite Et, Ef).
        now apply IH.
Qed.

(** The result of [get_blocked_tasks] in closed form. *)
Lemma get_blocked_tasks_eq (self : TaskDAG.t) :
  wf (tasks self) ->
  get_blocked_tasks self =
    (map (set_status BLOCKED) (filter (blocks (tasks self)) (get_all_tasks self)),
     with_tasks self (map (mark_blocked (tasks self)) (tasks self))).
Proof.
  intros Hwf. unfold get_blocked_tasks.
  pose proof (blocked_fold (tasks self) (tasks self) [] [] eq_refl Hwf) as H.
  change (map (mark_blocked (tasks self)) [] ++ tasks self) with (tasks self) in H.
  unfold dict in *. rewrite H. reflexivity.
Qed.

Lemma blocks_spec (self : TaskDAG.t) (task : Task) :
  blocks (tasks self) task = true <-> non_terminal task /\ failed_dependency self task.
Proof.
  unfold blocks, non_terminal, failed_dependency, has_failed_dep, get_task.
  rewrite andb_true_iff, negb_true_iff, existsb_exists. split.
  - intros [Ht (dep_id & Hin & Hdep)]. split.
    + unfold is_terminal in Ht. destruct (status task); simpl in Ht; repeat split; congruence.
    + destruct (get (tasks self) dep_id) as [dep|] eqn:E; [|discriminate].
      exists dep_id, dep. repeat split; auto.
      now destruct (TaskStatus_eqb_spec (status dep) FAILED).
  - intros [(H1 & H2 & H3) (dep_id & dep & Hin & Hget & Hs)]. split.
    + unfold is_terminal. destruct (status task); simpl; congruence.
    + exists dep_id. split; [exact Hin|]. now rewrite Hget, Hs.
Qed.

Lemma tasks_ok_get (self : TaskDAG.t) (task : Task) :
  tasks_ok self -> In task (get_all_tasks self) -> get_task (id task) self = Some task.
Proof.
  intros [Hwf Hkeyed] Hin. unfold get_all_tasks, values in Hin.
  apply in_map_iff in Hin. destruct Hin as ([k t'] & <- & Hin). simpl.
  rewrite (Hkeyed _ _ Hin). now apply In_get.
Qed.

Lemma tasks_ok_blocked (self : TaskDAG.t) :
  tasks_ok self -> tasks_ok (snd (get_blocked_tasks self)).
Proof.
  intros [Hwf Hkeyed]. rewrite get_blocked_tasks_eq by exact Hwf.
  unfold tasks_ok. cbn [snd tasks with_tasks]. split.
  - unfold wf. now rewrite keys_mark_blocked.
  - intros k task Hin. apply in_map_iff in Hin.
    destruct Hin as ([k0 t0] & Heq & Hin). unfold mark_blocked in Heq. simpl in Heq.
    injection Heq as <- <-. specialize (Hkeyed _ _ Hin).
    now destruct (blocks (tasks self) t0).
Qed.

End BlockedFacts.

(** ** The invariant [tasks_ok] holds in every graph the methods build *)
Section TasksOk.
Import TaskStatus TaskDAG.

Lemma keyed_set (ts : dict Task) (task : Task) :
  keyed ts -> keyed (set ts (id task) task).
Proof.
  unfold keyed. induction ts as [|[k0 t0] ts IH]; simpl; intros Hk k t Hin.
  - destruct Hin as [[= <- <-]|[]]. reflexivity.
  - destruct (String.eqb_spec (id task) k0) as [Heq|Hne].
    + destruct Hin as [[= <- <-]|Hin]; [now symmetry|].
      apply Hk. now right.
    + destruct Hin as [[= <- <-]|Hin]; [apply Hk; now left|].
      apply IH; [|exact Hin]. intros k' t' Hin'. apply Hk. now right.
Qed.

Lemma In_del {V : Type} (d : dict V) (k : string) (kv : string * V) :
  In kv (del d k) -> In kv d.
Proof.
  induction d as [|[k0 v0] d IH]; simpl; [tauto|].
  destruct (String.eqb k k0); simpl; [tauto|]. intros [H|H]; auto.
Qed.

Lemma keyed_del (ts : dict Task) (k : string) : keyed ts -> keyed (del ts k).
Proof. intros Hk k' t Hin. apply Hk. eapply In_del; eauto. Qed.

Lemma tasks_add_edges (task : Task) (self : TaskDAG.t) :
  tasks (add_edges task self) = tasks self.
Proof.
  unfold add_edges. generalize (dependencies task) as deps. intros deps. revert self.
  induction deps as [|dep deps IH]; intros self; simpl; [reflexivity|].
  now rewrite IH.
Qed.

Lemma tasks_has_cycle (self : TaskDAG.t) : tasks (snd (_has_cycle self)) = tasks self.
Proof.
  unfold _has_cycle. destruct (has_cycle_run self) as [[found visited]|]; reflexivity.
Qed.

Lemma tasks_add_task (task : Task) (self : TaskDAG.t) :
  tasks (snd (add_task task self)) =
    match fst (add_task task self) with
    | Ok _ => set (tasks self) (id task) task
    | Raise _ => del (set (tasks self) (id task) task) (id task)
    end.
Proof.
  unfold add_task.
  pose proof (tasks_has_cycle
                (add_edges task (with_tasks self (set (tasks self) (id task) task)))) as H.
  destruct (_has_cycle _) as [cyclic self']. simpl in H.
  rewrite tasks_add_edges in H. simpl in H.
  destruct cyclic; simpl; now rewrite H.
Qed.

Lemma tasks_ok_init : tasks_ok TaskDAG.init.
Proof. split; [constructor | intros k t []]. Qed.

Lemma tasks_ok_add_task (task : Task) (self : TaskDAG.t) :
  tasks_ok self -> tasks_ok (snd (add_task task self)).
Proof.
  intros [Hwf Hk]. unfold tasks_ok. rewrite tasks_add_task.
  destruct (fst (add_task task self)).
  - split; [now apply wf_set | now apply keyed_set].
  - split; [now apply wf_del, wf_set | now apply keyed_del, keyed_set].
Qed.

Lemma tasks_ok_add_tasks (l : list Task) (self : TaskDAG.t) :
  tasks_ok self -> tasks_ok (snd (add_tasks l self)).
Proof.
  revert self. induction l as [|task l IH]; intros self Hok; simpl; [exact Hok|].
  pose proof (tasks_ok_add_task task self Hok) as H.
  destruct (add_task task self) as [[[]|e] self']; simpl in *; auto.
Qed.

Lemma keyed_set_status (ts : dict Task) (k : string) (task : Task) (s : TaskStatus.t) :
  keyed ts -> get ts k = Some task -> keyed (set ts k (set_status s task)).
Proof.
  intros Hk Hget. apply get_In in Hget. pose proof (Hk _ _ Hget) as Hid.
  rewrite <- Hid. change (id task) with (id (set_status s task)).
  now apply keyed_set.
Qed.

Lemma tasks_ok_mark_status (i : string) (s : TaskStatus.t) (self : TaskDAG.t) :
  tasks_ok self -> tasks_ok (mark_status i s self).
Proof.
  intros [Hwf Hk]. unfold mark_status.
  destruct (get (tasks self) i) as [task|] eqn:E; [|now split].
  split; simpl; [now apply wf_set | now apply keyed_set_status].
Qed.

Lemma tasks_ok_remove_task (i : string) (self : TaskDAG.t) :
  tasks_ok self -> tasks_ok (remove_task i self).
Proof.
  intros [Hwf Hk]. unfold remove_task.
  destruct (get (tasks self) i) as [task|]; [|now split].
  split; simpl; [now apply wf_del | now apply keyed_del].
Qed.

End TasksOk.

Section BlockedTheorems.
Import TaskStatus TaskDAG.

(** C6.  In a graph whose task store is well formed, [get_blocked_tasks]
    returns, in store order, exactly the stored tasks whose status is none of
    [COMPLETED], [FAILED], [SKIPPED] and that list a dependency present in
    the graph with status [FAILED]; each is returned with its status set to
    [BLOCKED], and that is also how the graph stores it afterwards.  No task
    with the id of a returned task is in the ready list of the graph the call
    leaves behind.  Every other stored task, and both adjacency indexes, are
    unchanged. *)
Theorem get_blocked_tasks_spec (self : TaskDAG.t) :
  tasks_ok self ->
  let blocked := fst (get_blocked_tasks self) in
  let self' := snd (get_blocked_tasks self) in
  blocked = map (set_status BLOCKED) (filter (blocks (tasks self)) (get_all_tasks self))
  /\ (forall task',
        In task' blocked <->
        exists task, In task (get_all_tasks self)
                     /\ non_terminal task
                     /\ failed_dependency self task
                     /\ task' = set_status BLOCKED task)
  /\ (forall task', In task' blocked ->
        status task' = BLOCKED /\ get_task (id task') self' = Some task')
  /\ (forall task' ready, In task' blocked ->
        In ready (get_ready_tasks self') -> id ready <> id task')
  /\ (forall task, In task (get_all_tasks self) ->
        ~ (non_terminal task /\ failed_dependency self task) ->
        get_task (id task) self' = Some task)
  /\ _adjacency_list self' = _adjacency_list self
  /\ _reverse_adjacency self' = _reverse_adjacency self.
Proof.
  intros Hok blocked self'.
  pose proof (tasks_ok_blocked self Hok) as Hok'. fold self' in Hok'.
  destruct Hok as [Hwf Hk].
  assert (Heq := get_blocked_tasks_eq self Hwf).
  assert (Hb : blocked =
               map (set_status BLOCKED) (filter (blocks (tasks self)) (get_all_tasks self))).
  { subst blocked. now rewrite Heq. }
  assert (Hs : self' = with_tasks self (map (mark_blocked (tasks self)) (tasks self))).
  { subst self'. now rewrite Heq. }
  assert (Hiff : forall task',
             In task' blocked <->
             exists task, In task (get_all_tasks self) /\ non_terminal task
                          /\ failed_dependency self task
                          /\ task' = set_status BLOCKED task).
  { intros task'. rewrite Hb, in_map_iff. split.
    - intros (task & <- & Hin). apply filter_In in Hin. destruct Hin as [Hin Hbl].
      apply blocks_spec in Hbl. exists task. tauto.
    - intros (task & Hin & Hnt & Hfd & ->). exists task. split; [reflexivity|].
      apply filter_In. split; [exact Hin|]. apply blocks_spec. tauto. }
  assert (Hget : forall task, In task (get_all_tasks self) ->
             get_task (id task) self' =
             Some (if blocks (tasks self) task then set_status BLOCKED task else task)).
  { intros task Hin. apply (tasks_ok_get self task (conj Hwf Hk)) in Hin.
    unfold get_task in *. rewrite Hs. cbn [tasks with_tasks].
    change (map (mark_blocked (tasks self)) (tasks self))
      with (map (fun kv => (fst kv, snd (mark_blocked (tasks self) kv))) (tasks self)).
    rewrite get_map_values, Hin. reflexivity. }
  assert (Hstored : forall task', In task' blocked ->
             status task' = BLOCKED /\ get_task (id task') self' = Some task').
  { intros task' Hin. apply Hiff in Hin. destruct Hin as (task & Hin & Hnt & Hfd & ->).
    split; [reflexivity|]. change (id (set_status BLOCKED task)) with (id task).
    rewrite (Hget task Hin).
    assert (Hbl : blocks (tasks self) task = true) by (apply blocks_spec; tauto).
    now rewrite Hbl. }
  repeat split.
  - exact Hb.
  - apply Hiff.
  - apply Hiff.
  - now apply Hstored.
  - now apply Hstored.
  - intros task' ready Hin Hready Hid.
    destruct (Hstored task' Hin) as [Hst Hg].
    apply get_ready_tasks_In in Hready. destruct Hready as [Hr1 Hr2].
    apply (tasks_ok_get self' ready Hok') in Hr1. rewrite Hid, Hg in Hr1.
    injection Hr1 as <-. apply is_ready_spec in Hr2. destruct Hr2 as [Hp _].
    rewrite Hst in Hp. discriminate.
  - intros task Hin Hnot. rewrite (Hget task Hin).
    destruct (blocks (tasks self) task) eqn:E; [|reflexivity].
    apply blocks_spec in E. contradiction.
  - now rewrite Hs.
  - now rewrite Hs.
Qed.

(** C10.  In a graph whose task store is well formed, no stored task is both
    ready and a candidate for blocking, and no id occurs both in the result
    of [get_ready_tasks] and in the result of [get_blocked_tasks] computed
    from that same graph. *)
Theorem ready_blocked_disjoint (self : TaskDAG.t) :
  tasks_ok self ->
  (forall task, is_ready (tasks self) task = true -> blocks (tasks self) task = false)
  /\ (forall ready blocked,
        In ready (get_ready_tasks self) ->
        In blocked (fst (get_blocked_tasks self)) ->
        id ready <> id blocked).
Proof.
  intros Hok.
  assert (Hcore : forall task,
             is_ready (tasks self) task = true -> blocks (tasks self) task = false).
  { intros task Hr. destruct (blocks (tasks self) task) eqn:Hb; [|reflexivity].
    apply is_ready_spec in Hr. apply blocks_spec in Hb.
    destruct Hr as [_ Hdeps]. destruct Hb as [_ (dep_id & dep & Hin & Hget & Hs)].
    specialize (Hdeps _ _ Hin Hget). congruence. }
  split; [exact Hcore|].
  intros ready blocked Hr Hb Hid.
  rewrite get_blocked_tasks_eq in Hb by apply Hok. simpl in Hb.
  apply in_map_iff in Hb. destruct Hb as (task & <- & Hb).
  apply filter_In in Hb. destruct Hb as [Hin Hbl].
  apply get_ready_tasks_In in Hr. destruct Hr as [Hrin Hrdy].
  apply (tasks_ok_get self _ Hok) in Hin, Hrin.
  change (id (set_status BLOCKED task)) with (id task) in Hid.
  rewrite Hid, Hin in Hrin. injection Hrin as <-.
  rewrite (Hcore _ Hrdy) in Hbl. discriminate.
Qed.

Lemma tasks_ok_chain_failed : tasks_ok chain_failed.
Proof.
  unfold chain_failed, chain_graph.
  apply tasks_ok_mark_status, tasks_ok_mark_status, tasks_ok_add_tasks, tasks_ok_init.
Qed.

Lemma get_blocked_tasks_spec_witness :
  fst (get_blocked_tasks chain_failed) =
    [set_status BLOCKED (new_task "C" ["B"] 100%Z 3%Z)]
  /\ map id (get_ready_tasks (snd (get_blocked_tasks chain_failed))) = ["D"].
Proof.
  destruct (get_blocked_tasks_spec chain_failed tasks_ok_chain_failed) as [Heq _].
  split; [rewrite Heq|]; vm_compute; reflexivity.
Defined.

Lemma ready_blocked_disjoint_witness :
  map id (get_ready_tasks chain_failed) = ["D"]
  /\ map id (fst (get_blocked_tasks chain_failed)) = ["C"]
  /\ forall ready blocked,
       In ready (get_ready_tasks chain_failed) ->
       In blocked (fst (get_blocked_tasks chain_failed)) ->
       id ready <> id blocked.
Proof.
  split; [vm_compute; reflexivity|]. split; [vm_compute; reflexivity|].
  exact (proj2 (ready_blocked_disjoint chain_failed tasks_ok_chain_failed)).
Defined.

End BlockedTheorems.

(** ** Removal *)
Section RemoveFacts.
Import TaskStatus TaskDAG.

Lemma set_mem_In (x : string) (s : list string) : set_mem x s = true <-> In x s.
Proof.
  unfold set_mem. rewrite existsb_exists. split.
  - intros (y & Hin & Heq). apply String.eqb_eq in Heq. now subst.
  - intros Hin. exists x. split; [exact Hin | apply String.eqb_refl].
Qed.

Lemma set_mem_false (x : string) (s : list string) : set_mem x s = false <-> ~ In x s.
Proof. rewrite <- set_mem_In. destruct (set_mem x s); split; congruence. Qed.

Lemma dd_lookup_touch (d : ddict) (k k' : string) :
  dd_lookup (dd_touch d k) k' = dd_lookup d k'.
Proof.
  unfold dd_touch, dd_lookup, mem. destruct (get d k) eqn:E; [reflexivity|].
  rewrite get_app. destruct (get d k') eqn:E'; [reflexivity|]. simpl.
  now destruct (String.eqb k' k).
Qed.

Lemma dd_lookup_set_eq (d : ddict) (k : string) (l : list string) :
  dd_lookup (set d k l) k = l.
Proof. unfold dd_lookup. now rewrite get_set_eq. Qed.

Lemma dd_lookup_set_neq (d : ddict) (k k' : string) (l : list string) :
  k <> k' -> dd_lookup (set d k l) k' = dd_lookup d k'.
Proof. intros Hne. unfold dd_lookup. now rewrite get_set_neq. Qed.

Lemma wf_touch (d : ddict) (k : string) : wf d -> wf (dd_touch d k).
Proof.
  intros Hwf. unfold dd_touch. destruct (mem d k) eqn:E; [exact Hwf|].
  rewrite <- set_new by exact E. now apply wf_set.
Qed.

Lemma list_remove_absent (x : string) (l : list string) :
  ~ In x l -> list_remove x l = l.
Proof.
  induction l as [|y l IH]; simpl; [reflexivity|]. intros Hnot.
  destruct (String.eqb_spec x y) as [->|Hne]; [tauto|]. rewrite IH; tauto.
Qed.

Lemma count_list_remove_eq (x : string) (l : list string) :
  count_occ string_dec (list_remove x l) x = pred (count_occ string_dec l x).
Proof.
  induction l as [|y l IH]; simpl; [reflexivity|].
  destruct (String.eqb_spec x y) as [->|Hne].
  - destruct (string_dec y y); [reflexivity|contradiction].
  - simpl. destruct (string_dec y x); [congruence|exact IH].
Qed.

Lemma count_list_remove_neq (x y : string) (l : list string) :
  x <> y -> count_occ string_dec (list_remove x l) y = count_occ string_dec l y.
Proof.
  intros Hne. induction l as [|z l IH]; simpl; [reflexivity|].
  destruct (String.eqb_spec x z) as [->|Hxz].
  - destruct (string_dec z y); [contradiction|reflexivity].
  - simpl. now rewrite IH.
Qed.

Lemma dd_lookup_discard (d : ddict) (k x k' : string) :
  dd_lookup (dd_discard d k x) k' =
  if String.eqb k k' then list_remove x (dd_lookup d k) else dd_lookup d k'.
Proof.
  unfold dd_discard. destruct (String.eqb_spec k k') as [<-|Hne].
  - destruct (set_mem x (dd_lookup d k)) eqn:E.
    + apply dd_lookup_set_eq.
    + rewrite dd_lookup_touch. apply set_mem_false in E.
      now rewrite list_remove_absent.
  - destruct (set_mem x (dd_lookup d k)).
    + rewrite dd_lookup_set_neq by exact Hne. apply dd_lookup_touch.
    + apply dd_lookup_touch.
Qed.

Lemma wf_discard (d : ddict) (k x : string) : wf d -> wf (dd_discard d k x).
Proof.
  intros Hwf. unfold dd_discard.
  destruct (set_mem x (dd_lookup d k)); [apply wf_set|]; now apply wf_touch.
Qed.

(** Pruning [x] under each key of [ks]: one occurrence of [x] goes for each
    occurrence of the key in [ks], as long as there is one to remove. *)
Lemma discard_fold_count (x : string) (ks : list string) : forall (d : ddict) (k : string),
  count_occ string_dec (dd_lookup (fold_left (fun d k => dd_discard d k x) ks d) k) x =
  count_occ string_dec (dd_lookup d k) x - count_occ string_dec ks k.
Proof.
  induction ks as [|k0 ks IH]; intros d k; simpl; [lia|].
  rewrite IH, dd_lookup_discard.
  destruct (String.eqb_spec k0 k) as [->|Hne].
  - rewrite count_list_remove_eq. destruct (string_dec k k); [lia|contradiction].
  - destruct (string_dec k0 k); [contradiction|reflexivity].
Qed.

Lemma discard_fold_other (x y : string) (ks : list string) : forall (d : ddict) (k : string),
  x <> y ->
  count_occ string_dec (dd_lookup (fold_left (fun d k => dd_discard d k x) ks d) k) y =
  count_occ string_dec (dd_lookup d k) y.
Proof.
  induction ks as [|k0 ks IH]; intros d k Hne; simpl; [reflexivity|].
  rewrite IH by exact Hne. rewrite dd_lookup_discard.
  destruct (String.eqb_spec k0 k) as [->|Hk]; [|reflexivity].
  now apply count_list_remove_neq.
Qed.

Lemma wf_discard_fold (x : string) (ks : list string) : forall d : ddict,
  wf d -> wf (fold_left (fun d k => dd_discard d k x) ks d).
Proof.
  induction ks as [|k0 ks IH]; intros d Hwf; simpl; [exact Hwf|].
  now apply IH, wf_discard.
Qed.

Lemma dd_lookup_del_eq (d : ddict) (k : string) : wf d -> dd_lookup (del d k) k = [].
Proof. intros Hwf. unfold dd_lookup. now rewrite get_del_eq. Qed.

Lemma dd_lookup_del_neq (d : ddict) (k k' : string) :
  k <> k' -> dd_lookup (del d k) k' = dd_lookup d k'.
Proof. intros Hne. unfold dd_lookup. now rewrite get_del_neq. Qed.

Lemma mem_del (d : ddict) (k : string) : wf d -> mem (del d k) k = false.
Proof. intros Hwf. unfold mem. now rewrite get_del_eq. Qed.

(** The tasks that [resolve] finds all sit in the store, under the id asked for. *)
Lemma resolve_In (ts : dict Task) (ids : list string) (task : Task) :
  In task (resolve ts ids) -> exists k, In k ids /\ get ts k = Some task.
Proof.
  unfold resolve. rewrite in_flat_map. intros (k & Hin & Hm).
  exists k. split; [exact Hin|].
  destruct (get ts k) as [t|]; [|contradiction].
  destruct Hm as [->|[]]. reflexivity.
Qed.

Lemma resolve_del_id (ts : dict Task) (ids : list string) (task_id : string) (task : Task) :
  wf ts -> keyed ts -> In task (resolve (del ts task_id) ids) -> id task <> task_id.
Proof.
  intros Hwf Hk Hin. apply resolve_In in Hin. destruct Hin as (k & _ & Hget).
  destruct (String.eqb_spec task_id k) as [->|Hne].
  - rewrite get_del_eq in Hget by exact Hwf. discriminate.
  - rewrite get_del_neq in Hget by exact Hne.
    apply get_In, Hk in Hget. congruence.
Qed.

End RemoveFacts.

Section GraphWf.
Import TaskStatus TaskDAG.

Lemma wf_append (d : ddict) (k x : string) : wf d -> wf (dd_append d k x).
Proof. intros Hwf. unfold dd_append. now apply wf_set, wf_touch. Qed.

Lemma wf_touch_fold (ks : list string) : forall d : ddict,
  wf d -> wf (fold_left dd_touch ks d).
Proof.
  induction ks as [|k ks IH]; intros d Hwf; simpl; [exact Hwf|].
  now apply IH, wf_touch.
Qed.

Lemma wf_add_edges (task : Task) (self : TaskDAG.t) :
  wf (_adjacency_list self) -> wf (_reverse_adjacency self) ->
  wf (_adjacency_list (add_edges task self))
  /\ wf (_reverse_adjacency (add_edges task self)).
Proof.
  unfold add_edges. generalize (dependencies task) as deps. intros deps. revert self.
  induction deps as [|dep deps IH]; intros self Ha Hr; simpl; [now split|].
  apply IH; simpl; now apply wf_append.
Qed.

Lemma index_has_cycle (self : TaskDAG.t) :
  wf (_adjacency_list self) ->
  wf (_adjacency_list (snd (_has_cycle self)))
  /\ _reverse_adjacency (snd (_has_cycle self)) = _reverse_adjacency self.
Proof.
  intros Hwf. unfold _has_cycle.
  destruct (has_cycle_run self) as [[found visited]|]; simpl; [|now split].
  split; [now apply wf_touch_fold | reflexivity].
Qed.

Lemma graph_wf_init : graph_wf TaskDAG.init.
Proof. split; [apply tasks_ok_init | split; constructor]. Qed.

Lemma graph_wf_add_task (task : Task) (self : TaskDAG.t) :
  graph_wf self -> graph_wf (snd (add_task task self)).
Proof.
  intros (Hok & Ha & Hr). split; [now apply tasks_ok_add_task|].
  unfold add_task.
  set (self1 := add_edges task (with_tasks self (set (tasks self) (id task) task))).
  destruct (wf_add_edges task (with_tasks self (set (tasks self) (id task) task)) Ha Hr)
    as [Ha1 Hr1]. fold self1 in Ha1, Hr1.
  destruct (index_has_cycle self1 Ha1) as [Ha2 Hr2].
  destruct (_has_cycle self1) as [cyclic self2]. simpl in Ha2, Hr2.
  destruct cyclic; simpl; rewrite Hr2; now split.
Qed.

Lemma graph_wf_add_tasks (l : list Task) (self : TaskDAG.t) :
  graph_wf self -> graph_wf (snd (add_tasks l self)).
Proof.
  revert self. induction l as [|task l IH]; intros self Hwf; simpl; [exact Hwf|].
  pose proof (graph_wf_add_task task self Hwf) as H.
  destruct (add_task task self) as [[[]|e] self']; simpl in *; auto.
Qed.

Lemma graph_wf_remove_task (i : string) (self : TaskDAG.t) :
  graph_wf self -> graph_wf (remove_task i self).
Proof.
  intros (Hok & Ha & Hr). split; [now apply tasks_ok_remove_task|].
  unfold remove_task. destruct (get (tasks self) i) as [task|]; [|now split].
  simpl. split; apply wf_del.
  - now apply wf_touch, wf_discard_fold.
  - now apply wf_discard_fold.
Qed.

Lemma graph_wf_mark_status (i : string) (s : TaskStatus.t) (self : TaskDAG.t) :
  graph_wf self -> graph_wf (mark_status i s self).
Proof.
  intros (Hok & Ha & Hr). split; [now apply tasks_ok_mark_status|].
  unfold mark_status. destruct (get (tasks self) i); now split.
Qed.

Lemma length_del {V : Type} (d : dict V) (k : string) (v : V) :
  get d k = Some v -> S (length (del d k)) = length d.
Proof.
  induction d as [|[k0 v0] d IH]; simpl; [discriminate|].
  destruct (String.eqb k k0); [reflexivity|]. intros H. simpl. now rewrite IH.
Qed.

End GraphWf.

Section RemoveTheorems.
Import TaskStatus TaskDAG.

(** C7.  In a well-formed graph, [remove_task task_id] returns normally.
    If [task_id] is not stored, the graph (tasks and both indexes) is left
    exactly as it was.  If it is stored, then afterwards: the task is gone
    and the other tasks are unchanged; no task with that id is returned by
    [get_task_dependents] or [get_task_dependencies], whatever task they are
    asked about; both indexes have lost their own entry for [task_id]; under
    every other key the forward index has lost one occurrence of [task_id]
    for each time the removed task listed that key as a dependency, the
    reverse index one for each time the key was listed as a dependent of
    [task_id], and the occurrences of all other ids are untouched. *)
Theorem remove_task_spec (task_id : string) (self : TaskDAG.t) :
  graph_wf self ->
  let self' := remove_task task_id self in
  (get_task task_id self = None -> self' = self)
  /\ (forall task, get_task task_id self = Some task ->
        get_task task_id self' = None
        /\ S (len self') = len self
        /\ (forall k, k <> task_id -> get_task k self' = get_task k self)
        /\ (forall other dependent,
              In dependent (fst (get_task_dependents other self')) ->
              id dependent <> task_id)
        /\ (forall other dependency,
              In dependency (get_task_dependencies other self') ->
              id dependency <> task_id)
        /\ mem (_adjacency_list self') task_id = false
        /\ mem (_reverse_adjacency self') task_id = false
        /\ (forall k, k <> task_id ->
              edge_count (_adjacency_list self') k task_id =
              edge_count (_adjacency_list self) k task_id
              - count_occ string_dec (dependencies task) k)
        /\ (forall k, k <> task_id ->
              edge_count (_reverse_adjacency self') k task_id =
              edge_count (_reverse_adjacency self) k task_id
              - edge_count (_adjacency_list self) task_id k)
        /\ (forall k x, k <> task_id -> x <> task_id ->
              edge_count (_adjacency_list self') k x = edge_count (_adjacency_list self) k x
              /\ edge_count (_reverse_adjacency self') k x =
                 edge_count (_reverse_adjacency self) k x)).
Proof.
  intros ((Hwf & Hk) & Ha & Hr) self'. split.
  - intros Hnone. subst self'. unfold remove_task, get_task in *. now rewrite Hnone.
  - intros task Hget. unfold get_task in Hget.
    assert (Hs : self' =
      mk (del (tasks self) task_id)
         (del (dd_touch (fold_left (fun adj dep_id => dd_discard adj dep_id task_id)
                                   (dependencies task) (_adjacency_list self)) task_id)
              task_id)
         (del (fold_left (fun radj dependent_id => dd_discard radj dependent_id task_id)
                 (dd_lookup (fold_left (fun adj dep_id => dd_discard adj dep_id task_id)
                                       (dependencies task) (_adjacency_list self)) task_id)
                 (_reverse_adjacency self))
              task_id)).
    { subst self'. unfold remove_task. now rewrite Hget. }
    rewrite Hs. unfold get_task, len, get_task_dependents, get_task_dependencies, edge_count.
    cbn [tasks _adjacency_list _reverse_adjacency fst with_adjacency].
    repeat match goal with |- _ /\ _ => split end.
    + now apply get_del_eq.
    + now apply length_del with (v := task).
    + intros k Hne. apply get_del_neq. congruence.
    + intros other dependent Hin. eapply resolve_del_id; eauto.
    + intros other dependency Hin.
      destruct (get (del (tasks self) task_id) other); [|contradiction].
      eapply resolve_del_id; eauto.
    + apply mem_del. now apply wf_touch, wf_discard_fold.
    + apply mem_del. now apply wf_discard_fold.
    + intros k Hne. rewrite dd_lookup_del_neq by congruence.
      rewrite dd_lookup_touch. apply discard_fold_count.
    + intros k Hne. rewrite dd_lookup_del_neq by congruence.
      rewrite discard_fold_count. f_equal.
      apply discard_fold_other. congruence.
    + intros k x Hk' Hx. rewrite !dd_lookup_del_neq by congruence.
      rewrite dd_lookup_touch. split; apply discard_fold_other; congruence.
Qed.

Lemma graph_wf_chain_graph : graph_wf chain_graph.
Proof. apply graph_wf_add_tasks, graph_wf_init. Qed.

Lemma remove_task_spec_witness :
  remove_task "ghost" chain_graph = chain_graph
  /\ get_task "B" (remove_task "B" chain_graph) = None
  /\ fst (get_task_dependents "A" (remove_task "B" chain_graph)) = []
  /\ get_task_dependencies "C" (remove_task "B" chain_graph) = [].
Proof.
  destruct (remove_task_spec "ghost" chain_graph graph_wf_chain_graph) as [Hnoop _].
  destruct (remove_task_spec "B" chain_graph graph_wf_chain_graph) as [_ Hrm].
  split; [apply Hnoop; vm_compute; reflexivity|].
  destruct (Hrm (new_task "B" ["A"] 100%Z 2%Z)) as (Hgone & _);
    [vm_compute; reflexivity|].
  split; [exact Hgone|]. split; vm_compute; reflexivity.
Defined.

End RemoveTheorems.

(** ** Cycle detection: [dfs] terminates within its fuel *)
Lemma set_add_In (x y : string) (s : list string) :
  In y (set_add x s) <-> y = x \/ In y s.
Proof.
  unfold set_add. destruct (set_mem x s) eqn:E; simpl.
  - apply set_mem_In in E. split; [tauto|]. intros [->|H]; assumption.
  - split; intros [H|H]; auto.
Qed.

Lemma set_remove_In (x y : string) (s : list string) :
  In y (set_remove x s) <-> In y s /\ y <> x.
Proof.
  unfold set_remove. rewrite filter_In, negb_true_iff.
  destruct (String.eqb_spec x y) as [->|Hne]; split; intros [H1 H2];
    try discriminate; try tauto; split; congruence.
Qed.

Lemma unvisited_mono (U v v' : list string) :
  incl v v' -> unvisited U v' <= unvisited U v.
Proof.
  intros Hincl. unfold unvisited. induction U as [|u l IH]; simpl; [lia|].
  destruct (set_mem u v') eqn:E'; destruct (set_mem u v) eqn:E; simpl; try lia.
  apply set_mem_In in E. apply set_mem_false in E'. exfalso. auto.
Qed.

Lemma unvisited_lt (U : list string) (x : string) (v v' : list string) :
  incl v v' -> In x U -> ~ In x v -> In x v' -> unvisited U v' < unvisited U v.
Proof.
  intros Hincl HU Hv Hv'. unfold unvisited. induction U as [|u l IH]; [contradiction|].
  simpl. destruct HU as [->|HU].
  - apply set_mem_false in Hv. apply set_mem_In in Hv'. rewrite Hv, Hv'. simpl.
    pose proof (unvisited_mono l v v' Hincl) as Hm. unfold unvisited in Hm. lia.
  - specialize (IH HU).
    destruct (set_mem u v') eqn:E'; destruct (set_mem u v) eqn:E; simpl; try lia.
    apply set_mem_In in E. apply set_mem_false in E'. exfalso. auto.
Qed.

Section DfsTotal.
Import TaskDAG.

Variable adj : ddict.
Variable U : list string.
Hypothesis U_closed : forall x y, index_edge adj x y -> In y U.

Lemma dfs_loop_total (fuel : nat) (task_id : string)
      (IH : forall id visited rec_stack,
          In id U -> set_mem id visited = false -> unvisited U visited <= fuel ->
          exists b v r, dfs fuel adj id visited rec_stack = Some (b, v, r)
                        /\ incl visited v) :
  forall dependents visited rec_stack,
    (forall d, In d dependents -> In d U) ->
    unvisited U visited <= fuel ->
    exists b v r,
      dfs_loop (dfs fuel adj) task_id dependents visited rec_stack = Some (b, v, r)
      /\ incl visited v.
Proof.
  induction dependents as [|d ds IHds]; intros visited rec_stack HU Hfuel; simpl.
  - do 3 eexists. split; [reflexivity | apply incl_refl].
  - destruct (set_mem d visited) eqn:Ed; simpl.
    + destruct (set_mem d rec_stack).
      * do 3 eexists. split; [reflexivity | apply incl_refl].
      * apply IHds; [|exact Hfuel]. intros d' Hd'. apply HU. now right.
    + destruct (IH d visited rec_stack) as (b & v & r & Hrun & Hincl);
        [apply HU; now left | exact Ed | exact Hfuel |].
      rewrite Hrun. destruct b.
      * do 3 eexists. split; [reflexivity | exact Hincl].
      * destruct (IHds v r) as (b' & v' & r' & Hrun' & Hincl').
        -- intros d' Hd'. apply HU. now right.
        -- pose proof (unvisited_mono U visited v Hincl). lia.
        -- rewrite Hrun'. do 3 eexists. split; [reflexivity|].
           eapply incl_tran; eauto.
Qed.

Lemma dfs_total : forall fuel task_id visited rec_stack,
  In task_id U -> set_mem task_id visited = false -> unvisited U visited <= fuel ->
  exists b v r, dfs fuel adj task_id visited rec_stack = Some (b, v, r)
                /\ incl visited v.
Proof.
  induction fuel as [|fuel IH]; intros task_id visited rec_stack HU Hv Hfuel.
  - exfalso. apply set_mem_false in Hv.
    pose proof (unvisited_lt U task_id visited (task_id :: visited)
                  (incl_tl _ (incl_refl _)) HU Hv (or_introl eq_refl)). lia.
  - simpl.
    assert (Hadd : set_add task_id visited = task_id :: visited).
    { unfold set_add. now rewrite Hv. }
    destruct (dfs_loop_total fuel task_id IH (dd_lookup adj task_id)
                (set_add task_id visited) (set_add task_id rec_stack))
      as (b & v & r & Hrun & Hincl).
    + intros d Hd. eapply U_closed. exact Hd.
    + rewrite Hadd. apply set_mem_false in Hv.
      pose proof (unvisited_lt U task_id visited (task_id :: visited)
                    (incl_tl _ (incl_refl _)) HU Hv (or_introl eq_refl)). lia.
    + exists b, v, r. split; [exact Hrun|].
      rewrite Hadd in Hincl. intros x Hx. apply Hincl. now right.
Qed.

Lemma dfs_roots_total (fuel : nat) : forall roots visited rec_stack,
  (forall x, In x roots -> In x U) ->
  length U <= fuel ->
  exists b v, dfs_roots fuel adj roots visited rec_stack = Some (b, v).
Proof.
  induction roots as [|x roots IH]; intros visited rec_stack HU Hfuel; simpl.
  - now do 2 eexists.
  - assert (HU' : forall y, In y roots -> In y U) by (intros y Hy; apply HU; now right).
    destruct (set_mem x visited) eqn:E; simpl; [now apply IH|].
    destruct (dfs_total fuel x visited rec_stack) as (b & v & r & Hrun & _).
    + apply HU. now left.
    + exact E.
    + unfold unvisited. pose proof (filter_length_le (fun u => negb (set_mem u visited)) U).
      lia.
    + rewrite Hrun. destruct b; [now do 2 eexists | now apply IH].
Qed.

End DfsTotal.

(** [_has_cycle] never runs out of fuel. *)
Lemma has_cycle_run_total (self : TaskDAG.t) :
  exists found visited, TaskDAG.has_cycle_run self = Some (found, visited).
Proof.
  unfold TaskDAG.has_cycle_run.
  apply dfs_roots_total with (U := TaskDAG.nodes self).
  - intros x y Hxy. unfold index_edge, dd_lookup in Hxy. unfold TaskDAG.nodes.
    apply in_or_app. right.
    destruct (get (TaskDAG._adjacency_list self) x) as [l|] eqn:E; [|contradiction].
    apply get_In in E. apply in_concat. exists l. split; [|exact Hxy].
    unfold values. apply in_map_iff. now exists (x, l).
  - intros x Hx. unfold TaskDAG.nodes. apply in_or_app. now left.
  - lia.
Qed.

(** ** Cycle detection: [dfs] only reports cycles that exist *)
Section DfsSound.
Import TaskDAG.

Variable adj : ddict.
Variable roots0 : list string.

Let reach : string -> string -> Prop := clos_refl_trans string (index_edge adj).
Let from_roots (y : string) : Prop := exists x, In x roots0 /\ reach x y.

Lemma back_edge_cycle (a b : string) :
  from_roots a -> index_edge adj a b -> reach b a -> cycle_reachable adj roots0.
Proof.
  intros (x & Hx & Hxa) Hab Hba. exists x, a. split; [exact Hx|]. split; [exact Hxa|].
  apply clos_rt_rtn1 in Hba. induction Hba as [|y z Hyz Hby IH].
  - now apply t_step.
  - apply clos_rtn1_rt in Hby.
    apply t_trans with (y := b); [now apply t_step|].
    apply clos_rt_t with (y := y); [exact Hby | now apply t_step].
Qed.

Lemma from_roots_step (a b : string) : from_roots a -> index_edge adj a b -> from_roots b.
Proof.
  intros (x & Hx & Hxa) Hab. exists x. split; [exact Hx|].
  eapply rt_trans; [exact Hxa | now apply rt_step].
Qed.

Lemma dfs_loop_sound (fuel : nat) (task_id : string)
      (IH : forall id visited rec_stack b v r,
          dfs fuel adj id visited rec_stack = Some (b, v, r) ->
          from_roots id ->
          (forall x, In x rec_stack -> reach x id) ->
          (b = true -> cycle_reachable adj roots0) /\ (b = false -> incl r rec_stack)) :
  forall dependents visited rec_stack b v r,
    from_roots task_id ->
    (forall d, In d dependents -> index_edge adj task_id d) ->
    (forall x, In x rec_stack -> reach x task_id) ->
    dfs_loop (dfs fuel adj) task_id dependents visited rec_stack = Some (b, v, r) ->
    (b = true -> cycle_reachable adj roots0)
    /\ (b = false -> forall x, In x r -> In x rec_stack /\ x <> task_id).
Proof.
  induction dependents as [|d ds IHds];
    intros visited rec_stack b v r Hroot Hedge Hstack; simpl.
  - intros [= <- <- <-]. split; [discriminate|].
    intros _ x Hx. now apply set_remove_In in Hx.
  - assert (Hds : forall d', In d' ds -> index_edge adj task_id d')
      by (intros d' Hd'; apply Hedge; now right).
    assert (Hd : index_edge adj task_id d) by (apply Hedge; now left).
    destruct (set_mem d visited) eqn:Ev; simpl.
    + destruct (set_mem d rec_stack) eqn:Er.
      * intros [= <- <- <-]. split; [|discriminate]. intros _.
        apply set_mem_In in Er. eapply back_edge_cycle; eauto.
      * now apply IHds.
    + destruct (dfs fuel adj d visited rec_stack) as [[[b1 v1] r1]|] eqn:Hrun;
        [|discriminate].
      destruct (IH _ _ _ _ _ _ Hrun) as [Hcyc Hincl].
      { eapply from_roots_step; eauto. }
      { intros x Hx. eapply rt_trans; [now apply Hstack | now apply rt_step]. }
      destruct b1.
      * intros [= <- <- <-]. split; [auto | discriminate].
      * specialize (Hincl eq_refl). intros Hloop.
        destruct (IHds v1 r1 b v r Hroot Hds) as [Hc Hr]; [|exact Hloop|].
        { intros x Hx. auto. }
        split; [exact Hc|]. intros Hb x Hx.
        destruct (Hr Hb x Hx) as [Hin Hne]. auto.
Qed.

Lemma dfs_sound : forall fuel task_id visited rec_stack b v r,
  dfs fuel adj task_id visited rec_stack = Some (b, v, r) ->
  from_roots task_id ->
  (forall x, In x rec_stack -> reach x task_id) ->
  (b = true -> cycle_reachable adj roots0) /\ (b = false -> incl r rec_stack).
Proof.
  induction fuel as [|fuel IH]; intros task_id visited rec_stack b v r; simpl;
    [discriminate|].
  intros Hrun Hroot Hstack.
  pose proof (dfs_loop_sound fuel task_id IH (dd_lookup adj task_id)
                (set_add task_id visited) (set_add task_id rec_stack) b v r
                Hroot (fun d H => H)) as Hloop.
  destruct Hloop as [Hc Hr]; [|exact Hrun|].
  - intros x Hx. apply set_add_In in Hx. destruct Hx as [->|Hx]; [apply rt_refl | auto].
  - split; [exact Hc|]. intros Hb x Hx. destruct (Hr Hb x Hx) as [Hin Hne].
    apply set_add_In in Hin. tauto.
Qed.

Lemma dfs_roots_sound (fuel : nat) : forall roots visited v,
  incl roots roots0 ->
  dfs_roots fuel adj roots visited [] = Some (true, v) -> cycle_reachable adj roots0.
Proof.
  induction roots as [|x roots IH]; intros visited v Hincl; simpl; [discriminate|].
  assert (Hincl' : incl roots roots0) by (intros y Hy; apply Hincl; now right).
  destruct (set_mem x visited); simpl; [now apply IH|].
  destruct (dfs fuel adj x visited []) as [[[b1 v1] r1]|] eqn:Hrun; [|discriminate].
  destruct (dfs_sound _ _ _ _ _ _ _ Hrun) as [Hc Hr].
  { exists x. split; [apply Hincl; now left | apply rt_refl]. }
  { intros y []. }
  destruct b1; [auto|].
  specialize (Hr eq_refl). destruct r1 as [|y r1]; [now apply IH|].
  exfalso. apply (Hr y). now left.
Qed.

End DfsSound.

(** A cycle reported by [_has_cycle] is a cycle of the forward index that can
    be reached from a stored task. *)
Lemma has_cycle_sound (self : TaskDAG.t) :
  fst (TaskDAG._has_cycle self) = true ->
  cycle_reachable (TaskDAG._adjacency_list self) (keys (TaskDAG.tasks self)).
Proof.
  unfold TaskDAG._has_cycle.
  destruct (has_cycle_run_total self) as (found & visited & Hrun). rewrite Hrun. simpl.
  intros ->. unfold TaskDAG.has_cycle_run in Hrun.
  eapply dfs_roots_sound; [apply incl_refl | exact Hrun].
Qed.

(** ** Cycle detection: [dfs] misses no cycle *)
Section DfsComplete.
Import TaskDAG.

Variable adj : ddict.

Lemma finished_ranked_pop (u : string) (visited rec_stack : list string) :
  In u rec_stack ->
  finished_ranked adj visited rec_stack ->
  (forall v, index_edge adj u v -> In v visited /\ ~ In v rec_stack) ->
  finished_ranked adj visited (set_remove u rec_stack).
Proof.
  intros Hu [rank Hrank] Hsucc.
  exists (fun x => if String.eqb x u
                   then S (list_max (map rank (dd_lookup adj u))) else rank x).
  intros w v Hw Hnw Hwv.
  assert (Hv : In v visited /\ ~ In v rec_stack /\
               (w = u \/ (w <> u /\ rank v < rank w))).
  { destruct (string_dec w u) as [->|Hne].
    - destruct (Hsucc v Hwv). tauto.
    - assert (Hnw' : ~ In w rec_stack).
      { intros H. apply Hnw, set_remove_In. auto. }
      destruct (Hrank w v Hw Hnw' Hwv) as (H1 & H2 & H3). tauto. }
  destruct Hv as (Hv1 & Hv2 & Hcase).
  assert (Hvu : v <> u) by (intros ->; contradiction).
  split; [exact Hv1|]. split.
  - intros H. apply set_remove_In in H. tauto.
  - destruct (String.eqb_spec v u); [contradiction|].
    destruct Hcase as [->|[Hne Hlt]].
    + rewrite String.eqb_refl.
      assert (Hle : rank v <= list_max (map rank (dd_lookup adj u))).
      { pose proof (proj1 (list_max_le (map rank (dd_lookup adj u)) _) (le_n _)) as Hall.
        rewrite Forall_forall in Hall. apply Hall. now apply in_map. }
      lia.
    + destruct (String.eqb_spec w u); [contradiction|exact Hlt].
Qed.

Lemma dfs_loop_complete (fuel : nat) (u : string)
      (IH : forall d visited rec_stack v' r',
          dfs fuel adj d visited rec_stack = Some (false, v', r') ->
          ~ In d visited -> incl rec_stack visited ->
          finished_ranked adj visited rec_stack ->
          incl visited v' /\ In d v' /\ (forall x, In x r' <-> In x rec_stack)
          /\ finished_ranked adj v' r') :
  forall dependents finished visited rec_stack v' r',
    dfs_loop (dfs fuel adj) u dependents visited rec_stack = Some (false, v', r') ->
    In u visited -> In u rec_stack -> incl rec_stack visited ->
    finished_ranked adj visited rec_stack ->
    (forall v, index_edge adj u v -> In v finished \/ In v dependents) ->
    (forall d, In d finished -> In d visited /\ ~ In d rec_stack) ->
    incl visited v'
    /\ (forall x, In x r' <-> In x rec_stack /\ x <> u)
    /\ finished_ranked adj v' r'.
Proof.
  induction dependents as [|d ds IHds];
    intros finished visited rec_stack v' r' Hrun Huv Hur Hincl Hfin Hsucc Hdone;
    simpl in Hrun.
  - injection Hrun as <- <-. split; [apply incl_refl|]. split.
    + intros x. apply set_remove_In.
    + apply finished_ranked_pop; auto.
      intros v Hv. destruct (Hsucc v Hv) as [H|[]]. auto.
  - destruct (set_mem d visited) eqn:Ev; simpl in Hrun.
    + destruct (set_mem d rec_stack) eqn:Er; [discriminate|].
      apply set_mem_In in Ev. apply set_mem_false in Er.
      apply (IHds (d :: finished)) in Hrun; auto.
      * intros v Hv. destruct (Hsucc v Hv) as [H|[<-|H]]; simpl; auto.
      * intros d' [<-|Hd']; auto.
    + apply set_mem_false in Ev.
      destruct (dfs fuel adj d visited rec_stack) as [[[b1 v1] r1]|] eqn:Hrec;
        [|discriminate].
      destruct b1; [discriminate|].
      destruct (IH _ _ _ _ _ Hrec Ev Hincl Hfin) as (Hmono & Hd & Hr1 & Hfin1).
      apply (IHds (d :: finished)) in Hrun.
      * destruct Hrun as (Hmono' & Hr' & Hfin'). split; [eapply incl_tran; eauto|].
        split; [|exact Hfin']. intros x. rewrite Hr', Hr1. tauto.
      * auto.
      * now apply Hr1.
      * intros x Hx. apply Hmono, Hincl. now apply Hr1.
      * exact Hfin1.
      * intros v Hv. destruct (Hsucc v Hv) as [H|[<-|H]]; simpl; auto.
      * intros d' [<-|Hd'].
        -- split; [exact Hd|]. intros H. apply Ev, Hincl. now apply Hr1.
        -- destruct (Hdone d' Hd') as [H1 H2]. split; [auto|].
           intros H. apply H2. now apply Hr1.
Qed.

Lemma dfs_complete : forall fuel d visited rec_stack v' r',
  dfs fuel adj d visited rec_stack = Some (false, v', r') ->
  ~ In d visited -> incl rec_stack visited ->
  finished_ranked adj visited rec_stack ->
  incl visited v' /\ In d v' /\ (forall x, In x r' <-> In x rec_stack)
  /\ finished_ranked adj v' r'.
Proof.
  induction fuel as [|fuel IH]; intros d visited rec_stack v' r' Hrun Hd Hincl Hfin;
    simpl in Hrun; [discriminate|].
  assert (Hdr : ~ In d rec_stack) by (intros H; apply Hd, Hincl, H).
  apply (dfs_loop_complete fuel d IH _ []) in Hrun.
  - destruct Hrun as (Hmono & Hr & Hfin'). split; [|split; [|split]].
    + intros x Hx. apply Hmono, set_add_In. now right.
    + apply Hmono, set_add_In. now left.
    + intros x. rewrite Hr, set_add_In. split; [tauto|].
      intros Hx. split; [now right|]. intros ->. contradiction.
    + exact Hfin'.
  - apply set_add_In. now left.
  - apply set_add_In. now left.
  - intros x Hx. apply set_add_In in Hx. apply set_add_In. destruct Hx; auto.
  - destruct Hfin as [rank Hrank]. exists rank. intros w v Hw Hnw Hwv.
    apply set_add_In in Hw.
    assert (Hwd : w <> d) by (intros ->; apply Hnw, set_add_In; now left).
    assert (Hw' : In w visited) by tauto.
    assert (Hnw' : ~ In w rec_stack) by (intros H; apply Hnw, set_add_In; now right).
    destruct (Hrank w v Hw' Hnw' Hwv) as (H1 & H2 & H3).
    split; [apply set_add_In; now right|]. split; [|exact H3].
    intros H. apply set_add_In in H. destruct H as [->|H]; contradiction.
  - intros v Hv. now right.
  - intros d' [].
Qed.

Lemma dfs_roots_complete (fuel : nat) : forall roots visited v',
  dfs_roots fuel adj roots visited [] = Some (false, v') ->
  finished_ranked adj visited [] ->
  incl visited v' /\ incl roots v' /\ finished_ranked adj v' [].
Proof.
  induction roots as [|x roots IH]; intros visited v' Hrun Hfin; simpl in Hrun.
  - injection Hrun as <-. split; [apply incl_refl|]. split; [intros y []|exact Hfin].
  - destruct (set_mem x visited) eqn:Ev; simpl in Hrun.
    + apply set_mem_In in Ev. destruct (IH _ _ Hrun Hfin) as (Hmono & Hroots & Hfin').
      split; [exact Hmono|]. split; [|exact Hfin'].
      apply incl_cons; [now apply Hmono | exact Hroots].
    + apply set_mem_false in Ev.
      destruct (dfs fuel adj x visited []) as [[[b1 v1] r1]|] eqn:Hrec; [|discriminate].
      destruct b1; [discriminate|].
      destruct (dfs_complete _ _ _ _ _ _ Hrec Ev (incl_nil_l _) Hfin)
        as (Hmono & Hx & Hr1 & Hfin1).
      assert (Hnil : r1 = []).
      { destruct r1 as [|y r1]; [reflexivity|]. exfalso. apply (Hr1 y). now left. }
      subst r1. destruct (IH _ _ Hrun Hfin1) as (Hmono' & Hroots & Hfin').
      split; [eapply incl_tran; eauto|]. split; [|exact Hfin'].
      apply incl_cons; [now apply Hmono' | exact Hroots].
Qed.

Lemma finished_ranked_acyclic (visited : list string) (x y : string) :
  finished_ranked adj visited [] ->
  In x visited -> clos_refl_trans string (index_edge adj) x y ->
  In y visited /\ ~ clos_trans string (index_edge adj) y y.
Proof.
  intros [rank Hrank] Hx Hxy.
  assert (Hy : In y visited).
  { apply clos_rt_rt1n in Hxy. induction Hxy as [|a b c Hab _ IH]; [exact Hx|].
    apply IH. now apply (Hrank a b Hx (fun H => H)). }
  split; [exact Hy|]. intros Hcyc.
  assert (H : forall a b, clos_trans string (index_edge adj) a b ->
                In a visited -> In b visited /\ rank b < rank a).
  { intros a b Hab. induction Hab as [a b Hab|a b c _ IH1 _ IH2]; intros Ha.
    - destruct (Hrank a b Ha (fun H => H) Hab) as (H1 & _ & H3). auto.
    - destruct (IH1 Ha) as [Hb Hlt1]. destruct (IH2 Hb) as [Hc Hlt2]. split; [auto|lia]. }
  destruct (H y y Hcyc Hy) as [_ Hlt]. lia.
Qed.

End DfsComplete.

(** [_has_cycle] answers [True] exactly when the forward index has a cycle
    that can be reached from a stored task. *)
Lemma has_cycle_spec (self : TaskDAG.t) :
  fst (TaskDAG._has_cycle self) = true <->
  cycle_reachable (TaskDAG._adjacency_list self) (keys (TaskDAG.tasks self)).
Proof.
  split; [apply has_cycle_sound|].
  intros (x & y & Hx & Hxy & Hyy).
  destruct (fst (TaskDAG._has_cycle self)) eqn:E; [reflexivity|]. exfalso.
  unfold TaskDAG._has_cycle in E.
  destruct (has_cycle_run_total self) as (found & visited & Hrun).
  rewrite Hrun in E. simpl in E. subst found. unfold TaskDAG.has_cycle_run in Hrun.
  apply dfs_roots_complete in Hrun.
  - destruct Hrun as (_ & Hroots & Hfin).
    destruct (finished_ranked_acyclic _ visited x y Hfin (Hroots x Hx) Hxy) as [_ Hno].
    contradiction.
  - exists (fun _ => 0). intros u v [].
Qed.

(** ** Inserting a set of tasks with distinct ids *)
Section Insertion.
Import TaskDAG.

Lemma adjacency_add_edges (task : Task) (self : TaskDAG.t) :
  _adjacency_list (add_edges task self) =
  fold_left (fun a dep_id => dd_append a dep_id (id task))
            (dependencies task) (_adjacency_list self).
Proof.
  unfold add_edges. generalize (dependencies task) as deps. intros deps. revert self.
  induction deps as [|dep deps IH]; intros self; simpl; [reflexivity|].
  now rewrite IH.
Qed.

Lemma reverse_add_edges (task : Task) (self : TaskDAG.t) :
  _reverse_adjacency (add_edges task self) =
  fold_left (fun r dep_id => dd_append r (id task) dep_id)
            (dependencies task) (_reverse_adjacency self).
Proof.
  unfold add_edges. generalize (dependencies task) as deps. intros deps. revert self.
  induction deps as [|dep deps IH]; intros self; simpl; [reflexivity|].
  now rewrite IH.
Qed.

Lemma dd_lookup_append (d : ddict) (k x k' : string) :
  dd_lookup (dd_append d k x) k' =
  if String.eqb k' k then dd_lookup d k ++ [x] else dd_lookup d k'.
Proof.
  unfold dd_append. destruct (String.eqb_spec k' k) as [->|Hne].
  - apply dd_lookup_set_eq.
  - rewrite dd_lookup_set_neq by congruence. apply dd_lookup_touch.
Qed.

Lemma dd_lookup_append_fold (i x : string) (deps : list string) : forall a : ddict,
  dd_lookup (fold_left (fun a dep_id => dd_append a dep_id i) deps a) x =
  dd_lookup a x ++ map (fun _ => i) (filter (String.eqb x) deps).
Proof.
  induction deps as [|dep deps IH]; intros a; simpl; [now rewrite app_nil_r|].
  rewrite IH, dd_lookup_append.
  destruct (String.eqb_spec x dep) as [->|Hne]; simpl; [|reflexivity].
  now rewrite <- app_assoc.
Qed.

Lemma dd_lookup_touch_fold (ks : list string) (x : string) : forall d : ddict,
  dd_lookup (fold_left dd_touch ks d) x = dd_lookup d x.
Proof.
  induction ks as [|k ks IH]; intros d; simpl; [reflexivity|].
  now rewrite IH, dd_lookup_touch.
Qed.

Lemma append_fold_last (k : string) (deps : list string) :
  forall (r0 : ddict) (l : list string),
    ~ In k (keys r0) ->
    fold_left (fun r dep_id => dd_append r k dep_id) deps (r0 ++ [(k, l)]) =
    r0 ++ [(k, l ++ deps)].
Proof.
  induction deps as [|dep deps IH]; intros r0 l Hnot; simpl; [now rewrite app_nil_r|].
  assert (Hstep : dd_append (r0 ++ [(k, l)]) k dep = r0 ++ [(k, l ++ [dep])]).
  { unfold dd_append, dd_touch, dd_lookup, mem. rewrite get_app.
    apply get_None_keys in Hnot. rewrite Hnot. simpl. rewrite String.eqb_refl.
    apply get_None_keys in Hnot. now apply set_app_mid. }
  rewrite Hstep, IH by exact Hnot. now rewrite <- app_assoc.
Qed.

Lemma append_fold_new (k : string) (deps : list string) (r : ddict) :
  ~ In k (keys r) ->
  fold_left (fun r dep_id => dd_append r k dep_id) deps r =
  match deps with [] => r | _ :: _ => r ++ [(k, deps)] end.
Proof.
  intros Hnot. destruct deps as [|dep deps]; simpl; [reflexivity|].
  assert (Hstep : dd_append r k dep = r ++ [(k, [dep])]).
  { unfold dd_append, dd_touch, dd_lookup, mem.
    apply get_None_keys in Hnot. rewrite Hnot. simpl.
    apply get_None_keys in Hnot.
    rewrite <- (app_nil_r (r ++ [(k, [])])), <- app_assoc. simpl.
    rewrite set_app_mid by exact Hnot. reflexivity. }
  rewrite Hstep. now apply append_fold_last.
Qed.

Lemma dependents_of_In (ts : list Task) (x y : string) :
  In y (dependents_of ts x) <-> depends_on ts x y.
Proof.
  unfold dependents_of, depends_on. rewrite in_flat_map. split.
  - intros (task & Hin & Hy). apply in_map_iff in Hy. destruct Hy as (d & <- & Hd).
    apply filter_In in Hd. destruct Hd as [Hd Heq]. apply String.eqb_eq in Heq. subst d.
    now exists task.
  - intros (task & Hin & <- & Hd). exists task. split; [exact Hin|].
    apply in_map_iff. exists x. split; [reflexivity|].
    apply filter_In. split; [exact Hd | apply String.eqb_refl].
Qed.

Lemma keys_reverse_index (ts : list Task) : incl (keys (reverse_index ts)) (task_ids ts).
Proof.
  induction ts as [|task ts IH]; simpl; [apply incl_refl|].
  unfold reverse_index in *. simpl. unfold keys in *. rewrite map_app.
  apply incl_app.
  - destruct (dependencies task); simpl; [intros x [] | intros x [<-|[]]; now left].
  - now apply incl_tl.
Qed.

Lemma depends_on_incl (ts ts' : list Task) (a b : string) :
  incl ts ts' -> depends_on ts a b -> depends_on ts' a b.
Proof. intros Hincl (task & Hin & Hid & Hd). exists task. auto. Qed.

Lemma clos_trans_incl {A : Type} (R S : A -> A -> Prop) :
  (forall a b, R a b -> S a b) -> forall a b, clos_trans A R a b -> clos_trans A S a b.
Proof.
  intros HRS a b H. induction H as [a b H|a b c _ IH1 _ IH2].
  - apply t_step. auto.
  - eapply t_trans; eauto.
Qed.

(** One insertion into a graph that represents [done]. *)
Lemma represents_add_task (done : list Task) (task : Task) (self : TaskDAG.t) :
  represents done self ->
  ~ In (id task) (task_ids done) ->
  ~ has_dependency_cycle (done ++ [task]) ->
  fst (add_task task self) = Ok tt
  /\ represents (done ++ [task]) (snd (add_task task self)).
Proof.
  intros (Hts & Hadj & Hrev) Hfresh Hacyc.
  set (self1 := add_edges task (with_tasks self (set (tasks self) (id task) task))).
  assert (Hts1 : tasks self1 = map (fun t => (id t, t)) (done ++ [task])).
  { unfold self1. rewrite tasks_add_edges. simpl. rewrite set_new.
    - rewrite Hts, map_app. reflexivity.
    - apply mem_false_keys. rewrite Hts. unfold keys. rewrite map_map. exact Hfresh. }
  assert (Hadj1 : forall x, dd_lookup (_adjacency_list self1) x =
                            dependents_of (done ++ [task]) x).
  { intros x. unfold self1. rewrite adjacency_add_edges. simpl.
    rewrite dd_lookup_append_fold, Hadj. unfold dependents_of.
    rewrite flat_map_app. simpl. now rewrite app_nil_r. }
  assert (Hrev1 : _reverse_adjacency self1 = reverse_index (done ++ [task])).
  { unfold self1. rewrite reverse_add_edges. simpl. rewrite append_fold_new.
    - rewrite Hrev. unfold reverse_index. rewrite flat_map_app. simpl.
      destruct (dependencies task); simpl; now rewrite ?app_nil_r.
    - rewrite Hrev. intros Hin. now apply keys_reverse_index in Hin. }
  assert (Hno : fst (_has_cycle self1) = false).
  { destruct (fst (_has_cycle self1)) eqn:E; [|reflexivity].
    exfalso. apply Hacyc. destruct (has_cycle_sound self1 E) as (_ & x & _ & _ & Hx).
    exists x. eapply clos_trans_incl; [|exact Hx].
    intros a b Hab. unfold index_edge in Hab. rewrite Hadj1 in Hab.
    now apply dependents_of_In. }
  unfold add_task. fold self1.
  pose proof (tasks_has_cycle self1) as Ht2.
  assert (Ha2 : forall x, dd_lookup (_adjacency_list (snd (_has_cycle self1))) x =
                          dd_lookup (_adjacency_list self1) x).
  { intros x. unfold _has_cycle.
    destruct (has_cycle_run self1) as [[found visited]|]; [|reflexivity].
    simpl. apply dd_lookup_touch_fold. }
  assert (Hr2 : _reverse_adjacency (snd (_has_cycle self1)) = _reverse_adjacency self1).
  { unfold _has_cycle. destruct (has_cycle_run self1) as [[found visited]|]; reflexivity. }
  destruct (_has_cycle self1) as [cyclic self2]. cbn [fst snd] in *. subst cyclic.
  split; [reflexivity|]. cbn [snd]. unfold represents.
  rewrite Ht2, Hr2. split; [exact Hts1|]. split; [|exact Hrev1].
  intros x. now rewrite Ha2.
Qed.

Lemma represents_init : represents [] TaskDAG.init.
Proof. repeat split. Qed.

(** Inserting [todo] after [done] succeeds at every step. *)
Lemma add_tasks_represents (todo : list Task) : forall (done : list Task) (self : TaskDAG.t),
  represents done self ->
  NoDup (task_ids (done ++ todo)) ->
  ~ has_dependency_cycle (done ++ todo) ->
  exists self', add_tasks todo self = (Ok tt, self') /\ represents (done ++ todo) self'.
Proof.
  induction todo as [|task todo IH]; intros done self Hrep Hnd Hacyc; simpl.
  - exists self. rewrite app_nil_r. now split.
  - assert (Hsplit : done ++ task :: todo = (done ++ [task]) ++ todo)
      by now rewrite <- app_assoc.
    destruct (represents_add_task done task self Hrep) as [Hok Hrep'].
    + unfold task_ids in Hnd. rewrite map_app in Hnd. simpl in Hnd.
      apply NoDup_remove_2 in Hnd. intros Hin. apply Hnd. apply in_or_app. now left.
    + intros (x & Hx). apply Hacyc. exists x.
      eapply clos_trans_incl; [|exact Hx]. intros a b. apply depends_on_incl.
      rewrite Hsplit. apply incl_appl, incl_refl.
    + destruct (add_task task self) as [res self1]. simpl in Hok, Hrep'. subst res.
      rewrite Hsplit in *. now apply IH.
Qed.

End Insertion.

(** ** Topological sort: the loop terminates within its fuel *)
Section KahnTotal.
Import TaskDAG.

Lemma positive_count_set (in_degree : dict Z) (k : string) (n m : Z) :
  get in_degree k = Some n ->
  positive_count (set in_degree k m) + (if (0 <? n)%Z then 1 else 0) =
  positive_count in_degree + (if (0 <? m)%Z then 1 else 0).
Proof.
  unfold positive_count.
  induction in_degree as [|[k0 v0] d IH]; simpl; [discriminate|].
  destruct (String.eqb k k0); simpl.
  - intros [= ->]. destruct (0 <? n)%Z, (0 <? m)%Z; simpl; lia.
  - intros H. specialize (IH H). destruct (0 <? v0)%Z; simpl; lia.
Qed.

Lemma kahn_relax_fuel (dependents : list string) :
  forall in_degree queue in_degree' queue',
    kahn_relax dependents in_degree queue = Ok (in_degree', queue') ->
    kahn_fuel in_degree' queue' <= kahn_fuel in_degree queue.
Proof.
  induction dependents as [|c rest IH]; intros in_degree queue in_degree' queue'; simpl.
  - intros [= <- <-]. lia.
  - destruct (get in_degree c) as [n|] eqn:E; [|discriminate].
    intros Hrun. apply IH in Hrun.
    pose proof (positive_count_set in_degree c n (n - 1) E) as Hpos.
    unfold kahn_fuel, positive_count in *.
    destruct (n - 1 =? 0)%Z eqn:Ez.
    + rewrite length_app in Hrun. simpl in Hrun.
      destruct (0 <? n)%Z eqn:E1, (0 <? n - 1)%Z eqn:E2; lia.
    + destruct (0 <? n)%Z eqn:E1, (0 <? n - 1)%Z eqn:E2; lia.
Qed.

Lemma kahn_loop_total (ts : dict Task) : forall fuel adj in_degree queue sorted,
  kahn_fuel in_degree queue <= fuel ->
  exists outcome, kahn_loop fuel ts adj in_degree queue sorted = Some outcome.
Proof.
  induction fuel as [|fuel IH]; intros adj in_degree queue sorted Hfuel.
  - destruct queue as [|x queue]; simpl; [now eexists|].
    unfold kahn_fuel in Hfuel. simpl in Hfuel. lia.
  - destruct queue as [|x queue]; simpl; [now eexists|].
    destruct (get ts x) as [task|]; [|now eexists].
    destruct (kahn_relax (dd_lookup adj x) in_degree queue) as [[d' q']|e] eqn:Hrun;
      [|now eexists].
    apply IH. apply kahn_relax_fuel in Hrun.
    unfold kahn_fuel in *. simpl in Hfuel. lia.
Qed.

(** [topological_sort] never runs out of fuel. *)
Lemma kahn_run_total (self : TaskDAG.t) : exists outcome, kahn_run self = Some outcome.
Proof. unfold kahn_run. apply kahn_loop_total. lia. Qed.

End KahnTotal.

(** ** Topological sort: counting facts *)
Section Counting.

Lemma id_injective (ts : list Task) (t t' : Task) :
  NoDup (task_ids ts) -> In t ts -> In t' ts -> id t = id t' -> t = t'.
Proof.
  unfold task_ids. induction ts as [|t0 ts IH]; simpl; [tauto|].
  intros Hnd Ht Ht' Hid. inversion Hnd as [|? ? Hnotin Hnd']; subst.
  destruct Ht as [->|Ht], Ht' as [->|Ht']; auto.
  - exfalso. apply Hnotin. rewrite Hid. now apply in_map.
  - exfalso. apply Hnotin. rewrite <- Hid. now apply in_map.
Qed.

Lemma length_filter_count (x : string) (l : list string) :
  length (filter (String.eqb x) l) = count_occ string_dec l x.
Proof.
  induction l as [|y l IH]; simpl; [reflexivity|].
  destruct (string_dec y x) as [->|Hne].
  - rewrite String.eqb_refl. simpl. now rewrite IH.
  - destruct (String.eqb_spec x y); [congruence|exact IH].
Qed.

Lemma count_constant_map {A : Type} (i j : string) (l : list A) :
  count_occ string_dec (map (fun _ => i) l) j = if String.eqb i j then length l else 0.
Proof.
  induction l as [|a l IH]; simpl; [now destruct (String.eqb i j)|].
  rewrite IH. destruct (String.eqb_spec i j); destruct (string_dec i j); congruence.
Qed.

Lemma count_dependents_absent (ts : list Task) (x i : string) :
  ~ In i (task_ids ts) -> count_occ string_dec (dependents_of ts x) i = 0.
Proof.
  intros Hnot. apply count_occ_not_In. intros Hin.
  apply dependents_of_In in Hin. destruct Hin as (task & Hin & <- & _).
  apply Hnot. unfold task_ids. now apply in_map.
Qed.

(** The forward index lists a task under [x] as often as the task lists [x]. *)
Lemma count_dependents (ts : list Task) (x : string) (task : Task) :
  NoDup (task_ids ts) -> In task ts ->
  count_occ string_dec (dependents_of ts x) (id task) =
  count_occ string_dec (dependencies task) x.
Proof.
  unfold task_ids. induction ts as [|t0 ts IH]; simpl; [tauto|].
  intros Hnd Hin. inversion Hnd as [|? ? Hnotin Hnd']; subst.
  unfold dependents_of. simpl. fold (dependents_of ts x).
  rewrite count_occ_app, count_constant_map, length_filter_count.
  destruct Hin as [->|Hin].
  - rewrite String.eqb_refl, count_dependents_absent by exact Hnotin. lia.
  - destruct (String.eqb_spec (id t0) (id task)) as [Heq|Hne].
    + exfalso. apply Hnotin. rewrite Heq. now apply in_map.
    + now rewrite IH.
Qed.

Lemma set_mem_snoc (d x : string) (P : list string) :
  set_mem d (P ++ [x]) = set_mem d P || String.eqb d x.
Proof. unfold set_mem. rewrite existsb_app. simpl. now rewrite orb_false_r. Qed.

Lemma pending_snoc (P : list string) (x : string) (task : Task) :
  ~ In x P ->
  pending (P ++ [x]) task + count_occ string_dec (dependencies task) x = pending P task.
Proof.
  intros Hnot. unfold pending. induction (dependencies task) as [|d l IH]; simpl;
    [reflexivity|].
  rewrite set_mem_snoc.
  destruct (string_dec d x) as [->|Hne].
  - apply set_mem_false in Hnot. rewrite Hnot, String.eqb_refl. simpl. lia.
  - destruct (String.eqb_spec d x); [contradiction|].
    rewrite orb_false_r. destruct (set_mem d P); simpl; lia.
Qed.

Lemma pending_zero_incl (P : list string) (task : Task) :
  pending P task = 0 -> incl (dependencies task) P.
Proof.
  unfold pending. induction (dependencies task) as [|d l IH]; simpl; intros H.
  - intros x [].
  - destruct (set_mem d P) eqn:E; simpl in H; [|discriminate].
    apply set_mem_In in E. apply incl_cons; auto.
Qed.

Lemma pending_pos_witness (P : list string) (task : Task) :
  pending P task <> 0 -> exists d, In d (dependencies task) /\ ~ In d P.
Proof.
  unfold pending. induction (dependencies task) as [|d l IH]; simpl; intros H;
    [contradiction|].
  destruct (set_mem d P) eqn:E; simpl in H.
  - destruct (IH H) as (d' & Hin & Hnot). exists d'. auto.
  - exists d. split; [now left | now apply set_mem_false].
Qed.

Lemma ordered_from_snoc (l : list Task) (task : Task) : forall seen,
  ordered_from seen l ->
  incl (dependencies task) (seen ++ task_ids l) ->
  ordered_from seen (l ++ [task]).
Proof.
  induction l as [|t0 l IH]; intros seen Hord Hincl; simpl in *.
  - split; [|exact I]. now rewrite app_nil_r in Hincl.
  - destruct Hord as [H0 Hord]. split; [exact H0|].
    apply IH; [exact Hord|]. intros d Hd. specialize (Hincl d Hd).
    apply in_app_or in Hincl. apply in_or_app. simpl in *. tauto.
Qed.

(** In a list ordered from [seen], a dependency outside [seen] sits at an
    earlier position than the task that lists it. *)
Lemma ordered_from_earlier (l : list Task) : forall seen j tj d,
  ordered_from seen l -> nth_error l j = Some tj -> In d (dependencies tj) ->
  In d seen \/ exists i ti, i < j /\ nth_error l i = Some ti /\ id ti = d.
Proof.
  induction l as [|t0 l IH]; intros seen j tj d Hord Hj Hd; simpl in *.
  - destruct j; discriminate.
  - destruct Hord as [H0 Hord]. destruct j as [|j]; simpl in Hj.
    + injection Hj as <-. left. auto.
    + destruct (IH _ _ _ _ Hord Hj Hd) as [[<-|Hs]|(i & ti & Hlt & Hi & Hid)].
      * right. exists 0, t0. repeat split. lia.
      * now left.
      * right. exists (S i), ti. repeat split; [lia | exact Hi | exact Hid].
Qed.

End Counting.

(** ** Topological sort of a represented graph *)
Section KahnCorrect.
Import TaskDAG.

Variable ts : list Task.
Hypothesis ids_distinct : NoDup (task_ids ts).

Lemma count_snoc (seen : list string) (c i : string) :
  count_occ string_dec (seen ++ [c]) i =
  count_occ string_dec seen i + (if string_dec c i then 1 else 0).
Proof. rewrite count_occ_app. simpl. now destruct (string_dec c i). Qed.

Lemma relax_inv_start (P q : list string) (in_degree : dict Z) :
  (forall task, In task ts ->
     get in_degree (id task) = Some (Z.of_nat (pending P task))) ->
  relax_inv ts P [] q in_degree q.
Proof.
  intros Hdeg. split.
  - intros task Hin. rewrite (Hdeg task Hin). simpl. f_equal. lia.
  - exists []. rewrite app_nil_r. repeat split; [constructor | intros [] |].
    intros (task & _ & _ & Hpos & Hle). simpl in Hle. lia.
Qed.

Lemma relax_inv_step (P seen q0 : list string) (in_degree : dict Z) (queue : list string)
      (c : string) (n : Z) :
  relax_inv ts P seen q0 in_degree queue ->
  In c (task_ids ts) ->
  get in_degree c = Some n ->
  relax_inv ts P (seen ++ [c]) q0 (set in_degree c (n - 1)%Z)
            (if (n - 1 =? 0)%Z then queue ++ [c] else queue).
Proof.
  intros [Hdeg (fresh & Hq & Hfresh & Hiff)] Hc Hget.
  assert (Hn : forall task, In task ts -> id task = c ->
                 (Z.of_nat (pending P task)
                  - Z.of_nat (count_occ string_dec seen c))%Z = n).
  { intros task Hin Hid. specialize (Hdeg task Hin). rewrite Hid, Hget in Hdeg.
    congruence. }
  split.
  - intros task Hin. rewrite count_snoc.
    destruct (string_dec c (id task)) as [Heq|Hne].
    + rewrite <- Heq, get_set_eq. f_equal.
      specialize (Hn task Hin (eq_sym Heq)). lia.
    + rewrite get_set_neq by exact Hne. rewrite (Hdeg task Hin). f_equal. lia.
  - destruct (n - 1 =? 0)%Z eqn:Ez.
    + apply Z.eqb_eq in Ez. exists (fresh ++ [c]). split; [|split].
      * now rewrite Hq, app_assoc.
      * apply NoDup_app; [exact Hfresh | repeat constructor; simpl; tauto |].
        intros x Hx [<-|[]]. apply Hiff in Hx.
        destruct Hx as (task & Hin & Hid & Hpos & Hle).
        specialize (Hn task Hin Hid). lia.
      * intros c'. rewrite in_app_iff, Hiff, count_snoc. simpl. split.
        -- intros [(task & Hin & Hid & Hpos & Hle)|[<-|[]]].
           ++ exists task. repeat split; auto. lia.
           ++ apply in_map_iff in Hc. destruct Hc as (task & Hid & Hin).
              exists task. specialize (Hn task Hin Hid).
              destruct (string_dec c c); [|contradiction].
              repeat split; auto; lia.
        -- intros (task & Hin & Hid & Hpos & Hle).
           destruct (string_dec c c') as [<-|Hne].
           ++ right. now left.
           ++ left. exists task. repeat split; auto. lia.
    + apply Z.eqb_neq in Ez. exists fresh. split; [exact Hq|]. split; [exact Hfresh|].
      intros c'. rewrite Hiff, count_snoc. split.
      * intros (task & Hin & Hid & Hpos & Hle). exists task. repeat split; auto. lia.
      * intros (task & Hin & Hid & Hpos & Hle). exists task. repeat split; auto.
        destruct (string_dec c c') as [<-|Hne]; [|lia].
        specialize (Hn task Hin Hid). lia.
Qed.

(** The inner loop never raises on the ids of stored tasks and keeps
    [relax_inv]. *)
Lemma kahn_relax_inv (P q0 : list string) (rest : list string) :
  forall seen in_degree queue,
    relax_inv ts P seen q0 in_degree queue ->
    (forall c, In c rest -> In c (task_ids ts)) ->
    exists in_degree' queue',
      kahn_relax rest in_degree queue = Ok (in_degree', queue')
      /\ relax_inv ts P (seen ++ rest) q0 in_degree' queue'.
Proof.
  induction rest as [|c rest IH]; intros seen in_degree queue Hinv Hids; simpl.
  - do 2 eexists. split; [reflexivity|]. now rewrite app_nil_r.
  - assert (Hc : In c (task_ids ts)) by (apply Hids; now left).
    pose proof Hc as Hc'. apply in_map_iff in Hc'. destruct Hc' as (task & Hid & Hin).
    destruct Hinv as [Hdeg Hrest]. pose proof (Hdeg task Hin) as Hget.
    rewrite Hid in Hget. rewrite Hget.
    destruct (IH (seen ++ [c]) (set in_degree c
                (Z.of_nat (pending P task)
                 - Z.of_nat (count_occ string_dec seen c) - 1)%Z)
                (if (Z.of_nat (pending P task)
                     - Z.of_nat (count_occ string_dec seen c) - 1 =? 0)%Z
                 then queue ++ [c] else queue))
      as (d' & q' & Hrun & Hinv').
    + apply relax_inv_step; [now split | exact Hc | exact Hget].
    + intros c' Hc'. apply Hids. now right.
    + exists d', q'. split; [exact Hrun|]. now rewrite <- app_assoc in Hinv'.
Qed.

End KahnCorrect.

Section KahnLoop.
Import TaskDAG.

Variable ts : list Task.
Hypothesis ids_distinct : NoDup (task_ids ts).

Lemma task_of_id (x : string) :
  In x (task_ids ts) -> exists task, In task ts /\ id task = x.
Proof. intros H. apply in_map_iff in H. destruct H as (task & Hid & Hin). eauto. Qed.

Lemma dependents_are_tasks (x c : string) :
  In c (dependents_of ts x) -> In c (task_ids ts).
Proof.
  intros H. apply dependents_of_In in H. destruct H as (task & Hin & <- & _).
  unfold task_ids. now apply in_map.
Qed.

(** One iteration of [while queue]: after the inner loop has handled all the
    dependents of [x], the outer invariant holds again with [x] sorted. *)
Lemma kahn_inv_step (in_degree : dict Z) (queue : list string) (sorted : list Task)
      (task : Task) (in_degree' : dict Z) (queue' : list string) :
  kahn_inv ts in_degree (id task :: queue) sorted ->
  In task ts ->
  relax_inv ts (task_ids sorted) (dependents_of ts (id task)) queue in_degree' queue' ->
  kahn_inv ts in_degree' queue' (sorted ++ [task]).
Proof.
  set (x := id task). set (P := task_ids sorted).
  intros (Hnd & Hincl & Hdeg & Hready & Hsub & Hord) Hin
         [Hdeg' (fresh & -> & Hfresh & Hiff)].
  fold P in Hnd, Hincl, Hdeg, Hready.
  assert (HxP : ~ In x P).
  { apply NoDup_remove_2 in Hnd. intros H. apply Hnd, in_or_app. now left. }
  assert (Hcount : forall t, In t ts ->
            pending (P ++ [x]) t
            + count_occ string_dec (dependents_of ts x) (id t) = pending P t).
  { intros t Ht. rewrite (count_dependents ts x t ids_distinct Ht).
    now apply pending_snoc. }
  assert (Hshape : task_ids (sorted ++ [task]) ++ queue ++ fresh =
                   (P ++ x :: queue) ++ fresh).
  { unfold task_ids. rewrite map_app. simpl. fold (task_ids sorted). fold P. fold x.
    now rewrite <- !app_assoc. }
  assert (Hfresh_pos : forall c, In c fresh ->
            exists t, In t ts /\ id t = c /\ 0 < pending P t
                      /\ pending (P ++ [x]) t = 0).
  { intros c Hc. apply Hiff in Hc. destruct Hc as (t & Ht & Hid & Hpos & Hle).
    exists t. repeat split; auto. specialize (Hcount t Ht). rewrite Hid in Hcount. lia. }
  unfold kahn_inv. cbv zeta. rewrite Hshape.
  split; [|split; [|split; [|split; [|split]]]].
  - apply NoDup_app; [exact Hnd | exact Hfresh |].
    intros c Hc Hc'. destruct (Hfresh_pos c Hc') as (t & Ht & <- & Hpos & _).
    apply (Hready t Ht) in Hc. lia.
  - apply incl_app; [exact Hincl|]. intros c Hc.
    destruct (Hfresh_pos c Hc) as (t & Ht & <- & _). unfold task_ids. now apply in_map.
  - intros t Ht. rewrite (Hdeg' t Ht). f_equal.
    unfold task_ids at 1. rewrite map_app. simpl. fold (task_ids sorted). fold P. fold x.
    specialize (Hcount t Ht). fold P. lia.
  - intros t Ht.
    unfold task_ids at 1. rewrite map_app. simpl. fold (task_ids sorted). fold P. fold x.
    specialize (Hcount t Ht). rewrite in_app_iff. split.
    + intros [Hold|Hnew].
      * apply (Hready t Ht) in Hold. lia.
      * destruct (Hfresh_pos _ Hnew) as (t' & Ht' & Hid & _ & Hz).
        now rewrite <- (id_injective ts t' t ids_distinct Ht' Ht Hid).
    + intros Hz. destruct (Nat.eq_dec (pending P t) 0) as [Hp|Hp].
      * left. now apply (Hready t Ht).
      * right. apply Hiff. exists t. repeat split; auto; lia.
  - apply incl_app; [exact Hsub|]. intros t [<-|[]]. exact Hin.
  - apply ordered_from_snoc; [exact Hord|]. simpl. fold P.
    apply pending_zero_incl. apply (Hready task Hin).
    apply in_or_app. right. now left.
Qed.

Lemma kahn_loop_correct (store : dict Task) :
  store = map (fun task => (id task, task)) ts ->
  forall fuel adj in_degree queue sorted,
    kahn_inv ts in_degree queue sorted ->
    (forall x, dd_lookup adj x = dependents_of ts x) ->
    kahn_fuel in_degree queue <= fuel ->
    exists sorted' adj' in_degree',
      kahn_loop fuel store adj in_degree queue sorted = Some (Ok sorted', adj')
      /\ kahn_inv ts in_degree' [] sorted'.
Proof.
  intros Hstore. induction fuel as [|fuel IH]; intros adj in_degree queue sorted Hinv Hadj Hfuel.
  - destruct queue as [|x queue]; simpl; [now exists sorted, adj, in_degree|].
    unfold kahn_fuel in Hfuel. simpl in Hfuel. lia.
  - destruct queue as [|x queue]; simpl; [now exists sorted, adj, in_degree|].
    assert (Hx : In x (task_ids ts)).
    { destruct Hinv as (_ & Hincl & _). apply Hincl, in_or_app. right. now left. }
    destruct (task_of_id x Hx) as (task & Hin & Hid).
    assert (Hget : get store x = Some task).
    { apply In_get.
      - unfold wf, keys. rewrite Hstore, map_map. exact ids_distinct.
      - rewrite Hstore, <- Hid. apply in_map_iff. now exists task. }
    rewrite Hget, Hadj. subst x.
    destruct (kahn_relax_inv ts (task_ids sorted) queue (dependents_of ts (id task))
                [] in_degree queue) as (d' & q' & Hrun & Hinv').
    + apply relax_inv_start. now destruct Hinv as (_ & _ & Hdeg & _).
    + intros c. apply dependents_are_tasks.
    + rewrite Hrun. apply IH.
      * eapply kahn_inv_step; eauto.
      * intros y. now rewrite dd_lookup_touch.
      * apply kahn_relax_fuel in Hrun. unfold kahn_fuel in *. simpl in Hfuel. lia.
Qed.

End KahnLoop.

(** ** Topological sort: the initial in-degrees and queue *)
Section KahnInit.
Import TaskDAG.

Let fill : dict Z -> string -> dict Z :=
  fun deg task_id => if mem deg task_id then deg else set deg task_id 0%Z.

Lemma fill_keep (ks : list string) : forall (d : dict Z) k v,
  get d k = Some v -> get (fold_left fill ks d) k = Some v.
Proof.
  induction ks as [|k0 ks IH]; intros d k v Hget; simpl; [exact Hget|].
  apply IH. unfold fill. destruct (mem d k0) eqn:E; [exact Hget|].
  rewrite get_set_neq; [exact Hget|]. intros ->. unfold mem in E. now rewrite Hget in E.
Qed.

Lemma fill_new (ks : list string) : forall (d : dict Z) k,
  get d k = None -> In k ks -> get (fold_left fill ks d) k = Some 0%Z.
Proof.
  induction ks as [|k0 ks IH]; intros d k Hget Hin; simpl; [contradiction|].
  destruct (string_dec k0 k) as [->|Hne].
  - apply fill_keep. unfold fill, mem. rewrite Hget. apply get_set_eq.
  - destruct Hin as [Heq|Hin]; [contradiction|]. apply IH; [|exact Hin].
    unfold fill. destruct (mem d k0); [exact Hget|]. now rewrite get_set_neq.
Qed.

Lemma fill_origin (ks : list string) : forall (d : dict Z) k v,
  get (fold_left fill ks d) k = Some v ->
  get d k = Some v \/ (In k ks /\ v = 0%Z).
Proof.
  induction ks as [|k0 ks IH]; intros d k v Hget; simpl in *; [now left|].
  apply IH in Hget. destruct Hget as [Hget|[Hin ->]]; [|right; auto].
  unfold fill in Hget. destruct (mem d k0); [now left|].
  destruct (string_dec k0 k) as [->|Hne].
  - rewrite get_set_eq in Hget. injection Hget as <-. right. auto.
  - rewrite get_set_neq in Hget by exact Hne. now left.
Qed.

Lemma fill_wf (ks : list string) : forall d : dict Z, wf d -> wf (fold_left fill ks d).
Proof.
  induction ks as [|k0 ks IH]; intros d Hwf; simpl; [exact Hwf|].
  apply IH. unfold fill. destruct (mem d k0); [exact Hwf | now apply wf_set].
Qed.

Lemma wf_reverse_index (ts : list Task) : NoDup (task_ids ts) -> wf (reverse_index ts).
Proof.
  unfold wf, task_ids. induction ts as [|task ts IH]; simpl; intros Hnd; [constructor|].
  inversion Hnd as [|? ? Hnotin Hnd']; subst.
  unfold reverse_index. simpl. fold (reverse_index ts). unfold keys. rewrite map_app.
  destruct (dependencies task); simpl; [now apply IH|].
  constructor; [|now apply IH]. intros Hin. apply Hnotin.
  now apply keys_reverse_index in Hin.
Qed.

Lemma In_reverse_index (ts : list Task) (k : string) (l : list string) :
  In (k, l) (reverse_index ts) <->
  exists task, In task ts /\ id task = k /\ dependencies task = l /\ l <> [].
Proof.
  unfold reverse_index. rewrite in_flat_map. split.
  - intros (task & Hin & H). exists task. destruct (dependencies task) eqn:E; [contradiction|].
    destruct H as [[= <- <-]|[]]. repeat split; auto. discriminate.
  - intros (task & Hin & <- & <- & Hne). exists task. split; [exact Hin|].
    destruct (dependencies task); [contradiction | now left].
Qed.

Lemma get_reverse_index (ts : list Task) (task : Task) :
  NoDup (task_ids ts) -> In task ts ->
  get (reverse_index ts) (id task) =
  match dependencies task with [] => None | _ :: _ => Some (dependencies task) end.
Proof.
  intros Hnd Hin. destruct (dependencies task) as [|d l] eqn:E.
  - apply get_None_keys. intros Hk. apply in_map_iff in Hk.
    destruct Hk as ([k l'] & Hk & Hkl). simpl in Hk. subst k.
    apply In_reverse_index in Hkl. destruct Hkl as (t' & Ht' & Hid & Hdeps & Hne).
    rewrite (id_injective ts t' task Hnd Ht' Hin Hid) in Hdeps. congruence.
  - apply In_get; [now apply wf_reverse_index|].
    apply In_reverse_index. exists task. repeat split; auto. discriminate.
Qed.

Lemma pending_nil (task : Task) : pending [] task = length (dependencies task).
Proof.
  unfold pending. induction (dependencies task) as [|d l IH]; [reflexivity|].
  change (S (length (filter (fun d => negb (set_mem d [])) l)) = S (length l)).
  now f_equal.
Qed.

Lemma zero_keys_In (d : dict Z) (k : string) :
  wf d -> In k (zero_keys d) <-> get d k = Some 0%Z.
Proof.
  intros Hwf. unfold zero_keys, keys. rewrite in_map_iff. split.
  - intros ([k' v] & <- & Hin). apply filter_In in Hin. destruct Hin as [Hin Hz].
    simpl in *. apply Z.eqb_eq in Hz. subst v. now apply In_get.
  - intros Hget. exists (k, 0%Z). split; [reflexivity|].
    apply filter_In. split; [now apply get_In | reflexivity].
Qed.

Lemma NoDup_zero_keys (d : dict Z) : wf d -> NoDup (zero_keys d).
Proof.
  unfold wf, zero_keys, keys. induction d as [|[k v] d IH]; simpl; intros Hnd;
    [constructor|].
  inversion Hnd as [|? ? Hnotin Hnd']; subst.
  destruct (v =? 0)%Z; simpl; [|now apply IH].
  constructor; [|now apply IH]. intros Hin. apply Hnotin.
  apply in_map_iff in Hin. destruct Hin as (kv & <- & Hin).
  apply filter_In in Hin. now apply in_map.
Qed.

Variable ts : list Task.
Hypothesis ids_distinct : NoDup (task_ids ts).

Lemma kahn_inv_init (self : TaskDAG.t) :
  represents ts self ->
  kahn_inv ts (in_degree_init self) (zero_keys (in_degree_init self)) [].
Proof.
  intros (Hts & _ & Hrev).
  assert (Hkeys : keys (tasks self) = task_ids ts).
  { rewrite Hts. unfold keys, task_ids. now rewrite map_map. }
  set (start := map (fun kv : string * list string =>
                       (fst kv, Z.of_nat (length (snd kv)))) (reverse_index ts)).
  assert (Hinit : in_degree_init self = fold_left fill (task_ids ts) start).
  { unfold in_degree_init. now rewrite Hkeys, Hrev. }
  assert (Hstart : forall k, get start k =
            match get (reverse_index ts) k with
            | Some l => Some (Z.of_nat (length l))
            | None => None
            end).
  { intros k. unfold start.
    apply (get_map_values (fun kv => Z.of_nat (length (snd kv)))). }
  assert (Hwf : wf (in_degree_init self)).
  { rewrite Hinit. apply fill_wf. unfold wf, keys, start. rewrite map_map. simpl.
    now apply wf_reverse_index. }
  assert (Hdeg : forall task, In task ts ->
            get (in_degree_init self) (id task) =
            Some (Z.of_nat (length (dependencies task)))).
  { intros task Hin. rewrite Hinit.
    pose proof (Hstart (id task)) as Hs.
    rewrite (get_reverse_index ts task ids_distinct Hin) in Hs.
    destruct (dependencies task) as [|d l] eqn:E.
    - apply fill_new; [exact Hs|]. unfold task_ids. now apply in_map.
    - now apply fill_keep. }
  unfold kahn_inv. simpl. repeat split.
  - now apply NoDup_zero_keys.
  - intros k Hk. apply zero_keys_In in Hk; [|exact Hwf].
    rewrite Hinit in Hk. apply fill_origin in Hk. destruct Hk as [Hk|[Hk _]]; [|exact Hk].
    rewrite Hstart in Hk. destruct (get (reverse_index ts) k) as [l|] eqn:E; [|discriminate].
    apply get_In in E. apply keys_reverse_index. unfold keys.
    apply in_map_iff. now exists (k, l).
  - intros task Hin. rewrite pending_nil. now apply Hdeg.
  - intros Hin0. apply zero_keys_In in Hin0; [|exact Hwf].
    rewrite (Hdeg task H) in Hin0. rewrite pending_nil. injection Hin0. lia.
  - intros Hz. apply zero_keys_In; [exact Hwf|]. rewrite (Hdeg task H).
    rewrite pending_nil in Hz. now rewrite Hz.
  - intros t [].
Qed.

End KahnInit.

(** ** Acyclic graphs have no infinite descending chain *)
Lemma no_infinite_descent (ts : list Task) :
  ~ has_dependency_cycle ts ->
  forall (nodes : list string) (U : string -> Prop),
    (forall x, U x -> In x nodes) ->
    (forall x, U x -> exists y, U y /\ depends_on ts y x) ->
    forall x, ~ U x.
Proof.
  intros Hacyc. induction nodes as [|a rest IH]; intros U Hnodes Hdesc.
  - intros x Hx. exact (Hnodes x Hx).
  - assert (Ha : ~ U a).
    { intros HUa. destruct (Hdesc a HUa) as (y & HUy & Hya).
      apply (IH (fun z => U z /\ clos_trans string (depends_on ts) z a)) with (x := y).
      - intros z [HUz Hza]. destruct (Hnodes z HUz) as [<-|Hin]; [|exact Hin].
        exfalso. apply Hacyc. now exists a.
      - intros z [HUz Hza]. destruct (Hdesc z HUz) as (w & HUw & Hwz).
        exists w. repeat split; auto. eapply t_trans; [apply t_step|]; eauto.
      - split; [exact HUy|]. now apply t_step. }
    apply IH; [|exact Hdesc].
    intros x Hx. destruct (Hnodes x Hx) as [<-|Hin]; [contradiction|exact Hin].
Qed.

(** ** Topological sort of an acyclic task set *)
Section TopologicalSort.
Import TaskDAG.

Lemma acyclic_task_set_perm (ts order : list Task) :
  Permutation ts order -> acyclic_task_set ts -> acyclic_task_set order.
Proof.
  intros Hperm (Hnd & Hclosed & Hacyc).
  assert (Hin : forall t, In t order -> In t ts)
    by (intros t; apply Permutation_in; now symmetry).
  split; [|split].
  - eapply Permutation_NoDup; [|exact Hnd]. unfold task_ids. now apply Permutation_map.
  - intros task dep_id Htask Hdep.
    eapply Permutation_in; [unfold task_ids; apply Permutation_map; exact Hperm|].
    eapply Hclosed; eauto.
  - intros (x & Hx). apply Hacyc. exists x. eapply clos_trans_incl; [|exact Hx].
    intros a b. apply depends_on_incl. exact Hin.
Qed.

(** When the queue runs empty on an acyclic, closed task set, every task has
    been sorted. *)
Lemma kahn_inv_complete (ts : list Task) (in_degree : dict Z) (sorted : list Task) :
  acyclic_task_set ts ->
  kahn_inv ts in_degree [] sorted ->
  incl (task_ids ts) (task_ids sorted).
Proof.
  intros (Hnd & Hclosed & Hacyc) (_ & _ & _ & Hready & _).
  rewrite app_nil_r in Hready.
  pose proof (no_infinite_descent ts Hacyc (task_ids ts)
                (fun x => In x (task_ids ts) /\ ~ In x (task_ids sorted))) as Hdescent.
  intros x Hx. destruct (in_dec string_dec x (task_ids sorted)) as [Hin|Hnot];
    [exact Hin|].
  exfalso. apply (Hdescent (fun y H => proj1 H)) with (x := x); [|now split].
  intros y [Hy Hynot]. apply in_map_iff in Hy. destruct Hy as (task & <- & Hin).
  assert (Hp : pending (task_ids sorted) task <> 0).
  { intros Hz. apply Hynot. now apply (Hready task Hin). }
  destruct (pending_pos_witness _ _ Hp) as (d & Hd & Hdnot).
  exists d. split; [split; [eapply Hclosed; eauto | exact Hdnot]|].
  now exists task.
Qed.

Lemma ordered_dependencies_first (sorted : list Task) :
  NoDup (task_ids sorted) -> ordered_from [] sorted -> dependencies_first sorted.
Proof.
  intros Hnd Hord i j ti tj Hi Hj Hdep.
  destruct (ordered_from_earlier sorted [] j tj (id ti) Hord Hj Hdep)
    as [[]|(i' & ti' & Hlt & Hi' & Hid)].
  assert (Heq : i' = i).
  { apply (proj1 (NoDup_nth_error (task_ids sorted)) Hnd).
    - unfold task_ids. rewrite length_map. apply nth_error_Some. congruence.
    - unfold task_ids. rewrite (map_nth_error id _ _ Hi'), (map_nth_error id _ _ Hi).
      now rewrite Hid. }
  lia.
Qed.

(** [topological_sort] on the graph that represents an acyclic task set. *)
Lemma topological_sort_represented (ts : list Task) (self : TaskDAG.t) :
  acyclic_task_set ts ->
  represents ts self ->
  exists sorted self',
    topological_sort self = (Ok sorted, self')
    /\ length sorted = len self
    /\ Permutation sorted ts
    /\ dependencies_first sorted.
Proof.
  intros Hacyc Hrep. pose proof Hacyc as (Hnd & Hclosed & Hno).
  pose proof Hrep as (Hts & Hadj & Hrev).
  destruct (kahn_loop_correct ts Hnd (tasks self) Hts
              (kahn_fuel (in_degree_init self) (zero_keys (in_degree_init self)))
              (_adjacency_list self) (in_degree_init self)
              (zero_keys (in_degree_init self)) [])
    as (sorted & adj' & deg' & Hrun & Hinv).
  - now apply kahn_inv_init.
  - exact Hadj.
  - lia.
  - pose proof (kahn_inv_complete ts deg' sorted Hacyc Hinv) as Hall.
    destruct Hinv as (Hnd' & _ & _ & _ & Hsub & Hord). rewrite app_nil_r in Hnd'.
    assert (Hperm : Permutation sorted ts).
    { apply NoDup_Permutation.
      - eapply NoDup_map_inv. exact Hnd'.
      - eapply NoDup_map_inv. exact Hnd.
      - intros t. split; [apply Hsub|]. intros Ht.
        assert (Hid : In (id t) (task_ids sorted))
          by (apply Hall; unfold task_ids; now apply in_map).
        apply in_map_iff in Hid. destruct Hid as (t' & Hid & Ht').
        now rewrite <- (id_injective ts t' t Hnd (Hsub _ Ht') Ht Hid). }
    assert (Hlen : length sorted = length (tasks self)).
    { rewrite (Permutation_length Hperm), Hts. now rewrite length_map. }
    exists sorted, (with_adjacency self adj'). split; [|split; [|split]].
    + unfold topological_sort, kahn_run. rewrite Hrun.
      apply Nat.eqb_eq in Hlen. now rewrite Hlen.
    + exact Hlen.
    + exact Hperm.
    + now apply ordered_dependencies_first.
Qed.

End TopologicalSort.

(** A task set that admits a rank which grows along every dependency has no
    dependency cycle. *)
Lemma ranked_acyclic (ts : list Task) (rank : string -> nat) :
  (forall a b, depends_on ts a b -> rank a < rank b) -> ~ has_dependency_cycle ts.
Proof.
  intros Hrank (x & Hx).
  assert (H : forall a b, clos_trans string (depends_on ts) a b -> rank a < rank b).
  { intros a b Hab. induction Hab as [a b H|a b c _ IH1 _ IH2]; [auto | lia]. }
  specialize (H x x Hx). lia.
Qed.

Lemma acyclic_chain_tasks : acyclic_task_set chain_tasks.
Proof.
  split; [|split].
  - repeat constructor; simpl; intuition discriminate.
  - intros task dep_id Hin Hdep. simpl in Hin.
    repeat (destruct Hin as [<-|Hin]; [simpl in Hdep; simpl; intuition|]).
    contradiction.
  - apply (ranked_acyclic chain_tasks chain_rank).
    intros a b (task & Hin & <- & Hdep). simpl in Hin.
    repeat (destruct Hin as [<-|Hin];
            [simpl in Hdep; repeat (destruct Hdep as [<-|Hdep]; [vm_compute; lia|]);
             contradiction|]).
    contradiction.
Qed.

(** ** What [add_task] does to the graph, whatever its outcome *)
Section AddTaskEffect.
Import TaskDAG.

Lemma lookup_has_cycle (self : TaskDAG.t) (x : string) :
  dd_lookup (_adjacency_list (snd (_has_cycle self))) x =
  dd_lookup (_adjacency_list self) x.
Proof.
  unfold _has_cycle. destruct (has_cycle_run self) as [[found visited]|]; [|reflexivity].
  simpl. apply dd_lookup_touch_fold.
Qed.

Lemma reverse_has_cycle (self : TaskDAG.t) :
  _reverse_adjacency (snd (_has_cycle self)) = _reverse_adjacency self.
Proof.
  unfold _has_cycle. destruct (has_cycle_run self) as [[found visited]|]; reflexivity.
Qed.

Lemma dd_lookup_append_key_fold (k x : string) (deps : list string) : forall r : ddict,
  dd_lookup (fold_left (fun r dep_id => dd_append r k dep_id) deps r) x =
  dd_lookup r x ++ (if String.eqb x k then deps else []).
Proof.
  induction deps as [|dep deps IH]; intros r; simpl.
  - destruct (String.eqb x k); now rewrite app_nil_r.
  - rewrite IH, dd_lookup_append.
    destruct (String.eqb_spec x k) as [->|Hne]; [|reflexivity].
    now rewrite <- app_assoc.
Qed.

(** [add_task] appends the edges of the task to both indexes and never takes
    an edge away, also when it raises. *)
Lemma add_task_indexes (task : Task) (self : TaskDAG.t) :
  (forall x,
      dd_lookup (_adjacency_list (snd (add_task task self))) x =
      dd_lookup (_adjacency_list self) x
      ++ map (fun _ => id task) (filter (String.eqb x) (dependencies task)))
  /\ (forall x,
        dd_lookup (_reverse_adjacency (snd (add_task task self))) x =
        dd_lookup (_reverse_adjacency self) x
        ++ (if String.eqb x (id task) then dependencies task else [])).
Proof.
  unfold add_task.
  set (staged := add_edges task (with_tasks self (set (tasks self) (id task) task))).
  pose proof (lookup_has_cycle staged) as Ha.
  pose proof (reverse_has_cycle staged) as Hr.
  assert (Ha0 : forall x, dd_lookup (_adjacency_list staged) x =
                  dd_lookup (_adjacency_list self) x
                  ++ map (fun _ => id task) (filter (String.eqb x) (dependencies task))).
  { intros x. unfold staged. rewrite adjacency_add_edges. apply dd_lookup_append_fold. }
  assert (Hr0 : forall x, dd_lookup (_reverse_adjacency staged) x =
                  dd_lookup (_reverse_adjacency self) x
                  ++ (if String.eqb x (id task) then dependencies task else [])).
  { intros x. unfold staged. rewrite reverse_add_edges. apply dd_lookup_append_key_fold. }
  destruct (_has_cycle staged) as [cyclic self']. cbn [snd] in Ha, Hr.
  destruct cyclic; cbn [snd with_tasks _adjacency_list _reverse_adjacency];
    (split; intros x; [rewrite Ha; apply Ha0 | rewrite Hr; apply Hr0]).
Qed.

(** [add_task] raises exactly when the forward index, with the edges of the
    new task in it, has a cycle that can be reached from a stored task. *)
Lemma add_task_outcome (task : Task) (self : TaskDAG.t) :
  let staged := add_edges task (with_tasks self (set (tasks self) (id task) task)) in
  fst (add_task task self) =
    Raise (DAGCycleError ("Adding task " ++ id task ++ " would create a cycle")%string)
  <-> cycle_reachable (_adjacency_list staged) (keys (tasks staged)).
Proof.
  intros staged. rewrite <- has_cycle_spec. unfold add_task. fold staged.
  destruct (_has_cycle staged) as [[|] self']; simpl; split; congruence.
Qed.

End AddTaskEffect.

(** ** Adding a stored task once more *)
Section AddTaskAgain.
Import TaskDAG.

Lemma set_same {V : Type} (d : dict V) (k : string) (v : V) :
  get d k = Some v -> set d k v = d.
Proof.
  induction d as [|[k0 v0] d IH]; simpl; [discriminate|].
  destruct (String.eqb_spec k k0) as [->|Hne].
  - now intros [= ->].
  - intros H. now rewrite IH.
Qed.

Lemma resolve_app (ts : dict Task) (l l' : list string) :
  resolve ts (l ++ l') = resolve ts l ++ resolve ts l'.
Proof. unfold resolve. apply flat_map_app. Qed.

Lemma resolve_constant {A : Type} (ts : dict Task) (task : Task) (l : list A) :
  get ts (id task) = Some task ->
  resolve ts (map (fun _ => id task) l) = map (fun _ => task) l.
Proof.
  intros Hget. induction l as [|a l IH]; simpl; [reflexivity|].
  now rewrite Hget, IH.
Qed.

(** The store, and with it [get_task], [get_all_tasks], [get_ready_tasks] and
    [get_task_dependencies], is the same after the second insertion. *)
Lemma add_task_again_store (task : Task) (self : TaskDAG.t) :
  get_task (id task) self = Some task ->
  fst (add_task task self) = Ok tt ->
  tasks (snd (add_task task self)) = tasks self.
Proof.
  intros Hget Hok. rewrite tasks_add_task, Hok. now apply set_same.
Qed.

(** The task is listed once more among the dependents of each of its
    dependencies, for every mention of the dependency. *)
Lemma add_task_again_dependents (task : Task) (self : TaskDAG.t) (dep_id : string) :
  get_task (id task) self = Some task ->
  fst (add_task task self) = Ok tt ->
  fst (get_task_dependents dep_id (snd (add_task task self))) =
  fst (get_task_dependents dep_id self)
  ++ map (fun _ => task) (filter (String.eqb dep_id) (dependencies task)).
Proof.
  intros Hget Hok. unfold get_task_dependents. cbn [fst].
  rewrite (add_task_again_store task self Hget Hok).
  destruct (add_task_indexes task self) as [Ha _]. rewrite Ha, resolve_app.
  f_equal. now apply resolve_constant.
Qed.

End AddTaskAgain.

(** ** When [topological_sort] raises *)
Section TopologicalSortFailure.
Import TaskDAG.

Lemma index_of_nth (l : list string) : forall i x,
  NoDup l -> nth_error l i = Some x -> index_of x l = i.
Proof.
  induction l as [|y l IH]; intros i x Hnd Hnth; [destruct i; discriminate|].
  inversion Hnd as [|? ? Hnotin Hnd']; subst. simpl.
  destruct i as [|i]; simpl in Hnth.
  - injection Hnth as ->. now rewrite String.eqb_refl.
  - destruct (String.eqb_spec x y) as [->|Hne].
    + exfalso. apply Hnotin. eapply nth_error_In; eauto.
    + f_equal. now apply IH.
Qed.

(** The loop always ends with the queue empty and its invariant intact. *)
Lemma kahn_run_represented (ts : list Task) (self : TaskDAG.t) :
  NoDup (task_ids ts) -> represents ts self ->
  exists sorted adj' in_degree',
    kahn_run self = Some (Ok sorted, adj')
    /\ kahn_inv ts in_degree' [] sorted.
Proof.
  intros Hnd Hrep. pose proof Hrep as (Hts & Hadj & _).
  apply (kahn_loop_correct ts Hnd (tasks self) Hts); [|exact Hadj|lia].
  now apply kahn_inv_init.
Qed.

Lemma topological_sort_short (ts : list Task) (self : TaskDAG.t) :
  NoDup (task_ids ts) -> represents ts self ->
  (forall sorted in_degree', kahn_inv ts in_degree' [] sorted ->
     length sorted <> length ts) ->
  fst (topological_sort self) = Raise (DAGCycleError "DAG contains a cycle").
Proof.
  intros Hnd Hrep Hshort.
  destruct (kahn_run_represented ts self Hnd Hrep) as (sorted & adj' & deg' & Hrun & Hinv).
  unfold topological_sort. rewrite Hrun.
  destruct Hrep as (Hts & _). rewrite Hts, length_map.
  specialize (Hshort sorted deg' Hinv). apply Nat.eqb_neq in Hshort.
  now rewrite Hshort.
Qed.

(** A dependency on a task that is not in the graph makes the sort fail,
    cycle or no cycle. *)
Lemma topological_sort_dangling (ts : list Task) (self : TaskDAG.t) :
  NoDup (task_ids ts) -> represents ts self -> has_dangling_dependency ts ->
  fst (topological_sort self) = Raise (DAGCycleError "DAG contains a cycle").
Proof.
  intros Hnd Hrep (task & d & Hin & Hd & Hdangling).
  apply (topological_sort_short ts self Hnd Hrep).
  intros sorted deg' (Hnd' & Hincl & _ & Hready & Hsub & _) Hlen.
  rewrite app_nil_r in *.
  assert (Hall : incl (task_ids ts) (task_ids sorted)).
  { apply NoDup_length_incl; [exact Hnd' | | exact Hincl].
    unfold task_ids. rewrite !length_map. lia. }
  assert (Hz : pending (task_ids sorted) task = 0).
  { apply (Hready task Hin). apply Hall. unfold task_ids. now apply in_map. }
  apply pending_zero_incl in Hz. apply Hdangling, Hincl, Hz, Hd.
Qed.

(** A dependency cycle among the tasks makes the sort fail. *)
Lemma topological_sort_cyclic (ts : list Task) (self : TaskDAG.t) :
  NoDup (task_ids ts) -> represents ts self -> has_dependency_cycle ts ->
  fst (topological_sort self) = Raise (DAGCycleError "DAG contains a cycle").
Proof.
  intros Hnd Hrep Hcyc.
  apply (topological_sort_short ts self Hnd Hrep).
  intros sorted deg' (Hnd' & Hincl & _ & _ & Hsub & Hord) Hlen.
  rewrite app_nil_r in *.
  assert (Hall : incl (task_ids ts) (task_ids sorted)).
  { apply NoDup_length_incl; [exact Hnd' | | exact Hincl].
    unfold task_ids. rewrite !length_map. lia. }
  revert Hcyc. apply (ranked_acyclic ts (fun x => index_of x (task_ids sorted))).
  intros a b (tb & Hin & <- & Hdep).
  assert (Hb : In (id tb) (task_ids sorted))
    by (apply Hall; unfold task_ids; now apply in_map).
  apply in_map_iff in Hb. destruct Hb as (tb' & Hid & Hin').
  rewrite (id_injective ts tb' tb Hnd (Hsub _ Hin') Hin Hid) in Hin'.
  apply In_nth_error in Hin'. destruct Hin' as [j Hj].
  destruct (ordered_from_earlier sorted [] j tb a Hord Hj Hdep)
    as [[]|(i & ta & Hlt & Hi & Hida)].
  rewrite (index_of_nth _ i a Hnd'), (index_of_nth _ j (id tb) Hnd'); [exact Hlt| |].
  - unfold task_ids. now apply map_nth_error.
  - unfold task_ids. rewrite <- Hida. now apply map_nth_error.
Qed.

End TopologicalSortFailure.

(** ** Where the engine departs from its description *)
Section Divergences.
Import TaskDAG.

(** C1.  The rollback of [add_task] only deletes the task from the store; the
    edges it has just appended stay in both indexes.  In the scenario of
    [test_cycle_detection] the call raises [DAGCycleError] and the store is
    as before, but the forward index now lists [task2] under [task1] and the
    reverse index has gained an entry for [task2].  The forward index itself
    now holds the cycle [task1 -> task2 -> task1], which [_has_cycle] reports,
    so from then on every insertion is rejected, even that of a task without
    dependencies which the graph before the failed call accepts.  When the
    rejected task replaces a stored one, the rollback deletes the stored
    task, so the task count drops. *)
Theorem add_task_rollback_keeps_edges :
  let outcome := add_task closing_task cycle_graph in
  let unrelated := new_task "unrelated" [] 100%Z 3%Z in
  fst outcome = Raise (DAGCycleError "Adding task task2 would create a cycle")
  /\ tasks (snd outcome) = tasks cycle_graph
  /\ dd_lookup (_adjacency_list cycle_graph) "task1" = []
  /\ dd_lookup (_adjacency_list (snd outcome)) "task1" = ["task2"]
  /\ dd_lookup (_reverse_adjacency cycle_graph) "task2" = []
  /\ dd_lookup (_reverse_adjacency (snd outcome)) "task2" = ["task1"]
  /\ clos_trans string (index_edge (_adjacency_list (snd outcome))) "task1" "task1"
  /\ fst (_has_cycle cycle_graph) = false
  /\ fst (_has_cycle (snd outcome)) = true
  /\ fst (add_task unrelated cycle_graph) = Ok tt
  /\ fst (add_task unrelated (snd outcome)) =
       Raise (DAGCycleError "Adding task unrelated would create a cycle")
  /\ (let replaced := add_task (new_task "A" ["B"] 100%Z 5%Z) pair_graph in
      fst replaced = Raise (DAGCycleError "Adding task A would create a cycle")
      /\ len pair_graph = 2
      /\ len (snd replaced) = 1
      /\ get_task "A" pair_graph = Some (new_task "A" [] 100%Z 1%Z)
      /\ get_task "A" (snd replaced) = None).
Proof.
  cbv zeta.
  repeat match goal with |- _ /\ _ => split end; try (vm_compute; reflexivity).
  apply t_trans with (y := "task2"); apply t_step; vm_compute; auto.
Qed.

(** C5.  A task may name a dependency that is not in the graph; [add_task]
    accepts it and [_has_cycle] finds no cycle, and indeed the stored tasks
    have no dependency cycle.  [topological_sort] nevertheless counts the
    missing dependency in the in-degree, never sorts the task, and raises
    [DAGCycleError] with the message that the graph contains a cycle. *)
Theorem topological_sort_dangling_dependency :
  fst (add_task dangling_task TaskDAG.init) = Ok tt
  /\ get_all_tasks dangling_graph = [dangling_task]
  /\ ~ has_dependency_cycle (get_all_tasks dangling_graph)
  /\ fst (_has_cycle dangling_graph) = false
  /\ fst (topological_sort dangling_graph) = Raise (DAGCycleError "DAG contains a cycle").
Proof.
  split; [vm_compute; reflexivity|]. split; [vm_compute; reflexivity|].
  split; [|split; vm_compute; reflexivity].
  apply (ranked_acyclic _ dangling_rank).
  intros a b (task & Hin & <- & Hdep).
  change (get_all_tasks dangling_graph) with [dangling_task] in Hin.
  destruct Hin as [<-|[]]. destruct Hdep as [<-|[]]. vm_compute. lia.
Qed.

(** C4.  The two tasks [a] and [b], where [b] depends on [a] and on a task
    that is not in the set, have distinct ids and no chain of dependencies
    leads from one of them back to itself.  In both orders of insertion
    every [add_task] returns normally and two tasks are stored, and
    [get_ready_tasks] treats the absent dependency as satisfied: [b] is
    ready once [a] is completed.  [topological_sort] nevertheless raises
    [DAGCycleError] in both orders instead of returning [a] before [b]. *)
Theorem add_tasks_topological_sort_absent_dependency :
  let ts := [optional_a; optional_b] in
  let forward := snd (add_tasks [optional_a; optional_b] TaskDAG.init) in
  let backward := snd (add_tasks [optional_b; optional_a] TaskDAG.init) in
  NoDup (task_ids ts)
  /\ ~ has_dependency_cycle ts
  /\ fst (add_tasks [optional_a; optional_b] TaskDAG.init) = Ok tt
  /\ fst (add_tasks [optional_b; optional_a] TaskDAG.init) = Ok tt
  /\ get_all_tasks forward = [optional_a; optional_b]
  /\ get_all_tasks backward = [optional_b; optional_a]
  /\ fst (_has_cycle forward) = false
  /\ fst (_has_cycle backward) = false
  /\ get_ready_tasks (mark_status "a" TaskStatus.COMPLETED forward)
     = [optional_b]
  /\ fst (topological_sort forward) = Raise (DAGCycleError "DAG contains a cycle")
  /\ fst (topological_sort backward) = Raise (DAGCycleError "DAG contains a cycle").
Proof.
  cbv zeta. split.
  { vm_compute. repeat constructor; simpl; intuition discriminate. }
  split.
  { apply (ranked_acyclic _ optional_rank).
    intros x y (task & Hin & <- & Hdep).
    destruct Hin as [<-|[<-|[]]]; [destruct Hdep|].
    destruct Hdep as [<-|[<-|[]]]; vm_compute; lia. }
  repeat match goal with |- _ /\ _ => split end; vm_compute; reflexivity.
Qed.

(** C8.  Adding a stored task once more is accepted, and [get_task] answers
    as before, but the edges of the task are appended a second time: the
    task is listed twice among the dependents of its dependency, and
    [topological_sort] returns the tasks in another order. *)
Theorem add_task_again_duplicates_edges :
  let outcome := add_task fan_t fan_graph in
  fst outcome = Ok tt
  /\ get_task "t" (snd outcome) = get_task "t" fan_graph
  /\ fst (get_task_dependents "a" fan_graph) = [fan_t; fan_u]
  /\ fst (get_task_dependents "a" (snd outcome)) = [fan_t; fan_u; fan_t]
  /\ fst (topological_sort fan_graph) = Ok [fan_a; fan_t; fan_u]
  /\ fst (topological_sort (snd outcome)) = Ok [fan_a; fan_u; fan_t]
  /\ dd_lookup (_reverse_adjacency fan_graph) "t" = ["a"]
  /\ dd_lookup (_reverse_adjacency (snd outcome)) "t" = ["a"; "a"].
Proof. vm_compute. repeat split. Qed.

End Divergences.

(** * Further properties *)

(** ** The lifecycle state machine under sequences of calls *)
Section OrchestratorRuns.
Import LifecycleState Orchestrator.

Lemma last_record_snoc (h : list StateTransition) (r : StateTransition) :
  last_record (h ++ [r]) = Some r.
Proof. unfold last_record. now rewrite rev_app_distr. Qed.

Lemma last_record_cons (r0 : StateTransition) (h : list StateTransition) :
  h <> [] -> last_record (r0 :: h) = last_record h.
Proof.
  intros Hne. unfold last_record. simpl.
  destruct (rev h) as [|r1 l] eqn:E; [|reflexivity].
  exfalso. apply Hne. apply (f_equal (@rev _)) in E. now rewrite rev_involutive in E.
Qed.

Lemma last_record_some (h : list StateTransition) :
  h <> [] -> exists r, last_record h = Some r.
Proof.
  intros Hne. destruct (exists_last Hne) as (h' & r & ->).
  exists r. apply last_record_snoc.
Qed.

Lemma linked_snoc (h : list StateTransition) (r : StateTransition) : forall start,
  linked start h ->
  (from_state r = IDLE
   \/ (h = [] /\ from_state r = start)
   \/ option_map to_state (last_record h) = Some (from_state r)) ->
  linked start (h ++ [r]).
Proof.
  induction h as [|r0 h IH]; intros start Hl Hr; simpl in *.
  - split; [|exact I]. destruct Hr as [H|[[_ H]|H]]; auto. discriminate.
  - destruct Hl as [H0 Hl]. split; [exact H0|]. apply IH; [exact Hl|].
    destruct Hr as [H|[[H _]|H]]; [now left | discriminate |].
    destruct h as [|r1 h]; [right; left; split; [reflexivity|] | right; right].
    + unfold last_record in H. simpl in H. congruence.
    + now rewrite last_record_cons in H.
Qed.

Lemma chained_snoc (h : list StateTransition) (r : StateTransition) : forall start,
  chained start h ->
  from_state r = match last_record h with Some r' => to_state r' | None => start end ->
  chained start (h ++ [r]).
Proof.
  induction h as [|r0 h IH]; intros start Hc Hr; simpl in Hc |- *.
  - now split.
  - destruct Hc as [H0 Hc]. split; [exact H0|]. apply IH; [exact Hc|].
    destruct h as [|r1 h]; [exact Hr|]. rewrite last_record_cons in Hr by discriminate.
    destruct (last_record_some (r1 :: h)) as [r' Hr']; [discriminate|].
    now rewrite Hr' in *.
Qed.

Lemma history_ok_init : history_ok init.
Proof. repeat split; simpl; auto. Qed.

Lemma history_ok_reset (self : Orchestrator.t) : history_ok self -> history_ok (reset self).
Proof. intros (H1 & H2 & H3 & H4). repeat split; simpl; auto. Qed.

Lemma history_ok_transition now to trig (self : Orchestrator.t) :
  history_ok self -> history_ok (snd (transition now to trig self)).
Proof.
  intros (H1 & H2 & H3 & H4).
  destruct (in_dec (fun a b => reflect_dec _ _ (LifecycleState_eqb_spec a b))
                   to (get_allowed_transitions self)) as [Hin|Hnot].
  - rewrite (transition_allowed now to trig self Hin). cbn [snd].
    unfold history_ok. cbn [transition_history previous_state current_state].
    rewrite last_record_snoc. cbn [option_map from_state to_state].
    split; [|split; [|split]].
    + apply Forall_app. split; [exact H1|]. constructor; [exact Hin | constructor].
    + apply linked_snoc; [exact H2|]. cbn [from_state].
      destruct H4 as [H4|H4]; [now left | right; right; exact H4].
    + reflexivity.
    + now right.
  - rewrite (transition_refused now to trig self Hnot). now repeat split.
Qed.

Lemma history_ok_run (cs : list call) : forall self,
  history_ok self -> history_ok (run_calls cs self).
Proof.
  unfold run_calls. induction cs as [|c cs IH]; intros self Hok; simpl; [exact Hok|].
  apply IH. destruct c as [now to trig|]; simpl.
  - now apply history_ok_transition.
  - now apply history_ok_reset.
Qed.

Lemma history_grows (cs : list call) : forall self,
  exists added,
    transition_history (run_calls cs self) = transition_history self ++ added
    /\ length added <= length (filter (fun c => negb (is_reset c)) cs).
Proof.
  unfold run_calls. induction cs as [|c cs IH]; intros self; simpl.
  - exists []. now rewrite app_nil_r.
  - destruct (IH (apply_call c self)) as (added & Heq & Hlen). rewrite Heq.
    destruct c as [now to trig|]; simpl.
    + unfold transition. destruct (can_transition self to); simpl.
      * exists (mkStateTransition (current_state self) to now trig :: added).
        rewrite <- app_assoc. split; [reflexivity | simpl; lia].
      * exists added. split; [reflexivity | lia].
    + exists added. split; [reflexivity | exact Hlen].
Qed.

(** X1.  Whatever sequence of [transition] and [reset] calls a freshly
    built orchestrator receives (refused transitions being caught by the
    caller), its history only holds records that go from a state to one of
    the allowed successors of that state; every record starts where the
    record before it ended or, after a reset, at [IDLE]; [previous_state] is
    the source of the last record ([None] while the history is empty); the
    current state is the target of the last record or [IDLE]; and the history
    has at most one record per [transition] call. *)
Theorem orchestrator_history_invariant (cs : list call) :
  let self := run_calls cs init in
  Forall allowed_record (transition_history self)
  /\ linked IDLE (transition_history self)
  /\ previous_state self = option_map from_state (last_record (transition_history self))
  /\ (current_state self = IDLE
      \/ option_map to_state (last_record (transition_history self))
         = Some (current_state self))
  /\ length (transition_history self)
     <= length (filter (fun c => negb (is_reset c)) cs).
Proof.
  intros self. destruct (history_ok_run cs init history_ok_init) as (H1 & H2 & H3 & H4).
  repeat split; auto.
  destruct (history_grows cs init) as (added & Heq & Hlen).
  fold self in Heq. rewrite Heq. simpl. exact Hlen.
Qed.

(** X2.  As long as the caller never resets, the history of a freshly built
    orchestrator is one unbroken path: the first record starts at [IDLE],
    every record starts where the one before it ended, and the current state
    is where the last record ends ([IDLE] while the history is empty). *)
Theorem orchestrator_history_chain (cs : list call) :
  forallb (fun c => negb (is_reset c)) cs = true ->
  let self := run_calls cs init in
  chained IDLE (transition_history self)
  /\ current_state self =
       match last_record (transition_history self) with
       | Some r => to_state r
       | None => IDLE
       end.
Proof.
  intros Hcs.
  assert (Hgen : forall self,
             chained IDLE (transition_history self)
             /\ current_state self =
                  match last_record (transition_history self) with
                  | Some r => to_state r
                  | None => IDLE
                  end ->
             chained IDLE (transition_history (run_calls cs self))
             /\ current_state (run_calls cs self) =
                  match last_record (transition_history (run_calls cs self)) with
                  | Some r => to_state r
                  | None => IDLE
                  end).
  { unfold run_calls. induction cs as [|c cs IH]; intros self Hinv; simpl; [exact Hinv|].
    simpl in Hcs. apply andb_true_iff in Hcs. destruct Hcs as [Hc Hcs].
    apply (IH Hcs). destruct c as [now to trig|]; [|discriminate]. simpl.
    destruct Hinv as [Hch Hcur]. unfold transition.
    destruct (can_transition self to); simpl; [|now split].
    rewrite last_record_snoc. split; [|reflexivity].
    apply chained_snoc; [exact Hch|]. simpl. exact Hcur. }
  apply Hgen. now split.
Qed.

Lemma orchestrator_history_chain_witness :
  let self := run_calls [Transition 1%Z PLANNING "x"; Transition 2%Z BUILDING "x";
                         Transition 3%Z SCAFFOLDING "x"] init in
  transition_history self =
    [mkStateTransition IDLE PLANNING 1%Z "x";
     mkStateTransition PLANNING SCAFFOLDING 3%Z "x"]
  /\ chained IDLE (transition_history self)
  /\ current_state self = SCAFFOLDING.
Proof.
  split; [reflexivity|].
  destruct (orchestrator_history_chain
              [Transition 1%Z PLANNING "x"; Transition 2%Z BUILDING "x";
               Transition 3%Z SCAFFOLDING "x"] eq_refl) as [Hc Hs].
  split; [exact Hc | exact Hs].
Defined.

(** X3.  No state is among its own allowed successors: a [transition] to
    the current state is always refused and changes nothing, and every
    accepted transition changes the state. *)
Theorem transition_never_stays now trig (to : LifecycleState.t) (self : Orchestrator.t) :
  transition now (current_state self) trig self =
    (Raise (StateTransitionError (current_state self) (current_state self)
              (get_allowed_transitions self)), self)
  /\ ((exists r, fst (transition now to trig self) = Ok r) ->
      current_state (snd (transition now to trig self)) <> current_state self).
Proof.
  assert (Hno : forall s, ~ In s (TRANSITIONS_get TRANSITIONS s)).
  { intros s. destruct s; simpl; intuition discriminate. }
  split.
  - apply transition_refused. apply Hno.
  - intros [r Hr]. unfold transition in *.
    destruct (can_transition self to) eqn:E; simpl in *; [|discriminate].
    apply can_transition_In in E. intros Heq. rewrite Heq in E.
    now apply (Hno (current_state self)).
Qed.

(** X4.  Every state can be reached from a freshly built orchestrator by at
    most seven accepted transitions, and from every state at most two
    accepted transitions lead back to [IDLE], without any [reset]. *)
Theorem orchestrator_no_trap now trig :
  (forall s, exists targets self',
      length targets <= 7
      /\ transitions now trig targets init = (Ok tt, self')
      /\ current_state self' = s)
  /\ (forall self, exists targets self',
        length targets <= 2
        /\ transitions now trig targets self = (Ok tt, self')
        /\ current_state self' = IDLE).
Proof.
  split.
  - intros s.
    exists (match s with
            | IDLE => []
            | PLANNING => [PLANNING]
            | SCAFFOLDING => [PLANNING; SCAFFOLDING]
            | BUILDING => [PLANNING; SCAFFOLDING; BUILDING]
            | VERIFYING => [PLANNING; SCAFFOLDING; BUILDING; VERIFYING]
            | DEPLOYING => [PLANNING; SCAFFOLDING; BUILDING; VERIFYING; DEPLOYING]
            | OBSERVING =>
                [PLANNING; SCAFFOLDING; BUILDING; VERIFYING; DEPLOYING; OBSERVING]
            | MAINTAINING =>
                [PLANNING; SCAFFOLDING; BUILDING; VERIFYING; DEPLOYING; OBSERVING;
                 MAINTAINING]
            | FAILED => [PLANNING; FAILED]
            end).
    destruct s; eexists; (split; [simpl; lia | split; reflexivity]).
  - intros [cur prev hist task].
    exists (match cur with
            | IDLE => []
            | OBSERVING | MAINTAINING | FAILED => [IDLE]
            | _ => [FAILED; IDLE]
            end).
    destruct cur; eexists; (split; [simpl; lia | split; reflexivity]).
Qed.

(** X5.  After [reset], whatever the state before, the orchestrator is in a
    terminal state and the only transition it accepts is the one to
    [PLANNING]. *)
Theorem reset_then_transition now trig (to : LifecycleState.t) (self : Orchestrator.t) :
  is_terminal_state (reset self) = true
  /\ ((exists r, fst (transition now to trig (reset self)) = Ok r) <-> to = PLANNING)
  /\ (to <> PLANNING ->
      transition now to trig (reset self) =
        (Raise (StateTransitionError IDLE to [PLANNING]), reset self)).
Proof.
  split; [reflexivity|]. split.
  - unfold transition, can_transition. simpl. destruct to; simpl; split;
      try discriminate; try reflexivity; try (intros [r H]; discriminate);
      intros _; now eexists.
  - intros Hne. unfold transition, can_transition. simpl.
    destruct to; simpl; try reflexivity. contradiction.
Qed.

End OrchestratorRuns.

(** ** Cycle detection and insertion, for every graph *)
Section InsertionInGeneral.
Import TaskDAG.


Lemma add_task_result (task : Task) (self : TaskDAG.t) :
  fst (add_task task self) = Ok tt
  \/ fst (add_task task self) =
       Raise (DAGCycleError ("Adding task " ++ id task ++ " would create a cycle")%string).
Proof.
  unfold add_task. destruct (_has_cycle _) as [[|] self2]; simpl; auto.
Qed.



End InsertionInGeneral.

(** ** Building a graph from the empty one *)
Section InsertionOutcome.
Import TaskDAG.

Lemma clos_trans_last {A : Type} (R : A -> A -> Prop) (a b : A) :
  clos_trans A R a b -> exists c, R c b.
Proof.
  intros H. induction H as [a b H|a b c _ _ _ IH]; [now exists a | exact IH].
Qed.

Lemma dependency_cycle_reachable (ts : list Task) (adj : ddict) :
  (forall x, dd_lookup adj x = dependents_of ts x) ->
  has_dependency_cycle ts <-> cycle_reachable adj (task_ids ts).
Proof.
  intros Hadj.
  assert (Hedge : forall a b, index_edge adj a b <-> depends_on ts a b).
  { intros a b. unfold index_edge. rewrite Hadj. apply dependents_of_In. }
  split.
  - intros (x & Hx). exists x, x. split; [|split].
    + destruct (clos_trans_last _ _ _ Hx) as (c & task & Hin & <- & _).
      now apply in_map.
    + apply rt_refl.
    + eapply clos_trans_incl; [|exact Hx]. intros a b. apply Hedge.
  - intros (x & y & _ & _ & Hy). exists y.
    eapply clos_trans_incl; [|exact Hy]. intros a b. apply Hedge.
Qed.

Lemma keys_represented (ts : list Task) (self : TaskDAG.t) :
  represents ts self -> keys (tasks self) = task_ids ts.
Proof.
  intros (Hts & _). rewrite Hts. unfold keys, task_ids. now rewrite map_map.
Qed.

Lemma represents_staged (done : list Task) (task : Task) (self : TaskDAG.t) :
  represents done self ->
  ~ In (id task) (task_ids done) ->
  represents (done ++ [task])
    (add_edges task (with_tasks self (set (tasks self) (id task) task))).
Proof.
  intros (Hts & Hadj & Hrev) Hfresh. split; [|split].
  - rewrite tasks_add_edges. simpl. rewrite set_new.
    + rewrite Hts, map_app. reflexivity.
    + apply mem_false_keys. rewrite Hts. unfold keys. rewrite map_map. exact Hfresh.
  - intros x. rewrite adjacency_add_edges. simpl.
    rewrite dd_lookup_append_fold, Hadj. unfold dependents_of.
    rewrite flat_map_app. simpl. now rewrite app_nil_r.
  - rewrite reverse_add_edges. simpl. rewrite append_fold_new.
    + rewrite Hrev. unfold reverse_index. rewrite flat_map_app. simpl.
      destruct (dependencies task); simpl; now rewrite ?app_nil_r.
    + rewrite Hrev. intros Hin. now apply keys_reverse_index in Hin.
Qed.

Lemma add_task_accepted_acyclic (done : list Task) (task : Task) (self : TaskDAG.t) :
  represents done self ->
  ~ In (id task) (task_ids done) ->
  fst (add_task task self) = Ok tt ->
  ~ has_dependency_cycle (done ++ [task]).
Proof.
  intros Hrep Hfresh Hok Hcyc.
  pose proof (represents_staged done task self Hrep Hfresh) as Hst.
  pose proof (add_task_outcome task self) as Hout. cbv zeta in Hout.
  assert (Hr : fst (add_task task self) =
     Raise (DAGCycleError ("Adding task " ++ id task ++ " would create a cycle")%string)).
  { apply Hout. rewrite (keys_represented _ _ Hst).
    apply (dependency_cycle_reachable (done ++ [task])); [apply Hst | exact Hcyc]. }
  congruence.
Qed.

Lemma add_tasks_accepted (todo : list Task) : forall (done : list Task) (self : TaskDAG.t),
  represents done self ->
  NoDup (task_ids (done ++ todo)) ->
  ~ has_dependency_cycle done ->
  fst (add_tasks todo self) = Ok tt ->
  ~ has_dependency_cycle (done ++ todo).
Proof.
  induction todo as [|task todo IH]; intros done self Hrep Hnd Hacyc Hok.
  - now rewrite app_nil_r.
  - assert (Hsplit : done ++ task :: todo = (done ++ [task]) ++ todo)
      by now rewrite <- app_assoc.
    assert (Hfresh : ~ In (id task) (task_ids done)).
    { unfold task_ids in Hnd. rewrite map_app in Hnd. simpl in Hnd.
      apply NoDup_remove_2 in Hnd. intros Hin. apply Hnd. apply in_or_app. now left. }
    simpl in Hok. destruct (add_task task self) as [res self1] eqn:E.
    destruct res as [[]|e]; [|discriminate].
    assert (Hok1 : fst (add_task task self) = Ok tt) by now rewrite E.
    pose proof (add_task_accepted_acyclic done task self Hrep Hfresh Hok1) as Hacyc1.
    destruct (represents_add_task done task self Hrep Hfresh Hacyc1) as [_ Hrep1].
    rewrite E in Hrep1. simpl in Hrep1.
    rewrite Hsplit in *. now apply (IH (done ++ [task]) self1).
Qed.

Lemma add_tasks_raise (l : list Task) : forall (self : TaskDAG.t) (e : exn),
  fst (add_tasks l self) = Raise e ->
  exists task,
    In task l
    /\ e = DAGCycleError ("Adding task " ++ id task ++ " would create a cycle")%string.
Proof.
  induction l as [|task l IH]; intros self e; simpl; [discriminate|].
  destruct (add_task_result task self) as [H|H];
    destruct (add_task task self) as [res self1]; simpl in H; subst res.
  - intros He. destruct (IH self1 e He) as (t & Hin & ->). exists t. auto.
  - simpl. intros [= <-]. exists task. auto.
Qed.

Lemma has_dependency_cycle_nil : ~ has_dependency_cycle [].
Proof.
  intros (x & Hx). destruct (clos_trans_last _ _ _ Hx) as (c & task & [] & _).
Qed.

End InsertionOutcome.

(** ** Topological sort on any graph *)
Section KahnInGeneral.
Import TaskDAG.

Lemma kahn_relax_seen (dependents : list string) :
  forall (in_degree : dict Z) (queue : list string) (in_degree' : dict Z)
         (queue' done : list string),
  kahn_relax dependents in_degree queue = Ok (in_degree', queue') ->
  NoDup (done ++ queue) ->
  (forall k, In k (done ++ queue) ->
     exists n, get in_degree k = Some n /\ (n <= 0)%Z) ->
  NoDup (done ++ queue')
  /\ (forall k, In k (done ++ queue') ->
        exists n, get in_degree' k = Some n /\ (n <= 0)%Z).
Proof.
  induction dependents as [|c rest IH]; intros deg q deg' q' done Hrun Hnd Hlow.
  - simpl in Hrun. injection Hrun as <- <-. now split.
  - simpl in Hrun. destruct (get deg c) as [n|] eqn:Hc; [|discriminate].
    apply IH with (done := done) in Hrun; [exact Hrun| |].
    + destruct (Z.eqb_spec (n - 1) 0) as [Hz|Hz]; [|exact Hnd].
      rewrite app_assoc. apply NoDup_app; [exact Hnd | repeat constructor; simpl; tauto |].
      intros k Hk [<-|[]]. destruct (Hlow c Hk) as (m & Hm & Hle).
      rewrite Hc in Hm. injection Hm as <-. lia.
    + intros k Hk.
      assert (Hcase : In k (done ++ q) \/ (k = c /\ (n - 1 = 0)%Z)).
      { destruct (Z.eqb_spec (n - 1) 0) as [Hz|Hz]; [|now left].
        rewrite app_assoc in Hk. apply in_app_or in Hk.
        destruct Hk as [Hk|[<-|[]]]; [now left | now right]. }
      destruct (string_dec c k) as [<-|Hne].
      * exists (n - 1)%Z. split; [apply get_set_eq|].
        destruct Hcase as [Hk'|[_ Hz]]; [|lia].
        destruct (Hlow c Hk') as (m & Hm & Hle). rewrite Hc in Hm.
        injection Hm as <-. lia.
      * rewrite get_set_neq by exact Hne.
        destruct Hcase as [Hk'|[Heq _]]; [now apply Hlow | congruence].
Qed.

Lemma kahn_loop_once (fuel : nat) :
  forall (ts : dict Task) (adj : ddict) (in_degree : dict Z) (queue : list string)
         (sorted res : list Task) (adj' : ddict) (pairs : dict Task),
  kahn_loop fuel ts adj in_degree queue sorted = Some (Ok res, adj') ->
  sorted = values pairs ->
  incl pairs ts ->
  NoDup (keys pairs ++ queue) ->
  (forall k, In k (keys pairs ++ queue) ->
     exists n, get in_degree k = Some n /\ (n <= 0)%Z) ->
  exists pairs', res = values pairs' /\ incl pairs' ts /\ NoDup (keys pairs').
Proof.
  induction fuel as [|fuel IH];
    intros ts adj deg q sorted res adj' pairs Hrun Hs Hincl Hnd Hlow.
  - destruct q; simpl in Hrun; [|discriminate].
    injection Hrun as <- <-. exists pairs. rewrite app_nil_r in Hnd. now repeat split.
  - destruct q as [|x q]; simpl in Hrun.
    + injection Hrun as <- <-. exists pairs. rewrite app_nil_r in Hnd. now repeat split.
    + destruct (get ts x) as [task|] eqn:Hx; [|discriminate].
      destruct (kahn_relax (dd_lookup adj x) deg q) as [[deg1 q1]|e] eqn:Hr;
        [|discriminate].
      assert (Hshift : forall l : list string, keys pairs ++ x :: l = (keys pairs ++ [x]) ++ l)
        by (intros l; now rewrite <- app_assoc).
      rewrite Hshift in Hnd.
      destruct (kahn_relax_seen _ _ _ _ _ (keys pairs ++ [x]) Hr Hnd) as [Hnd1 Hlow1].
      { intros k Hk. apply Hlow. now rewrite Hshift. }
      apply (IH _ _ _ _ _ _ _ (pairs ++ [(x, task)])) in Hrun; [exact Hrun| | | |].
      * subst sorted. unfold values. now rewrite map_app.
      * apply incl_app; [exact Hincl|]. intros p [<-|[]]. now apply get_In.
      * unfold keys in *. rewrite map_app. exact Hnd1.
      * unfold keys in *. rewrite map_app. exact Hlow1.
Qed.

Lemma wf_in_degree_init (self : TaskDAG.t) :
  wf (_reverse_adjacency self) -> wf (in_degree_init self).
Proof.
  intros Hwf. unfold in_degree_init.
  assert (H0 : wf (map (fun kv : string * list string =>
                          (fst kv, Z.of_nat (length (snd kv))))
                       (_reverse_adjacency self))).
  { unfold wf, keys in *. now rewrite map_map. }
  revert H0. generalize (map (fun kv : string * list string =>
                                (fst kv, Z.of_nat (length (snd kv))))
                             (_reverse_adjacency self)).
  induction (keys (tasks self)) as [|k ks IH]; intros deg Hdeg; simpl; [exact Hdeg|].
  apply IH. destruct (mem deg k); [exact Hdeg | now apply wf_set].
Qed.

Lemma NoDup_keys_filter {V : Type} (f : string * V -> bool) (d : dict V) :
  wf d -> wf (filter f d).
Proof.
  unfold wf, keys. induction d as [|kv d IH]; simpl; intros Hnd; [constructor|].
  inversion Hnd as [|? ? Hnot Hnd']; subst.
  destruct (f kv); simpl; [|now apply IH].
  constructor; [|now apply IH].
  intros Hin. apply Hnot. apply in_map_iff in Hin. destruct Hin as (p & Hp & Hin).
  apply filter_In in Hin. apply in_map_iff. exists p. tauto.
Qed.

(** X11.  In any graph whose reverse index binds no id twice (true of every
    Python dictionary), a [topological_sort] that returns a list returns
    every stored task exactly once: the list is a rearrangement of
    [get_all_tasks].  The call changes neither the store nor the reverse
    index. *)
Theorem topological_sort_returns_all (self : TaskDAG.t) (sorted : list Task) :
  wf (_reverse_adjacency self) ->
  fst (topological_sort self) = Ok sorted ->
  Permutation sorted (get_all_tasks self)
  /\ tasks (snd (topological_sort self)) = tasks self
  /\ _reverse_adjacency (snd (topological_sort self)) = _reverse_adjacency self.
Proof.
  intros Hwf Hok. unfold topological_sort in *.
  destruct (kahn_run self) as [[[res|e] adj]|] eqn:Hrun; [| |discriminate].
  2:{ discriminate. }
  destruct (Nat.eqb_spec (length res) (length (tasks self))) as [Hlen|Hlen];
    simpl in Hok; [|discriminate].
  injection Hok as ->. simpl. split; [|now split].
  unfold kahn_run in Hrun.
  pose proof (wf_in_degree_init self Hwf) as Hdeg.
  destruct (kahn_loop_once _ _ _ _ _ _ _ _ [] Hrun eq_refl) as (pairs & -> & Hincl & Hnd).
  - intros p [].
  - simpl. apply (NoDup_keys_filter _ _ Hdeg).
  - simpl. intros k Hk. unfold zero_keys, keys in Hk. apply in_map_iff in Hk.
    destruct Hk as ([k' n] & <- & Hin). apply filter_In in Hin.
    destruct Hin as [Hin Hz]. simpl in Hz. apply Z.eqb_eq in Hz. subst n.
    exists 0%Z. split; [now apply In_get | lia].
  - unfold get_all_tasks, values. apply Permutation_map.
    apply NoDup_Permutation_bis.
    + unfold keys in Hnd. now apply NoDup_map_inv in Hnd.
    + unfold values in Hlen. rewrite length_map in Hlen. lia.
    + exact Hincl.
Qed.

Lemma topological_sort_returns_all_witness :
  wf (_reverse_adjacency chain_graph)
  /\ Permutation
       [new_task "A" [] 100%Z 1%Z; new_task "D" [] 100%Z 4%Z;
        new_task "B" ["A"] 100%Z 2%Z; new_task "C" ["B"] 100%Z 3%Z]
       (get_all_tasks chain_graph).
Proof.
  assert (Hwf : wf (_reverse_adjacency chain_graph)).
  { unfold wf. vm_compute. repeat constructor; simpl; intuition discriminate. }
  split; [exact Hwf|].
  apply (topological_sort_returns_all chain_graph _ Hwf). reflexivity.
Defined.

Lemma kahn_relax_raises (dependents : list string) :
  forall (in_degree : dict Z) (queue : list string) (e : exn),
  kahn_relax dependents in_degree queue = Raise e -> exists k, e = KeyError k.
Proof.
  induction dependents as [|c rest IH]; intros deg q e; simpl; [discriminate|].
  destruct (get deg c); [apply IH|]. intros [= <-]. now exists c.
Qed.

Lemma kahn_loop_raises (fuel : nat) :
  forall (ts : dict Task) (adj : ddict) (in_degree : dict Z) (queue : list string)
         (sorted : list Task) (e : exn) (adj' : ddict),
  kahn_loop fuel ts adj in_degree queue sorted = Some (Raise e, adj') ->
  exists k, e = KeyError k.
Proof.
  induction fuel as [|fuel IH]; intros ts adj deg q sorted e adj';
    destruct q as [|x q]; simpl; try discriminate.
  destruct (get ts x) as [task|]; [|intros [= <- _]; now exists x].
  destruct (kahn_relax (dd_lookup adj x) deg q) as [[deg1 q1]|e1] eqn:Hr.
  - apply IH.
  - intros [= <- _]. eapply kahn_relax_raises; eauto.
Qed.

Lemma topological_sort_raises (self : TaskDAG.t) (e : exn) :
  fst (topological_sort self) = Raise e ->
  e = DAGCycleError "DAG contains a cycle" \/ exists k, e = KeyError k.
Proof.
  unfold topological_sort.
  destruct (kahn_run self) as [[[res|e1] adj]|] eqn:Hrun.
  - destruct (negb _); simpl; [|discriminate]. intros [= <-]. now left.
  - simpl. intros [= <-]. right. unfold kahn_run in Hrun.
    eapply kahn_loop_raises; eauto.
  - simpl. intros [= <-]. now left.
Qed.

Lemma topological_sort_length (self : TaskDAG.t) (sorted : list Task) :
  fst (topological_sort self) = Ok sorted ->
  length sorted = length (tasks (snd (topological_sort self))).
Proof.
  unfold topological_sort.
  destruct (kahn_run self) as [[[res|e1] adj]|] eqn:Hrun; simpl; try discriminate.
  destruct (Nat.eqb_spec (length res) (length (tasks self))) as [Hlen|Hlen];
    simpl; [|discriminate].
  now intros [= <-].
Qed.

End KahnInGeneral.

(** ** Sorting and validating a graph built from the empty one *)
Section AfterInsertion.
Import TaskDAG.

Lemma add_tasks_ok_represents (ts : list Task) :
  NoDup (task_ids ts) ->
  fst (add_tasks ts TaskDAG.init) = Ok tt ->
  ~ has_dependency_cycle ts /\ represents ts (snd (add_tasks ts TaskDAG.init)).
Proof.
  intros Hnd Hok.
  pose proof (add_tasks_accepted ts [] TaskDAG.init represents_init Hnd
                has_dependency_cycle_nil Hok) as Hacyc.
  split; [exact Hacyc|].
  destruct (add_tasks_represents ts [] TaskDAG.init represents_init Hnd Hacyc)
    as (self' & -> & Hrep). exact Hrep.
Qed.

Lemma closed_or_dangling (ts : list Task) :
  dependencies_closed ts \/ has_dangling_dependency ts.
Proof.
  set (present := fun d : string => In d (task_ids ts)).
  assert (Hdec : forall task : Task,
             {Forall present (dependencies task)} + {~ Forall present (dependencies task)}).
  { intros task. apply Forall_dec. intros d. apply (in_dec string_dec). }
  destruct (Forall_Exists_dec _ Hdec ts) as [Hall|Hex].
  - left. intros task dep Hin Hd. rewrite Forall_forall in Hall.
    specialize (Hall task Hin). rewrite Forall_forall in Hall. now apply Hall.
  - right. apply Exists_exists in Hex. destruct Hex as (task & Hin & Hnot).
    apply neg_Forall_Exists_neg in Hnot;
      [|intros d; apply (in_dec string_dec)].
    apply Exists_exists in Hnot. destruct Hnot as (dep & Hd & Hnd).
    now exists task, dep.
Qed.

Lemma dangling_not_closed (ts : list Task) :
  has_dangling_dependency ts -> ~ dependencies_closed ts.
Proof. intros (task & dep & Hin & Hd & Hnot) Hc. apply Hnot. eapply Hc; eauto. Qed.

(** X10.  After tasks with distinct ids were inserted one by one into the
    empty graph, [topological_sort] returns a list exactly when every listed
    dependency is one of the tasks; the list is then a rearrangement of the
    tasks with every dependency before its dependents.  Otherwise, although
    the graph has no cycle, the call raises
    [DAGCycleError("DAG contains a cycle")]; it raises nothing else. *)
Theorem topological_sort_after_insertion (ts : list Task) :
  NoDup (task_ids ts) ->
  fst (add_tasks ts TaskDAG.init) = Ok tt ->
  let self := snd (add_tasks ts TaskDAG.init) in
  ((exists sorted, fst (topological_sort self) = Ok sorted) <-> dependencies_closed ts)
  /\ (forall sorted, fst (topological_sort self) = Ok sorted ->
        Permutation sorted ts /\ dependencies_first sorted)
  /\ (forall e, fst (topological_sort self) = Raise e ->
        e = DAGCycleError "DAG contains a cycle" /\ has_dangling_dependency ts).
Proof.
  intros Hnd Hok self.
  destruct (add_tasks_ok_represents ts Hnd Hok) as [Hacyc Hrep]. fold self in Hrep.
  destruct (closed_or_dangling ts) as [Hc|Hd].
  - destruct (topological_sort_represented ts self (conj Hnd (conj Hc Hacyc)) Hrep)
      as (sorted & self' & Hrun & _ & Hperm & Hfirst).
    rewrite Hrun. simpl. split; [|split].
    + split; [intros _; exact Hc | intros _; now exists sorted].
    + now intros s [= <-].
    + discriminate.
  - pose proof (topological_sort_dangling ts self Hnd Hrep Hd) as Hrun.
    rewrite Hrun. split; [|split].
    + split; [intros (s & Hs); discriminate|].
      intros Hc. now apply dangling_not_closed in Hd.
    + discriminate.
    + intros e [= <-]. now split.
Qed.

Lemma topological_sort_after_insertion_witness :
  NoDup (task_ids chain_tasks)
  /\ fst (add_tasks chain_tasks TaskDAG.init) = Ok tt
  /\ ((exists sorted, fst (topological_sort chain_graph) = Ok sorted) <->
      dependencies_closed chain_tasks).
Proof.
  assert (Hnd : NoDup (task_ids chain_tasks)).
  { vm_compute. repeat constructor; simpl; intuition discriminate. }
  split; [exact Hnd|]. split; [reflexivity|].
  apply (topological_sort_after_insertion chain_tasks Hnd eq_refl).
Defined.

Lemma In_missing_dependency_errors (ts : dict Task) (m : string) :
  In m (missing_dependency_errors ts) <->
  exists task dep_id,
    In task (values ts) /\ In dep_id (dependencies task) /\ mem ts dep_id = false
    /\ m = ("Task " ++ id task ++ " depends on non-existent task " ++ dep_id)%string.
Proof.
  unfold missing_dependency_errors. rewrite in_flat_map. split.
  - intros (task & Hin & Hm). apply in_flat_map in Hm. destruct Hm as (dep & Hd & Hm).
    destruct (mem ts dep) eqn:E; [destruct Hm|]. destruct Hm as [<-|[]].
    now exists task, dep.
  - intros (task & dep & Hin & Hd & Hmem & ->). exists task. split; [exact Hin|].
    apply in_flat_map. exists dep. split; [exact Hd|]. rewrite Hmem. now left.
Qed.

Lemma validate_eq (self : TaskDAG.t) :
  fst (validate self) =
    match fst (topological_sort (snd (_has_cycle self))) with
    | Raise (DAGCycleError _) | Ok _ =>
        Ok ((if fst (_has_cycle self) then ["DAG contains a cycle"%string] else [])
            ++ missing_dependency_errors (tasks self))
    | Raise e => Raise e
    end.
Proof.
  unfold validate. pose proof (tasks_has_cycle self) as Ht.
  destruct (_has_cycle self) as [cyclic s1]. cbn [fst snd] in *. rewrite Ht.
  pose proof (topological_sort_length s1) as Hlen.
  destruct (topological_sort s1) as [[sorted|e] s2]; cbn [fst snd] in *.
  - rewrite (Hlen sorted eq_refl), Nat.eqb_refl. reflexivity.
  - destruct e; reflexivity.
Qed.

(** What [validate] reports when its [_has_cycle] returns. *)
Lemma validate_messages (self : TaskDAG.t) :
  (forall errors, fst (validate self) = Ok errors ->
     errors = (if fst (_has_cycle self) then ["DAG contains a cycle"%string] else [])
              ++ missing_dependency_errors (tasks self)
     /\ ~ In "Some tasks are unreachable"%string errors
     /\ (In "DAG contains a cycle"%string errors <-> fst (_has_cycle self) = true))
  /\ (forall e, fst (validate self) = Raise e ->
        exists k, e = KeyError k
                  /\ fst (topological_sort (snd (_has_cycle self))) = Raise (KeyError k)).
Proof.
  rewrite validate_eq. split.
  - intros errors Hok.
    assert (He : errors =
              (if fst (_has_cycle self) then ["DAG contains a cycle"%string] else [])
              ++ missing_dependency_errors (tasks self)).
    { destruct (fst (topological_sort _)) as [sorted|[]]; congruence. }
    clear Hok. subst errors. split; [reflexivity|].
    assert (Hmiss : forall m, In m (missing_dependency_errors (tasks self)) ->
                      exists rest, m = ("T" ++ rest)%string).
    { intros m Hm. apply In_missing_dependency_errors in Hm.
      destruct Hm as (task & dep & _ & _ & _ & ->). simpl. eauto. }
    split.
    + intros Hin. apply in_app_or in Hin. destruct Hin as [Hin|Hin].
      * destruct (fst (_has_cycle self)); [destruct Hin as [H|[]]; discriminate | destruct Hin].
      * destruct (Hmiss _ Hin) as (rest & Hrest). simpl in Hrest. discriminate.
    + split.
      * intros Hin. apply in_app_or in Hin. destruct Hin as [Hin|Hin].
        -- destruct (fst (_has_cycle self)); [reflexivity | destruct Hin].
        -- destruct (Hmiss _ Hin) as (rest & Hrest). simpl in Hrest. discriminate.
      * intros ->. now left.
  - intros e He.
    pose proof (topological_sort_raises (snd (_has_cycle self))) as Hr.
    destruct (fst (topological_sort _)) as [sorted|e1]; [discriminate|].
    destruct (Hr e1 eq_refl) as [->|(k & ->)]; [discriminate|].
    injection He as <-. now exists k.
Qed.

Lemma has_cycle_represented (ts : list Task) (self : TaskDAG.t) :
  represents ts self -> ~ has_dependency_cycle ts ->
  fst (_has_cycle self) = false /\ represents ts (snd (_has_cycle self)).
Proof.
  intros Hrep Hacyc. split.
  - destruct (fst (_has_cycle self)) eqn:E; [|reflexivity].
    exfalso. apply Hacyc. apply has_cycle_spec in E.
    rewrite (keys_represented _ _ Hrep) in E.
    apply (dependency_cycle_reachable ts _ (proj1 (proj2 Hrep))). exact E.
  - destruct Hrep as (Hts & Hadj & Hrev). split; [|split].
    + now rewrite tasks_has_cycle.
    + intros x. now rewrite lookup_has_cycle.
    + now rewrite reverse_has_cycle.
Qed.

Lemma missing_represented (ts : list Task) (m : string) :
  In m (missing_dependency_errors (map (fun task => (id task, task)) ts)) <->
  exists task dep_id,
    In task ts /\ In dep_id (dependencies task) /\ ~ In dep_id (task_ids ts)
    /\ m = ("Task " ++ id task ++ " depends on non-existent task " ++ dep_id)%string.
Proof.
  rewrite In_missing_dependency_errors.
  assert (Hv : values (map (fun task => (id task, task)) ts) = ts).
  { unfold values. rewrite map_map. simpl. apply map_id. }
  assert (Hk : keys (map (fun task => (id task, task)) ts) = task_ids ts).
  { unfold keys, task_ids. now rewrite map_map. }
  rewrite Hv.
  split; intros (task & dep & Hin & Hd & Hm & ->); exists task, dep;
    (split; [exact Hin|]; split; [exact Hd|]; split; [|reflexivity]).
  - apply mem_false_keys in Hm. now rewrite Hk in Hm.
  - apply mem_false_keys. now rewrite Hk.
Qed.

(** X13.  [validate] after tasks with distinct ids were inserted one by one
    into the empty graph: it returns, and what it returns is exactly one
    message for each mention of a dependency that is not among the tasks, in
    store order.  So the answer is empty exactly when every dependency is
    present, which is also exactly when [topological_sort] succeeds. *)
Theorem validate_after_insertion (ts : list Task) :
  NoDup (task_ids ts) ->
  fst (add_tasks ts TaskDAG.init) = Ok tt ->
  let self := snd (add_tasks ts TaskDAG.init) in
  fst (validate self) = Ok (missing_dependency_errors (tasks self))
  /\ (forall m, In m (missing_dependency_errors (tasks self)) <->
        exists task dep_id,
          In task ts /\ In dep_id (dependencies task) /\ ~ In dep_id (task_ids ts)
          /\ m = ("Task " ++ id task ++ " depends on non-existent task " ++ dep_id)%string)
  /\ (fst (validate self) = Ok [] <-> dependencies_closed ts)
  /\ (fst (validate self) = Ok [] <->
      exists sorted, fst (topological_sort self) = Ok sorted).
Proof.
  intros Hnd Hok self.
  destruct (add_tasks_ok_represents ts Hnd Hok) as [Hacyc Hrep]. fold self in Hrep.
  destruct (has_cycle_represented ts self Hrep Hacyc) as [Hno Hrep1].
  assert (Hts : tasks self = map (fun task => (id task, task)) ts) by apply Hrep.
  assert (Hval : fst (validate self) = Ok (missing_dependency_errors (tasks self))).
  { rewrite validate_eq, Hno. simpl.
    destruct (closed_or_dangling ts) as [Hc|Hd].
    - destruct (topological_sort_represented ts _ (conj Hnd (conj Hc Hacyc)) Hrep1)
        as (sorted & self' & Hrun & _). now rewrite Hrun.
    - now rewrite (topological_sort_dangling ts _ Hnd Hrep1 Hd). }
  assert (Hmem : forall m, In m (missing_dependency_errors (tasks self)) <->
        exists task dep_id,
          In task ts /\ In dep_id (dependencies task) /\ ~ In dep_id (task_ids ts)
          /\ m = ("Task " ++ id task ++ " depends on non-existent task " ++ dep_id)%string).
  { intros m. rewrite Hts. apply missing_represented. }
  assert (Hempty : fst (validate self) = Ok [] <-> dependencies_closed ts).
  { rewrite Hval. split.
    - intros [= He] task dep Hin Hd.
      destruct (in_dec string_dec dep (task_ids ts)) as [Hp|Hp]; [exact Hp|].
      exfalso.
      assert (Hm : In ("Task " ++ id task ++ " depends on non-existent task " ++ dep)%string
                      (missing_dependency_errors (tasks self))).
      { apply Hmem. now exists task, dep. }
      rewrite He in Hm. destruct Hm.
    - intros Hc. f_equal.
      assert (Hnone : forall m, ~ In m (missing_dependency_errors (tasks self))).
      { intros m Hm. apply Hmem in Hm.
        destruct Hm as (task & dep & Hin & Hd & Hnot & _). apply Hnot. eapply Hc; eauto. }
      destruct (missing_dependency_errors (tasks self)) as [|m l]; [reflexivity|].
      exfalso. apply (Hnone m). now left. }
  split; [exact Hval|]. split; [exact Hmem|]. split; [exact Hempty|].
  rewrite Hempty. symmetry.
  destruct (closed_or_dangling ts) as [Hc|Hd].
  - destruct (topological_sort_represented ts self (conj Hnd (conj Hc Hacyc)) Hrep)
      as (sorted & self' & Hrun & _).
    rewrite Hrun. simpl. split; [intros _; exact Hc | intros _; now exists sorted].
  - rewrite (topological_sort_dangling ts self Hnd Hrep Hd).
    split; [intros (s & Hs); discriminate|].
    intros Hc. now apply dangling_not_closed in Hd.
Qed.

Lemma validate_after_insertion_witness :
  NoDup (task_ids chain_tasks)
  /\ fst (add_tasks chain_tasks TaskDAG.init) = Ok tt
  /\ fst (validate chain_graph) = Ok (missing_dependency_errors (tasks chain_graph)).
Proof.
  assert (Hnd : NoDup (task_ids chain_tasks)).
  { vm_compute. repeat constructor; simpl; intuition discriminate. }
  split; [exact Hnd|]. split; [reflexivity|].
  exact (proj1 (validate_after_insertion chain_tasks Hnd eq_refl)).
Defined.

End AfterInsertion.

(** ** Scheduling *)
Section Scheduling.
Import TaskDAG TaskStatus.

Lemma filter_none {A : Type} (f : A -> bool) (l : list A) :
  (forall x, In x l -> f x = false) -> filter f l = [].
Proof.
  induction l as [|a l IH]; simpl; intros H; [reflexivity|].
  rewrite (H a) by now left. apply IH. intros x Hx. apply H. now right.
Qed.

Lemma with_tasks_same (self : TaskDAG.t) : with_tasks self (tasks self) = self.
Proof. now destruct self. Qed.

Lemma terminal_not_ready (ts : dict Task) (task : Task) :
  is_terminal (status task) = true -> is_ready ts task = false.
Proof. unfold is_terminal, is_ready. destruct (status task); simpl; congruence. Qed.

Lemma terminal_not_blocks (ts : dict Task) (task : Task) :
  is_terminal (status task) = true -> blocks ts task = false.
Proof. unfold blocks. now intros ->. Qed.

(** X14.  [is_complete] answers [True] exactly when every stored task is
    [COMPLETED], [FAILED] or [SKIPPED] (so also for the empty graph).  In
    that case nothing is left to schedule: [get_ready_tasks] is empty,
    [get_next_task] is [None], and [get_blocked_tasks] returns the empty list
    and changes no task. *)
Theorem is_complete_quiescent (self : TaskDAG.t) :
  wf (tasks self) ->
  (is_complete self = true <->
   forall task, In task (get_all_tasks self) ->
     status task = COMPLETED \/ status task = FAILED \/ status task = SKIPPED)
  /\ (is_complete self = true ->
        get_ready_tasks self = []
        /\ get_next_task self = None
        /\ get_blocked_tasks self = ([], self)).
Proof.
  intros Hwf. split.
  - unfold is_complete, get_all_tasks. rewrite forallb_forall.
    split; intros H task Hin; specialize (H task Hin); revert H;
      unfold is_terminal; destruct (status task); simpl;
      intuition (discriminate || auto).
  - intros Hc. unfold is_complete in Hc. rewrite forallb_forall in Hc.
    assert (Hready : get_ready_tasks self = []).
    { unfold get_ready_tasks. rewrite filter_none; [reflexivity|].
      intros task Hin. apply terminal_not_ready. now apply Hc. }
    split; [exact Hready|]. split.
    + unfold get_next_task. now rewrite Hready.
    + rewrite get_blocked_tasks_eq by exact Hwf. unfold get_all_tasks.
      rewrite filter_none
        by (intros task Hin; apply terminal_not_blocks; now apply Hc).
      simpl. f_equal.
      assert (Hmap : forall l : dict Task,
                 (forall task, In task (values l) -> is_terminal (status task) = true) ->
                 map (mark_blocked (tasks self)) l = l).
      { induction l as [|[k t] l IH]; simpl; intros H; [reflexivity|].
        rewrite IH by (intros task Hin; apply H; now right).
        unfold mark_blocked at 1. simpl.
        now rewrite terminal_not_blocks by (apply H; now left). }
      rewrite (Hmap (tasks self) Hc). apply with_tasks_same.
Qed.

Lemma is_complete_quiescent_witness :
  wf (tasks chain_done)
  /\ is_complete chain_done = true
  /\ length (get_all_tasks chain_done) = 4
  /\ get_ready_tasks chain_done = []
  /\ get_next_task chain_done = None
  /\ get_blocked_tasks chain_done = ([], chain_done).
Proof.
  assert (Hwf : wf (tasks chain_done)).
  { unfold wf. vm_compute. repeat constructor; simpl; intuition discriminate. }
  assert (Hc : is_complete chain_done = true) by reflexivity.
  split; [exact Hwf|]. split; [exact Hc|]. split; [reflexivity|].
  exact (proj2 (is_complete_quiescent chain_done Hwf) Hc).
Defined.

Lemma blocks_marked (ts : dict Task) (kv : string * Task) :
  blocks (map (mark_blocked ts) ts) (snd (mark_blocked ts kv)) = blocks ts (snd kv).
Proof.
  destruct kv as [k t]. unfold mark_blocked at 2. simpl.
  assert (Hdep : forall t', dependencies t' = dependencies t ->
                   has_failed_dep (map (mark_blocked ts) ts) t' = has_failed_dep ts t).
  { intros t' Hd.
    pose proof (has_failed_dep_marked ts ts [] t') as H. rewrite !app_nil_r in H.
    rewrite H. unfold has_failed_dep. now rewrite Hd. }
  destruct (blocks ts t) eqn:E.
  - unfold blocks in *. rewrite (Hdep (set_status TaskStatus.BLOCKED t) eq_refl). simpl.
    apply andb_true_iff in E. destruct E as [_ ->]. reflexivity.
  - unfold blocks in *. now rewrite (Hdep _ eq_refl).
Qed.

Lemma set_status_twice (s : TaskStatus.t) (task : Task) :
  set_status s (set_status s task) = set_status s task.
Proof. reflexivity. Qed.

(** X15.  [get_blocked_tasks] is idempotent: when the store binds no id
    twice, a second call right after the first returns the same tasks (all
    with status [BLOCKED]) and leaves the graph as the first call left it. *)
Theorem get_blocked_tasks_idempotent (self : TaskDAG.t) :
  wf (tasks self) ->
  get_blocked_tasks (snd (get_blocked_tasks self)) = get_blocked_tasks self
  /\ (forall task, In task (fst (get_blocked_tasks self)) -> status task = BLOCKED).
Proof.
  intros Hwf. rewrite (get_blocked_tasks_eq self Hwf). cbn [fst snd]. split.
  - set (ts := tasks self).
    assert (Hwf' : wf (tasks (with_tasks self (map (mark_blocked ts) ts)))).
    { simpl. unfold wf. now rewrite keys_mark_blocked. }
    rewrite (get_blocked_tasks_eq _ Hwf'). unfold get_all_tasks. simpl. f_equal.
    + assert (Hl : forall l : dict Task,
               map (set_status BLOCKED)
                   (filter (blocks (map (mark_blocked ts) ts))
                           (values (map (mark_blocked ts) l))) =
               map (set_status BLOCKED) (filter (blocks ts) (values l))).
      { unfold values. induction l as [|kv l IH]; [reflexivity|].
        cbn [map filter]. rewrite blocks_marked.
        destruct (blocks ts (snd kv)) eqn:E; cbn [map]; [|exact IH].
        rewrite IH. f_equal. unfold mark_blocked. cbn [snd]. now rewrite E. }
      apply Hl.
    + destruct self as [ts0 adj radj]. unfold with_tasks. simpl in *. subst ts.
      assert (Hl : forall l : dict Task,
               map (mark_blocked (map (mark_blocked ts0) ts0)) (map (mark_blocked ts0) l) =
               map (mark_blocked ts0) l).
      { induction l as [|kv l IH]; [reflexivity|].
        cbn [map]. rewrite IH. f_equal.
        unfold mark_blocked at 1. rewrite blocks_marked.
        unfold mark_blocked. cbn [fst snd]. now destruct (blocks ts0 (snd kv)). }
      now rewrite Hl.
  - intros task Hin. apply in_map_iff in Hin. now destruct Hin as (t & <- & _).
Qed.

Lemma get_blocked_tasks_idempotent_witness :
  wf (tasks chain_failed)
  /\ get_blocked_tasks (snd (get_blocked_tasks chain_failed)) =
     get_blocked_tasks chain_failed.
Proof.
  assert (Hwf : wf (tasks chain_failed)) by apply tasks_ok_chain_failed.
  split; [exact Hwf|].
  exact (proj1 (get_blocked_tasks_idempotent chain_failed Hwf)).
Defined.

(** X16.  Ties keep the store order: among the ready tasks with the same
    priority [p] and the same creation time [c], [get_ready_tasks] returns
    them in the order in which the store holds them. *)
Theorem get_ready_tasks_ties (self : TaskDAG.t) (p c : Z) :
  let same := fun task => ((priority task =? p) && (created_at task =? c))%Z in
  filter same (get_ready_tasks self) =
  filter same (filter (is_ready (tasks self)) (get_all_tasks self)).
Proof.
  apply (sort_by_key_stable (p, c)).
Qed.

(** X19.  Completing a task never takes another task off the ready list:
    after [dag.get_task(i).status = COMPLETED], every task that was ready
    and has another id is still ready, and no ready task has id [i]. *)
Theorem complete_keeps_ready (self : TaskDAG.t) (i : string) :
  tasks_ok self ->
  (forall task, In task (get_ready_tasks self) -> id task <> i ->
     In task (get_ready_tasks (mark_status i COMPLETED self)))
  /\ (forall task, In task (get_ready_tasks (mark_status i COMPLETED self)) ->
        id task <> i).
Proof.
  intros Hok. split.
  - intros task Hin Hne. apply get_ready_tasks_In in Hin. destruct Hin as [Hin Hr].
    pose proof (tasks_ok_get self task Hok Hin) as Hget. unfold get_task in Hget.
    apply get_ready_tasks_In. unfold mark_status.
    destruct (get (tasks self) i) as [ti|] eqn:Hi; [|now split].
    simpl. split.
    + unfold get_all_tasks. simpl.
      assert (Hg : get (set (tasks self) i (set_status COMPLETED ti)) (id task) = Some task).
      { rewrite get_set_neq by congruence. exact Hget. }
      apply get_In in Hg. apply (in_map snd) in Hg. exact Hg.
    + apply is_ready_spec in Hr. destruct Hr as [Hp Hdeps].
      apply is_ready_spec. split; [exact Hp|].
      intros dep_id dep Hd Hg. destruct (string_dec i dep_id) as [<-|Hnd].
      * rewrite get_set_eq in Hg. now injection Hg as <-.
      * rewrite get_set_neq in Hg by exact Hnd. eapply Hdeps; eauto.
  - intros task Hin Heq.
    pose proof (tasks_ok_mark_status i COMPLETED self Hok) as Hok'.
    apply get_ready_tasks_In in Hin. destruct Hin as [Hin Hr].
    pose proof (tasks_ok_get _ task Hok' Hin) as Hget. unfold get_task in Hget.
    apply is_ready_spec in Hr. destruct Hr as [Hp _].
    unfold mark_status in Hget. rewrite Heq in Hget.
    destruct (get (tasks self) i) as [ti|] eqn:Hi.
    + simpl in Hget. rewrite get_set_eq in Hget. injection Hget as <-.
      simpl in Hp. discriminate.
    + congruence.
Qed.

Lemma complete_keeps_ready_witness :
  tasks_ok chain_graph
  /\ In (new_task "D" [] 100%Z 4%Z) (get_ready_tasks (mark_status "A" COMPLETED chain_graph)).
Proof.
  assert (Hok : tasks_ok chain_graph) by apply graph_wf_chain_graph.
  split; [exact Hok|].
  apply (proj1 (complete_keeps_ready chain_graph "A" Hok)).
  - vm_compute. tauto.
  - discriminate.
Defined.

(** X20.  No deadlock: in a graph whose store files each task under its own
    id, whose stored dependencies form no cycle, and where every task is
    [PENDING] or [COMPLETED], either [is_complete] holds or [get_next_task]
    returns a task. *)
Theorem get_next_task_progress (self : TaskDAG.t) :
  tasks_ok self ->
  ~ has_dependency_cycle (get_all_tasks self) ->
  (forall task, In task (get_all_tasks self) ->
     status task = PENDING \/ status task = COMPLETED) ->
  is_complete self = false ->
  exists task, get_next_task self = Some task /\ status task = PENDING.
Proof.
  intros Hok Hacyc Hst Hinc.
  assert (Hhead : forall task, In task (get_ready_tasks self) -> status task = PENDING).
  { intros task Hin. apply get_ready_tasks_In in Hin. destruct Hin as [_ Hr].
    now apply is_ready_spec in Hr. }
  unfold get_next_task.
  destruct (get_ready_tasks self) as [|task rest] eqn:Hready.
  2:{ exists task. split; [reflexivity | apply Hhead; now left]. }
  exfalso.
  set (U := fun x => exists task, In task (get_all_tasks self)
                                  /\ id task = x /\ status task = PENDING).
  assert (Hsome : exists x, U x).
  { unfold is_complete in Hinc.
    destruct (forallb _ _) eqn:E in Hinc; [discriminate|]. clear Hinc.
    assert (Hex : existsb (fun task => negb (is_terminal (status task)))
                          (values (tasks self)) = true).
    { revert E. generalize (values (tasks self)).
      induction l as [|a l IH]; simpl; [discriminate|].
      destruct (is_terminal (status a)); simpl; auto. }
    apply existsb_exists in Hex. destruct Hex as (task & Hin & Hnt).
    exists (id task), task. split; [exact Hin|]. split; [reflexivity|].
    destruct (Hst task Hin) as [H|H]; [exact H|]. rewrite H in Hnt. discriminate. }
  destruct Hsome as (x & Hx).
  apply (no_infinite_descent (get_all_tasks self) Hacyc
           (task_ids (get_all_tasks self)) U) with (x := x); [| |exact Hx].
  - intros y (task & Hin & <- & _). now apply in_map.
  - intros y (task & Hin & <- & Hp).
    assert (Hnr : is_ready (tasks self) task = false).
    { destruct (is_ready (tasks self) task) eqn:E; [|reflexivity].
      assert (Hin' : In task (get_ready_tasks self))
        by (apply get_ready_tasks_In; now split).
      rewrite Hready in Hin'. destruct Hin'. }
    unfold is_ready in Hnr. rewrite Hp in Hnr. simpl in Hnr.
    unfold deps_completed in Hnr.
    assert (Hex : existsb (fun dep_id =>
                     negb match get (tasks self) dep_id with
                          | Some dep => TaskStatus.eqb (status dep) COMPLETED
                          | None => true
                          end) (dependencies task) = true).
    { revert Hnr. generalize (dependencies task).
      induction l as [|a l IH]; simpl; [discriminate|].
      destruct (match get (tasks self) a with
                | Some dep => TaskStatus.eqb (status dep) COMPLETED
                | None => true end); simpl; auto. }
    apply existsb_exists in Hex. destruct Hex as (dep_id & Hd & Hneg).
    destruct (get (tasks self) dep_id) as [dep|] eqn:Hg; [|discriminate].
    assert (Hind : In dep (get_all_tasks self)).
    { apply get_In in Hg. apply (in_map snd) in Hg. exact Hg. }
    assert (Hid : id dep = dep_id).
    { destruct Hok as [_ Hk]. apply Hk. now apply get_In. }
    exists dep_id. split.
    + exists dep. split; [exact Hind|]. split; [exact Hid|].
      destruct (Hst dep Hind) as [H|H]; [exact H|]. rewrite H in Hneg. discriminate.
    + exists task. now repeat split.
Qed.

Lemma get_next_task_progress_witness :
  tasks_ok chain_graph
  /\ exists task, get_next_task chain_graph = Some task /\ status task = PENDING.
Proof.
  assert (Hok : tasks_ok chain_graph) by apply graph_wf_chain_graph.
  split; [exact Hok|].
  apply (get_next_task_progress chain_graph Hok).
  - apply acyclic_chain_tasks.
  - intros task Hin. vm_compute in Hin.
    repeat (destruct Hin as [<-|Hin]; [now left|]). destruct Hin.
  - reflexivity.
Defined.

End Scheduling.

(** ** Queries and removal on a graph built from the empty one *)
Section BuiltGraphs.
Import TaskDAG.

Lemma In_resolve (ts : dict Task) (ids : list string) (k : string) (task : Task) :
  In k ids -> get ts k = Some task -> In task (resolve ts ids).
Proof.
  intros Hin Hget. unfold resolve. apply in_flat_map. exists k.
  split; [exact Hin|]. rewrite Hget. now left.
Qed.

Lemma get_represented (ts : list Task) (k : string) (task : Task) :
  get (map (fun task => (id task, task)) ts) k = Some task -> id task = k /\ In task ts.
Proof.
  intros Hget. apply get_In in Hget. apply in_map_iff in Hget.
  destruct Hget as (t & [= <- <-] & Hin). now split.
Qed.

Lemma represented_get (ts : list Task) (task : Task) :
  NoDup (task_ids ts) -> In task ts ->
  get (map (fun task => (id task, task)) ts) (id task) = Some task.
Proof.
  intros Hnd Hin. apply In_get.
  - unfold wf, keys. now rewrite map_map.
  - apply in_map_iff. now exists task.
Qed.

(** X17.  After tasks with distinct ids were inserted one by one into the
    empty graph, [get_task_dependents] and [get_task_dependencies] are
    converse to each other on the stored tasks: [b] is returned as a
    dependent of [a] exactly when [a] is returned as a dependency of [b],
    which is exactly when [b] lists the id of [a]. *)
Theorem dependents_dependencies_converse (ts : list Task) (a b : Task) :
  NoDup (task_ids ts) ->
  fst (add_tasks ts TaskDAG.init) = Ok tt ->
  In a ts -> In b ts ->
  let self := snd (add_tasks ts TaskDAG.init) in
  (In b (fst (get_task_dependents (id a) self)) <-> In (id a) (dependencies b))
  /\ (In a (get_task_dependencies (id b) self) <-> In (id a) (dependencies b)).
Proof.
  intros Hnd Hok Ha Hb self.
  destruct (add_tasks_ok_represents ts Hnd Hok) as [_ Hrep]. fold self in Hrep.
  destruct Hrep as (Hts & Hadj & _). split.
  - unfold get_task_dependents. cbn [fst]. rewrite Hadj, Hts. split.
    + intros Hin. apply resolve_In in Hin. destruct Hin as (k & Hk & Hget).
      apply get_represented in Hget. destruct Hget as [<- _].
      apply dependents_of_In in Hk. destruct Hk as (task & Hin & Hid & Hd).
      now rewrite <- (id_injective ts task b Hnd Hin Hb Hid).
    + intros Hd. apply (In_resolve _ _ (id b)).
      * apply dependents_of_In. now exists b.
      * now apply represented_get.
  - unfold get_task_dependencies. rewrite Hts, (represented_get ts b Hnd Hb). split.
    + intros Hin. apply resolve_In in Hin. destruct Hin as (k & Hk & Hget).
      apply get_represented in Hget. now destruct Hget as [<- _].
    + intros Hd. apply (In_resolve _ _ (id a)); [exact Hd|].
      now apply represented_get.
Qed.

Lemma dependents_dependencies_converse_witness :
  NoDup (task_ids chain_tasks)
  /\ In (new_task "B" ["A"] 100%Z 2%Z)
        (fst (get_task_dependents "A" chain_graph)).
Proof.
  assert (Hnd : NoDup (task_ids chain_tasks)).
  { vm_compute. repeat constructor; simpl; intuition discriminate. }
  split; [exact Hnd|].
  assert (Ha : In (new_task "A" [] 100%Z 1%Z) chain_tasks) by (simpl; tauto).
  assert (Hb : In (new_task "B" ["A"] 100%Z 2%Z) chain_tasks) by (simpl; tauto).
  pose proof (dependents_dependencies_converse chain_tasks _ _ Hnd eq_refl Ha Hb) as H.
  cbv zeta in H. destruct H as [H _]. apply H. simpl. tauto.
Defined.

Lemma NoDup_map_filter {A B : Type} (f : A -> B) (g : A -> bool) (l : list A) :
  NoDup (map f l) -> NoDup (map f (filter g l)).
Proof.
  induction l as [|a l IH]; simpl; intros Hnd; [constructor|].
  inversion Hnd as [|? ? Hnot Hnd']; subst.
  destruct (g a); simpl; [|now apply IH].
  constructor; [|now apply IH].
  intros Hin. apply Hnot. apply in_map_iff in Hin. destruct Hin as (x & Hx & Hin).
  apply filter_In in Hin. apply in_map_iff. exists x. tauto.
Qed.

Lemma filter_other_ids (ts : list Task) (i : string) :
  ~ In i (task_ids ts) ->
  filter (fun task => negb (String.eqb (id task) i)) ts = ts.
Proof.
  induction ts as [|a ts IH]; simpl; intros Hnot; [reflexivity|].
  destruct (String.eqb_spec (id a) i) as [Heq|Hne]; [tauto|].
  simpl. rewrite IH; tauto.
Qed.

Lemma filter_other_strings (l : list string) (i : string) :
  ~ In i l -> filter (fun y => negb (String.eqb y i)) l = l.
Proof.
  induction l as [|a l IH]; simpl; intros Hnot; [reflexivity|].
  destruct (String.eqb_spec a i) as [Heq|Hne]; [tauto|].
  simpl. rewrite IH; tauto.
Qed.

Lemma del_represented (ts : list Task) (i : string) :
  NoDup (task_ids ts) ->
  del (map (fun task => (id task, task)) ts) i =
  map (fun task => (id task, task))
      (filter (fun task => negb (String.eqb (id task) i)) ts).
Proof.
  induction ts as [|a ts IH]; simpl; intros Hnd; [reflexivity|].
  inversion Hnd as [|? ? Hnot Hnd']; subst.
  rewrite (String.eqb_sym (id a) i).
  destruct (String.eqb_spec i (id a)) as [->|Hne]; simpl.
  - now rewrite filter_other_ids.
  - now rewrite IH.
Qed.

Lemma del_reverse_index (ts : list Task) (i : string) :
  NoDup (task_ids ts) ->
  del (reverse_index ts) i =
  reverse_index (filter (fun task => negb (String.eqb (id task) i)) ts).
Proof.
  induction ts as [|a ts IH]; intros Hnd; [reflexivity|].
  inversion Hnd as [|? ? Hnot Hnd']; subst.
  assert (Hcons : forall l, reverse_index (a :: l) =
            match dependencies a with
            | [] => []
            | _ :: _ => [(id a, dependencies a)]
            end ++ reverse_index l) by reflexivity.
  cbn [filter]. rewrite (String.eqb_sym (id a) i), Hcons.
  destruct (String.eqb_spec i (id a)) as [->|Hne]; cbn [negb].
  - rewrite filter_other_ids by exact Hnot.
    destruct (dependencies a) as [|d ds]; simpl.
    + apply del_absent. apply get_None_keys. intros Hin.
      now apply keys_reverse_index in Hin.
    + now rewrite String.eqb_refl.
  - rewrite Hcons. destruct (dependencies a) as [|d ds]; simpl.
    + now apply IH.
    + destruct (String.eqb_spec i (id a)); [contradiction|]. now rewrite IH.
Qed.

Lemma filter_map_constant {A : Type} (p : string -> bool) (c : string) (l : list A) :
  filter p (map (fun _ => c) l) = if p c then map (fun _ => c) l else [].
Proof.
  induction l as [|a l IH]; simpl; [now destruct (p c)|].
  rewrite IH. now destruct (p c).
Qed.

Lemma dependents_of_filter (ts : list Task) (i x : string) :
  dependents_of (filter (fun task => negb (String.eqb (id task) i)) ts) x =
  filter (fun y => negb (String.eqb y i)) (dependents_of ts x).
Proof.
  unfold dependents_of. induction ts as [|a ts IH]; simpl; [reflexivity|].
  rewrite filter_app, filter_map_constant, <- IH.
  destruct (negb (String.eqb (id a) i)); reflexivity.
Qed.

Lemma filter_list_remove (i : string) (l : list string) :
  filter (fun y => negb (String.eqb y i)) (list_remove i l) =
  filter (fun y => negb (String.eqb y i)) l.
Proof.
  induction l as [|y l IH]; simpl; [reflexivity|].
  rewrite (String.eqb_sym y i).
  destruct (String.eqb_spec i y) as [->|Hne]; simpl; [reflexivity|].
  rewrite (String.eqb_sym y i).
  destruct (String.eqb_spec i y); [contradiction|]. simpl. now rewrite IH.
Qed.

Lemma iter_list_remove (i : string) (n : nat) : forall l : list string,
  count_occ string_dec l i = n ->
  Nat.iter n (list_remove i) l = filter (fun y => negb (String.eqb y i)) l.
Proof.
  induction n as [|n IH]; intros l Hn.
  - simpl. symmetry. apply filter_other_strings.
    now apply (count_occ_not_In string_dec).
  - rewrite Nat.iter_succ_r, IH.
    + apply filter_list_remove.
    + rewrite count_list_remove_eq, Hn. reflexivity.
Qed.

Lemma iter_list_remove_nil (i : string) (n : nat) : Nat.iter n (list_remove i) [] = [].
Proof. induction n as [|n IH]; simpl; [reflexivity | now rewrite IH]. Qed.

Lemma lookup_discard_fold (i : string) (ks : list string) : forall (d : ddict) (x : string),
  dd_lookup (fold_left (fun d k => dd_discard d k i) ks d) x =
  Nat.iter (count_occ string_dec ks x) (list_remove i) (dd_lookup d x).
Proof.
  induction ks as [|k ks IH]; intros d x; [reflexivity|].
  cbn [fold_left count_occ]. rewrite IH, dd_lookup_discard.
  destruct (String.eqb_spec k x) as [->|Hne].
  - destruct (string_dec x x); [|contradiction]. now rewrite Nat.iter_succ_r.
  - destruct (string_dec k x); [contradiction|reflexivity].
Qed.

Lemma remove_represented (ts : list Task) (t : Task) (self : TaskDAG.t) :
  NoDup (task_ids ts) ->
  represents ts self ->
  wf (_adjacency_list self) ->
  In t ts ->
  (forall task, In task ts -> ~ In (id t) (dependencies task)) ->
  represents (filter (fun task => negb (String.eqb (id task) (id t))) ts)
             (remove_task (id t) self).
Proof.
  intros Hnd (Hts & Hadj & Hrev) Hwf Hin Hleaf.
  assert (Hnone : dependents_of ts (id t) = []).
  { destruct (dependents_of ts (id t)) as [|y l] eqn:E; [reflexivity|].
    exfalso. assert (Hy : In y (dependents_of ts (id t))) by (rewrite E; now left).
    apply dependents_of_In in Hy. destruct Hy as (task & Htask & _ & Hd).
    exact (Hleaf task Htask Hd). }
  unfold remove_task. rewrite Hts, (represented_get ts t Hnd Hin).
  set (adj1 := fold_left (fun adj dep_id => dd_discard adj dep_id (id t))
                         (dependencies t) (_adjacency_list self)).
  assert (Hl1 : dd_lookup adj1 (id t) = []).
  { unfold adj1. rewrite lookup_discard_fold, Hadj, Hnone. apply iter_list_remove_nil. }
  rewrite Hl1. cbn [fold_left]. split; [|split]; cbn [tasks _adjacency_list _reverse_adjacency].
  - now apply del_represented.
  - intros x. rewrite dependents_of_filter.
    destruct (string_dec (id t) x) as [<-|Hne].
    + rewrite Hnone. apply dd_lookup_del_eq. apply wf_touch.
      unfold adj1. now apply wf_discard_fold.
    + rewrite dd_lookup_del_neq by exact Hne. rewrite dd_lookup_touch.
      unfold adj1. rewrite lookup_discard_fold, Hadj.
      apply iter_list_remove. now apply count_dependents.
  - rewrite Hrev. now apply del_reverse_index.
Qed.

(** X18.  Removing a task that no task lists as a dependency undoes its
    insertion.  After tasks with distinct ids were inserted one by one into
    the empty graph, [remove_task] of such a task leaves the graph that
    inserting the other tasks alone builds: the same store in the same
    order, the same reverse index, and the same list of dependents under
    every id. *)
Theorem remove_task_undoes_add_task (ts : list Task) (t : Task) :
  NoDup (task_ids ts) ->
  fst (add_tasks ts TaskDAG.init) = Ok tt ->
  In t ts ->
  (forall task, In task ts -> ~ In (id t) (dependencies task)) ->
  let removed := remove_task (id t) (snd (add_tasks ts TaskDAG.init)) in
  let others := filter (fun task => negb (String.eqb (id task) (id t))) ts in
  fst (add_tasks others TaskDAG.init) = Ok tt
  /\ tasks removed = tasks (snd (add_tasks others TaskDAG.init))
  /\ _reverse_adjacency removed =
     _reverse_adjacency (snd (add_tasks others TaskDAG.init))
  /\ (forall x, dd_lookup (_adjacency_list removed) x =
                dd_lookup (_adjacency_list (snd (add_tasks others TaskDAG.init))) x).
Proof.
  intros Hnd Hok Hin Hleaf removed others.
  destruct (add_tasks_ok_represents ts Hnd Hok) as [Hacyc Hrep].
  assert (Hwf : wf (_adjacency_list (snd (add_tasks ts TaskDAG.init))))
    by apply (graph_wf_add_tasks ts TaskDAG.init graph_wf_init).
  pose proof (remove_represented ts t _ Hnd Hrep Hwf Hin Hleaf) as (Ht1 & Ha1 & Hr1).
  fold removed others in Ht1, Ha1, Hr1.
  assert (Hnd' : NoDup (task_ids others)) by now apply NoDup_map_filter.
  assert (Hacyc' : ~ has_dependency_cycle others).
  { intros (x & Hx). apply Hacyc. exists x.
    eapply clos_trans_incl; [|exact Hx]. intros a b. apply depends_on_incl.
    apply incl_filter. }
  destruct (add_tasks_represents others [] TaskDAG.init represents_init Hnd' Hacyc')
    as (self' & Hrun & (Ht2 & Ha2 & Hr2)).
  simpl in Ht2, Ha2, Hr2. rewrite Hrun. cbn [fst snd].
  split; [reflexivity|]. split; [congruence|]. split; [congruence|].
  intros x. now rewrite Ha1, Ha2.
Qed.

Lemma remove_task_undoes_add_task_witness :
  NoDup (task_ids chain_tasks)
  /\ fst (add_tasks chain_tasks TaskDAG.init) = Ok tt
  /\ tasks (remove_task "D" chain_graph) =
     tasks (snd (add_tasks
                   [new_task "A" [] 100%Z 1%Z; new_task "B" ["A"] 100%Z 2%Z;
                    new_task "C" ["B"] 100%Z 3%Z] TaskDAG.init)).
Proof.
  assert (Hnd : NoDup (task_ids chain_tasks)).
  { vm_compute. repeat constructor; simpl; intuition discriminate. }
  split; [exact Hnd|]. split; [reflexivity|].
  assert (Hin : In (new_task "D" [] 100%Z 4%Z) chain_tasks) by (simpl; tauto).
  assert (Hleaf : forall task, In task chain_tasks ->
                    ~ In (id (new_task "D" [] 100%Z 4%Z)) (dependencies task)).
  { intros task H. simpl in H.
    repeat (destruct H as [<-|H]; [simpl; intuition discriminate|]). destruct H. }
  exact (proj1 (proj2 (remove_task_undoes_add_task chain_tasks _ Hnd eq_refl Hin Hleaf))).
Defined.

End BuiltGraphs.

(** ** Rejected insertions *)
Section RejectedInsertions.
Import TaskDAG.

(** With its edges staged, a task that names itself closes a cycle. *)
Lemma self_dependency_cyclic (task : Task) (self : TaskDAG.t) :
  In (id task) (dependencies task) ->
  fst (add_task task self) =
    Raise (DAGCycleError ("Adding task " ++ id task ++ " would create a cycle")%string).
Proof.
  intros Hself. apply add_task_outcome.
  assert (Hedge : index_edge
            (_adjacency_list
               (add_edges task (with_tasks self (set (tasks self) (id task) task))))
            (id task) (id task)).
  { unfold index_edge. rewrite adjacency_add_edges, dd_lookup_append_fold.
    apply in_or_app. right. apply in_map_iff. exists (id task).
    split; [reflexivity|]. apply filter_In. split; [exact Hself | apply String.eqb_refl]. }
  exists (id task), (id task). split; [|split].
  - rewrite tasks_add_edges. simpl. apply mem_keys. unfold mem.
    now rewrite get_set_eq.
  - apply rt_refl.
  - now apply t_step.
Qed.




End RejectedInsertions.

(** * The recursion limit *)

(** ** A run that is not cut off is the run of [TaskDAG] *)
Section LimitedDfs.
Import TaskDAG.

Variable adj : ddict.

Lemma limited_dfs_loop_agrees
      (rec : string -> list string -> list string -> Limited.dfs_result)
      (rec' : string -> list string -> list string -> dfs_result)
      (task_id : string) :
  (forall i v r, rec' i v r = returned (rec i v r)) ->
  forall dependents v r,
    dfs_loop rec' task_id dependents v r =
    returned (Limited.dfs_loop rec task_id dependents v r).
Proof.
  intros Hrec. induction dependents as [|d ds IH]; intros v r; simpl; [reflexivity|].
  destruct (set_mem d v); simpl.
  - destruct (set_mem d r); [reflexivity | apply IH].
  - rewrite Hrec. destruct (rec d v r) as [[[[|]|e] v'] r']; simpl;
      [reflexivity | apply IH | reflexivity].
Qed.

Lemma limited_dfs_agrees (depth : nat) : forall task_id v r,
  dfs depth adj task_id v r = returned (Limited.dfs depth adj task_id v r).
Proof.
  induction depth as [|depth IH]; intros task_id v r; simpl; [reflexivity|].
  now apply limited_dfs_loop_agrees.
Qed.

Lemma limited_dfs_roots_agrees (depth : nat) : forall roots v r,
  dfs_roots depth adj roots v r = returned_roots (Limited.dfs_roots depth adj roots v r).
Proof.
  induction roots as [|x roots IH]; intros v r; simpl; [reflexivity|].
  destruct (set_mem x v); simpl; [apply IH|].
  rewrite limited_dfs_agrees.
  destruct (Limited.dfs depth adj x v r) as [[[[|]|e] v'] r']; simpl;
    [reflexivity | apply IH | reflexivity].
Qed.

Lemma limited_dfs_loop_raises
      (rec : string -> list string -> list string -> Limited.dfs_result)
      (task_id : string) :
  (forall i v r e v' r', rec i v r = (Raise e, v', r') -> e = RecursionError) ->
  forall dependents v r e v' r',
    Limited.dfs_loop rec task_id dependents v r = (Raise e, v', r') ->
    e = RecursionError.
Proof.
  intros Hrec. induction dependents as [|d ds IH]; intros v r e v' r'; simpl;
    [discriminate|].
  destruct (set_mem d v); simpl.
  - destruct (set_mem d r); [discriminate | apply IH].
  - destruct (rec d v r) as [[[[|]|e0] v0] r0] eqn:E; [discriminate | apply IH |].
    intros [= <- _ _]. eapply Hrec; eauto.
Qed.

Lemma limited_dfs_raises (depth : nat) : forall task_id v r e v' r',
  Limited.dfs depth adj task_id v r = (Raise e, v', r') -> e = RecursionError.
Proof.
  induction depth as [|depth IH]; intros task_id v r e v' r'; simpl.
  - now intros [= <- _ _].
  - now apply limited_dfs_loop_raises.
Qed.

Lemma limited_dfs_roots_raises (depth : nat) : forall roots v r e v',
  Limited.dfs_roots depth adj roots v r = (Raise e, v') -> e = RecursionError.
Proof.
  induction roots as [|x roots IH]; intros v r e v'; simpl; [discriminate|].
  destruct (set_mem x v); simpl; [apply IH|].
  destruct (Limited.dfs depth adj x v r) as [[[[|]|e0] v0] r0] eqn:E;
    [discriminate | apply IH |].
  intros [= <- _]. eapply limited_dfs_raises; eauto.
Qed.

(** More fuel does not change a run that ended. *)
Lemma dfs_loop_more_fuel
      (rec rec' : string -> list string -> list string -> dfs_result)
      (task_id : string) :
  (forall i v r res, rec i v r = Some res -> rec' i v r = Some res) ->
  forall dependents v r res,
    dfs_loop rec task_id dependents v r = Some res ->
    dfs_loop rec' task_id dependents v r = Some res.
Proof.
  intros Hrec. induction dependents as [|d ds IH]; intros v r res; simpl; [auto|].
  destruct (set_mem d v); simpl.
  - destruct (set_mem d r); [auto | apply IH].
  - destruct (rec d v r) as [[[b v0] r0]|] eqn:E; [|discriminate].
    rewrite (Hrec _ _ _ _ E). destruct b; [auto | apply IH].
Qed.

Lemma dfs_more_fuel (fuel : nat) : forall fuel' task_id v r res,
  fuel <= fuel' ->
  dfs fuel adj task_id v r = Some res -> dfs fuel' adj task_id v r = Some res.
Proof.
  induction fuel as [|fuel IH]; intros fuel' task_id v r res Hle; simpl; [discriminate|].
  destruct fuel' as [|fuel']; [lia|]. simpl.
  apply dfs_loop_more_fuel. intros i v0 r0 res0. apply IH. lia.
Qed.

Lemma dfs_roots_more_fuel (fuel fuel' : nat) : forall roots v r res,
  fuel <= fuel' ->
  dfs_roots fuel adj roots v r = Some res -> dfs_roots fuel' adj roots v r = Some res.
Proof.
  induction roots as [|x roots IH]; intros v r res Hle; simpl; [auto|].
  destruct (set_mem x v); simpl; [now apply IH|].
  destruct (dfs fuel adj x v r) as [[[b v0] r0]|] eqn:E; [|discriminate].
  rewrite (dfs_more_fuel _ _ _ _ _ _ Hle E). destruct b; [auto | now apply IH].
Qed.

End LimitedDfs.

(** ** [_has_cycle] and [add_task] under the limit *)
Section LimitedMethods.
Import TaskDAG.

Lemma limited_has_cycle_frame (depth : nat) (self : TaskDAG.t) :
  tasks (snd (Limited._has_cycle depth self)) = tasks self
  /\ _reverse_adjacency (snd (Limited._has_cycle depth self)) = _reverse_adjacency self
  /\ (forall x, dd_lookup (_adjacency_list (snd (Limited._has_cycle depth self))) x =
                dd_lookup (_adjacency_list self) x).
Proof.
  unfold Limited._has_cycle.
  destruct (Limited.dfs_roots _ _ _ _ _) as [outcome visited]. simpl.
  repeat split. intros x. apply dd_lookup_touch_fold.
Qed.

Lemma limited_has_cycle_raises (depth : nat) (self : TaskDAG.t) (e : exn) :
  fst (Limited._has_cycle depth self) = Raise e -> e = RecursionError.
Proof.
  unfold Limited._has_cycle.
  destruct (Limited.dfs_roots _ _ _ _ _) as [outcome visited] eqn:E. simpl.
  intros ->. eapply limited_dfs_roots_raises; eauto.
Qed.

(** When [_has_cycle] returns under the limit, it returns what [TaskDAG]
    says, and leaves the same graph. *)
Lemma limited_has_cycle_returns (depth : nat) (self s : TaskDAG.t) (b : bool) :
  Limited._has_cycle depth self = (Ok b, s) -> _has_cycle self = (b, s).
Proof.
  unfold Limited._has_cycle, _has_cycle, has_cycle_run.
  destruct (Limited.dfs_roots _ _ _ _ _) as [outcome visited] eqn:E.
  intros [= -> <-].
  pose proof (limited_dfs_roots_agrees (_adjacency_list self) depth
                (keys (tasks self)) [] []) as Hagree.
  rewrite E in Hagree. simpl in Hagree.
  destruct (has_cycle_run_total self) as (found & visited' & Hrun).
  unfold has_cycle_run in Hrun.
  destruct (Nat.le_ge_cases depth (S (length (nodes self)))) as [Hle|Hle].
  - rewrite (dfs_roots_more_fuel _ _ _ _ _ _ _ Hle Hagree). reflexivity.
  - pose proof (dfs_roots_more_fuel _ _ _ _ _ _ _ Hle Hrun) as Hrun'.
    rewrite Hagree in Hrun'. injection Hrun' as <- <-. now rewrite Hrun.
Qed.

(** [_has_cycle] is not cut off when the limit leaves room for one
    activation per node that [dfs] can meet. *)
Lemma limited_has_cycle_enough (U : list string) (depth : nat) (self : TaskDAG.t) :
  (forall x y, index_edge (_adjacency_list self) x y -> In y U) ->
  (forall x, In x (keys (tasks self)) -> In x U) ->
  length U <= depth ->
  Limited._has_cycle depth self = (Ok (fst (_has_cycle self)), snd (_has_cycle self)).
Proof.
  intros Hclosed Hroots Hlen.
  destruct (dfs_roots_total (_adjacency_list self) U Hclosed depth (keys (tasks self))
              [] [] Hroots Hlen) as (b & v & Hrun).
  rewrite limited_dfs_roots_agrees in Hrun.
  assert (Hl : exists s, Limited._has_cycle depth self = (Ok b, s)).
  { unfold Limited._has_cycle.
    destruct (Limited.dfs_roots _ _ _ _ _) as [[b'|e] v']; simpl in Hrun;
      [|discriminate]. injection Hrun as -> ->. eauto. }
  destruct Hl as (s & Hl). rewrite Hl.
  now rewrite (limited_has_cycle_returns _ _ _ _ Hl).
Qed.

Lemma nodes_closed (self : TaskDAG.t) :
  (forall x y, index_edge (_adjacency_list self) x y -> In y (nodes self))
  /\ (forall x, In x (keys (tasks self)) -> In x (nodes self)).
Proof.
  split.
  - intros x y Hxy. unfold index_edge, dd_lookup in Hxy. unfold nodes.
    apply in_or_app. right.
    destruct (get (_adjacency_list self) x) as [l|] eqn:E; [|contradiction].
    apply get_In in E. apply in_concat. exists l. split; [|exact Hxy].
    unfold values. apply in_map_iff. now exists (x, l).
  - intros x Hx. unfold nodes. apply in_or_app. now left.
Qed.

Lemma limited_has_cycle_nodes (depth : nat) (self : TaskDAG.t) :
  length (nodes self) <= depth ->
  Limited._has_cycle depth self = (Ok (fst (_has_cycle self)), snd (_has_cycle self)).
Proof.
  destruct (nodes_closed self) as [Hc Hr]. now apply limited_has_cycle_enough.
Qed.

(** X6.  Under a limit of [depth] nested calls of [dfs], [_has_cycle] either
    returns or raises [RecursionError].  When it returns, the answer is
    [True] exactly when the forward index holds a cycle that can be reached
    from a stored task along its edges.  It can only raise when the graph
    has more nodes (stored ids and entries of the forward index) than
    [depth].  In every outcome the task store, the reverse index and every
    list of the forward index are as before the call. *)
Theorem has_cycle_exact (depth : nat) (self : TaskDAG.t) :
  (forall b, fst (Limited._has_cycle depth self) = Ok b ->
     (b = true <-> cycle_reachable (_adjacency_list self) (keys (tasks self))))
  /\ (forall e, fst (Limited._has_cycle depth self) = Raise e ->
        e = RecursionError /\ depth < length (nodes self))
  /\ tasks (snd (Limited._has_cycle depth self)) = tasks self
  /\ _reverse_adjacency (snd (Limited._has_cycle depth self)) = _reverse_adjacency self
  /\ (forall x, dd_lookup (_adjacency_list (snd (Limited._has_cycle depth self))) x =
                dd_lookup (_adjacency_list self) x).
Proof.
  split; [|split; [|apply limited_has_cycle_frame]].
  - intros b Hb. destruct (Limited._has_cycle depth self) as [r s] eqn:E.
    simpl in Hb. subst r. apply limited_has_cycle_returns in E.
    rewrite <- has_cycle_spec, E. reflexivity.
  - intros e He. split; [now apply (limited_has_cycle_raises depth self)|].
    destruct (Nat.lt_ge_cases depth (length (nodes self))) as [Hlt|Hge]; [exact Hlt|].
    rewrite (limited_has_cycle_nodes depth self Hge) in He. discriminate.
Qed.

(** When [add_task] does not raise [RecursionError], it does what
    [TaskDAG.add_task] says. *)
Lemma limited_add_task_returns (depth : nat) (task : Task) (self s : TaskDAG.t)
      (r : result unit) :
  Limited.add_task depth task self = (r, s) ->
  r <> Raise RecursionError ->
  add_task task self = (r, s).
Proof.
  unfold Limited.add_task, add_task.
  set (staged := add_edges task (with_tasks self (set (tasks self) (id task) task))).
  destruct (Limited._has_cycle depth staged) as [[b|e] s1] eqn:E.
  - rewrite (limited_has_cycle_returns _ _ _ _ E). destruct b; now intros [= <- <-].
  - assert (He : e = RecursionError)
      by (apply (limited_has_cycle_raises depth staged); now rewrite E).
    subst e. intros [= <- <-] Hne. now contradiction Hne.
Qed.

Lemma limited_add_task_enough (U : list string) (depth : nat) (task : Task)
      (self : TaskDAG.t) :
  let staged := add_edges task (with_tasks self (set (tasks self) (id task) task)) in
  (forall x y, index_edge (_adjacency_list staged) x y -> In y U) ->
  (forall x, In x (keys (tasks staged)) -> In x U) ->
  length U <= depth ->
  Limited.add_task depth task self = add_task task self.
Proof.
  intros staged Hc Hr Hlen. unfold Limited.add_task, add_task. fold staged.
  rewrite (limited_has_cycle_enough U depth staged Hc Hr Hlen).
  destruct (_has_cycle staged) as [[|] s1]; reflexivity.
Qed.

Lemma limited_add_task_result (depth : nat) (task : Task) (self : TaskDAG.t) :
  fst (Limited.add_task depth task self) = Ok tt
  \/ fst (Limited.add_task depth task self) =
       Raise (DAGCycleError ("Adding task " ++ id task ++ " would create a cycle")%string)
  \/ fst (Limited.add_task depth task self) = Raise RecursionError.
Proof.
  unfold Limited.add_task.
  set (staged := add_edges task (with_tasks self (set (tasks self) (id task) task))).
  destruct (Limited._has_cycle depth staged) as [[[|]|e] s1] eqn:E; simpl; auto.
  right. right. f_equal.
  apply (limited_has_cycle_raises depth staged). now rewrite E.
Qed.

(** X7.  What [add_task] does to any graph under a limit of [depth] nested
    calls of [dfs].  It ends in one of three ways: it returns, it raises
    the [DAGCycleError] that names the task, or it raises [RecursionError].
    It returns only if the forward index with the edges of the task holds no
    cycle reachable from a stored id, and raises [DAGCycleError] only if it
    holds one; when the graph with these edges has no more nodes than
    [depth], [RecursionError] is excluded and both are equivalences.  The
    edges of the task are appended to both indexes in all three outcomes.
    The new task is stored when the call returns and also when it raises
    [RecursionError]; the entry of its id is deleted when it raises
    [DAGCycleError]. *)
Theorem add_task_effect (depth : nat) (task : Task) (self : TaskDAG.t) :
  let staged := add_edges task (with_tasks self (set (tasks self) (id task) task)) in
  let cyclic := cycle_reachable (_adjacency_list staged) (keys (tasks staged)) in
  let rejected :=
    Raise (DAGCycleError ("Adding task " ++ id task ++ " would create a cycle")%string) in
  let outcome := fst (Limited.add_task depth task self) in
  let self' := snd (Limited.add_task depth task self) in
  (outcome = Ok tt \/ outcome = rejected \/ outcome = Raise RecursionError)
  /\ (outcome = Ok tt -> ~ cyclic)
  /\ (outcome = rejected -> cyclic)
  /\ (length (nodes staged) <= depth ->
        (outcome = Ok tt <-> ~ cyclic) /\ (outcome = rejected <-> cyclic))
  /\ (forall x,
        dd_lookup (_adjacency_list self') x =
        dd_lookup (_adjacency_list self) x
        ++ map (fun _ => id task) (filter (String.eqb x) (dependencies task)))
  /\ (forall x,
        dd_lookup (_reverse_adjacency self') x =
        dd_lookup (_reverse_adjacency self) x
        ++ (if String.eqb x (id task) then dependencies task else []))
  /\ tasks self' =
       match outcome with
       | Raise (DAGCycleError _) => del (set (tasks self) (id task) task) (id task)
       | _ => set (tasks self) (id task) task
       end.
Proof.
  cbv zeta.
  set (staged := add_edges task (with_tasks self (set (tasks self) (id task) task))).
  pose proof (add_task_outcome task self) as Hout. cbv zeta in Hout. fold staged in Hout.
  assert (Hunl : forall r, fst (Limited.add_task depth task self) = r ->
                   r <> Raise RecursionError -> fst (add_task task self) = r).
  { intros r Hr Hne. destruct (Limited.add_task depth task self) as [r' s] eqn:E.
    simpl in Hr. subst r'. now rewrite (limited_add_task_returns _ _ _ _ _ E Hne). }
  assert (Hok : fst (Limited.add_task depth task self) = Ok tt ->
                ~ cycle_reachable (_adjacency_list staged) (keys (tasks staged))).
  { intros H Hc. apply Hout in Hc. rewrite (Hunl _ H) in Hc by discriminate.
    discriminate. }
  assert (Hrej : fst (Limited.add_task depth task self) =
                 Raise (DAGCycleError ("Adding task " ++ id task ++ " would create a cycle")%string) ->
                 cycle_reachable (_adjacency_list staged) (keys (tasks staged))).
  { intros H. apply Hout. apply (Hunl _ H). discriminate. }
  split; [apply limited_add_task_result|]. split; [exact Hok|]. split; [exact Hrej|].
  split.
  - intros Hlen. destruct (nodes_closed staged) as [Hc Hr].
    pose proof (limited_add_task_enough (nodes staged) depth task self Hc Hr Hlen) as Heq.
    rewrite Heq. split.
    + rewrite <- Hout. unfold add_task. fold staged.
      destruct (_has_cycle staged) as [[|] s1]; simpl; split; congruence.
    + exact Hout.
  - unfold Limited.add_task. fold staged.
    destruct (limited_has_cycle_frame depth staged) as (Ht & Hr & Ha).
    assert (Ha0 : forall x, dd_lookup (_adjacency_list staged) x =
                    dd_lookup (_adjacency_list self) x
                    ++ map (fun _ => id task) (filter (String.eqb x) (dependencies task))).
    { intros x. unfold staged. rewrite adjacency_add_edges. apply dd_lookup_append_fold. }
    assert (Hr0 : forall x, dd_lookup (_reverse_adjacency staged) x =
                    dd_lookup (_reverse_adjacency self) x
                    ++ (if String.eqb x (id task) then dependencies task else [])).
    { intros x. unfold staged. rewrite reverse_add_edges. apply dd_lookup_append_key_fold. }
    assert (Ht0 : tasks staged = set (tasks self) (id task) task).
    { unfold staged. now rewrite tasks_add_edges. }
    assert (Hre : forall e, fst (Limited._has_cycle depth staged) = Raise e ->
                            e = RecursionError)
      by apply limited_has_cycle_raises.
    destruct (Limited._has_cycle depth staged) as [[[|]|e] s1];
      cbn [fst snd with_tasks tasks _adjacency_list _reverse_adjacency] in *.
    + split; [intros x; now rewrite Ha|]. split; [intros x; now rewrite Hr|].
      now rewrite Ht, Ht0.
    + split; [intros x; now rewrite Ha|]. split; [intros x; now rewrite Hr|].
      now rewrite Ht, Ht0.
    + rewrite (Hre e eq_refl).
      split; [intros x; now rewrite Ha|]. split; [intros x; now rewrite Hr|].
      now rewrite Ht, Ht0.
Qed.

(** The limit at work: with room for three nested calls, inserting a task
    at the end of the chain [A <- B <- C] raises [RecursionError], and the
    task is left in the store with its edges. *)
Lemma add_task_recursion_limit :
  let late := new_task "E" ["C"] 100%Z 5%Z in
  fst (add_task late chain_graph) = Ok tt
  /\ fst (Limited.add_task 4 late chain_graph) = Ok tt
  /\ fst (Limited.add_task 3 late chain_graph) = Raise RecursionError
  /\ get_task "E" (snd (Limited.add_task 3 late chain_graph)) = Some late
  /\ fst (get_task_dependents "C" (snd (Limited.add_task 3 late chain_graph))) = [late].
Proof. cbv zeta. repeat split; vm_compute; reflexivity. Qed.

End LimitedMethods.

(** ** Building, validating and sorting under the limit *)
Section LimitedInsertion.
Import TaskDAG.

Variable depth : nat.

Lemma add_tasks_within_returns (l : list Task) : forall (self s : TaskDAG.t),
  add_tasks_within depth l self = (Ok tt, s) -> add_tasks l self = (Ok tt, s).
Proof.
  induction l as [|task l IH]; intros self s; simpl; [auto|].
  destruct (Limited.add_task depth task self) as [[[]|e] s1] eqn:E; [|discriminate].
  rewrite (limited_add_task_returns _ _ _ _ _ E) by discriminate. apply IH.
Qed.

Lemma add_tasks_within_raise (l : list Task) : forall (self : TaskDAG.t) (e : exn),
  fst (add_tasks_within depth l self) = Raise e ->
  e = RecursionError
  \/ exists task,
       In task l
       /\ e = DAGCycleError ("Adding task " ++ id task ++ " would create a cycle")%string.
Proof.
  induction l as [|task l IH]; intros self e; simpl; [discriminate|].
  destruct (limited_add_task_result depth task self) as [H|[H|H]];
    destruct (Limited.add_task depth task self) as [res self1]; simpl in H; subst res.
  - intros He. destruct (IH self1 e He) as [->|(t & Hin & ->)]; [now left|].
    right. exists t. auto.
  - simpl. intros [= <-]. right. exists task. auto.
  - simpl. intros [= <-]. now left.
Qed.

(** With room for one activation per task, the insertions of tasks with
    distinct ids are never cut off. *)
Lemma add_tasks_within_enough (todo : list Task) :
  forall (done : list Task) (self : TaskDAG.t),
  represents done self ->
  NoDup (task_ids (done ++ todo)) ->
  length (done ++ todo) <= depth ->
  add_tasks_within depth todo self = add_tasks todo self.
Proof.
  induction todo as [|task todo IH]; intros done self Hrep Hnd Hlen; [reflexivity|].
  assert (Hsplit : done ++ task :: todo = (done ++ [task]) ++ todo)
    by now rewrite <- app_assoc.
  assert (Hfresh : ~ In (id task) (task_ids done)).
  { unfold task_ids in Hnd. rewrite map_app in Hnd. simpl in Hnd.
    apply NoDup_remove_2 in Hnd. intros Hin. apply Hnd. apply in_or_app. now left. }
  pose proof (represents_staged done task self Hrep Hfresh) as Hst.
  assert (Heq : Limited.add_task depth task self = add_task task self).
  { apply (limited_add_task_enough (task_ids (done ++ [task]))).
    - intros x y Hxy. unfold index_edge in Hxy.
      rewrite (proj1 (proj2 Hst)) in Hxy. apply dependents_of_In in Hxy.
      destruct Hxy as (t & Hin & <- & _). now apply in_map.
    - intros x Hx. now rewrite (keys_represented _ _ Hst) in Hx.
    - unfold task_ids. rewrite length_map.
      rewrite Hsplit, length_app in Hlen. lia. }
  simpl. rewrite Heq.
  destruct (add_task task self) as [[[]|e] self1] eqn:E; [|reflexivity].
  assert (Hok1 : fst (add_task task self) = Ok tt) by now rewrite E.
  pose proof (add_task_accepted_acyclic done task self Hrep Hfresh Hok1) as Hacyc1.
  destruct (represents_add_task done task self Hrep Hfresh Hacyc1) as [_ Hrep1].
  rewrite E in Hrep1. simpl in Hrep1.
  rewrite Hsplit in *. now apply (IH (done ++ [task]) self1).
Qed.

(** X9.  Inserting tasks with pairwise distinct ids, one [add_task] after the
    other, into the empty graph, every call made with room for [depth]
    nested calls of [dfs].  If all insertions return, no chain of
    dependencies leads from an id back to itself, and the graph holds the
    tasks in insertion order with both indexes exact.  If there are at most
    [depth] tasks, the insertions succeed exactly when there is no such
    chain, [_has_cycle] then answers [False], and a failure is the
    [DAGCycleError] of one of the tasks.  With more tasks than [depth] a
    failure can also be a [RecursionError]. *)
Theorem add_tasks_accepts_iff_acyclic (ts : list Task) :
  NoDup (task_ids ts) ->
  let outcome := fst (add_tasks_within depth ts TaskDAG.init) in
  let self := snd (add_tasks_within depth ts TaskDAG.init) in
  (outcome = Ok tt ->
     ~ has_dependency_cycle ts /\ represents ts self /\ get_all_tasks self = ts)
  /\ (length ts <= depth ->
        (outcome = Ok tt <-> ~ has_dependency_cycle ts)
        /\ (outcome = Ok tt -> fst (Limited._has_cycle depth self) = Ok false)
        /\ (forall e, outcome = Raise e ->
              exists task,
                In task ts
                /\ e = DAGCycleError
                         ("Adding task " ++ id task ++ " would create a cycle")%string))
  /\ (forall e, outcome = Raise e ->
        (e = RecursionError /\ depth < length ts)
        \/ exists task,
             In task ts
             /\ e = DAGCycleError
                      ("Adding task " ++ id task ++ " would create a cycle")%string).
Proof.
  intros Hnd. cbv zeta.
  assert (Hret : fst (add_tasks_within depth ts TaskDAG.init) = Ok tt ->
                 add_tasks ts TaskDAG.init = add_tasks_within depth ts TaskDAG.init).
  { intros H. destruct (add_tasks_within depth ts TaskDAG.init) as [r s] eqn:E.
    simpl in H. subst r. now apply add_tasks_within_returns. }
  assert (Hrep : fst (add_tasks_within depth ts TaskDAG.init) = Ok tt ->
                 ~ has_dependency_cycle ts
                 /\ represents ts (snd (add_tasks_within depth ts TaskDAG.init))).
  { intros H. rewrite <- (Hret H). apply (add_tasks_ok_represents ts Hnd).
    now rewrite (Hret H). }
  assert (Henough : length ts <= depth ->
                    add_tasks_within depth ts TaskDAG.init = add_tasks ts TaskDAG.init).
  { intros Hlen. now apply (add_tasks_within_enough ts [] TaskDAG.init represents_init). }
  split; [|split].
  - intros H. destruct (Hrep H) as [Hacyc Hr]. split; [exact Hacyc|]. split; [exact Hr|].
    unfold get_all_tasks. destruct Hr as (Hts & _). rewrite Hts.
    unfold values. rewrite map_map. simpl. apply map_id.
  - intros Hlen. split; [|split].
    + split; [intros H; now apply Hrep|]. intros Hacyc. rewrite (Henough Hlen).
      destruct (add_tasks_represents ts [] TaskDAG.init represents_init Hnd Hacyc)
        as (self' & -> & _). reflexivity.
    + intros H. destruct (Hrep H) as [Hacyc Hr].
      set (self := snd (add_tasks_within depth ts TaskDAG.init)) in *.
      rewrite (limited_has_cycle_enough (task_ids ts) depth self).
      * now rewrite (proj1 (has_cycle_represented ts self Hr Hacyc)).
      * intros x y Hxy. unfold index_edge in Hxy.
        rewrite (proj1 (proj2 Hr)) in Hxy. apply dependents_of_In in Hxy.
        destruct Hxy as (t & Hin & <- & _). now apply in_map.
      * intros x Hx. now rewrite (keys_represented _ _ Hr) in Hx.
      * unfold task_ids. now rewrite length_map.
    + intros e. rewrite (Henough Hlen). apply add_tasks_raise.
  - intros e He.
    destruct (add_tasks_within_raise ts TaskDAG.init e He) as [->|Hex]; [|now right].
    destruct (Nat.lt_ge_cases depth (length ts)) as [Hlt|Hge]; [now left|].
    right. rewrite (Henough Hge) in He. now apply (add_tasks_raise ts TaskDAG.init).
Qed.

End LimitedInsertion.

Lemma add_tasks_accepts_iff_acyclic_witness :
  NoDup (task_ids chain_tasks)
  /\ length chain_tasks <= 4
  /\ (fst (add_tasks_within 4 chain_tasks TaskDAG.init) = Ok tt <->
      ~ has_dependency_cycle chain_tasks).
Proof.
  assert (Hnd : NoDup (task_ids chain_tasks)).
  { vm_compute. repeat constructor; simpl; intuition discriminate. }
  split; [exact Hnd|]. split; [simpl; lia|].
  apply (add_tasks_accepts_iff_acyclic 4 chain_tasks Hnd). simpl. lia.
Defined.

(** For every closed acyclic set of tasks with distinct ids and every order
    of insertion, with room for one nested call of [dfs] per task: every
    [add_task] returns, and [topological_sort] returns each task once with
    every dependency before its dependents. *)
Lemma add_tasks_within_topological_sort (depth : nat) (ts order : list Task) :
  acyclic_task_set ts ->
  Permutation ts order ->
  length ts <= depth ->
  exists self,
    add_tasks_within depth order TaskDAG.init = (Ok tt, self)
    /\ TaskDAG.len self = length ts
    /\ exists sorted self',
         TaskDAG.topological_sort self = (Ok sorted, self')
         /\ length sorted = TaskDAG.len self
         /\ Permutation sorted ts
         /\ NoDup (task_ids sorted)
         /\ dependencies_first sorted.
Proof.
  intros Hacyc Hperm Hdepth.
  pose proof (acyclic_task_set_perm ts order Hperm Hacyc) as Hacyc'.
  destruct Hacyc' as (Hnd & Hclosed & Hno).
  destruct (add_tasks_represents order [] TaskDAG.init represents_init Hnd Hno)
    as (self & Hadd & Hrep).
  simpl in Hrep. exists self. split.
  { rewrite (add_tasks_within_enough depth order [] TaskDAG.init represents_init Hnd).
    - exact Hadd.
    - simpl. rewrite <- (Permutation_length Hperm). exact Hdepth. }
  assert (Hlen : TaskDAG.len self = length ts).
  { destruct Hrep as (Hts & _). unfold TaskDAG.len. rewrite Hts, length_map.
    symmetry. now apply Permutation_length. }
  split; [exact Hlen|].
  destruct (topological_sort_represented order self (conj Hnd (conj Hclosed Hno)) Hrep)
    as (sorted & self' & Hsort & Hl & Hp & Hfirst).
  exists sorted, self'. repeat split; auto.
  - rewrite Hp. now symmetry.
  - eapply Permutation_NoDup; [|exact Hnd].
    unfold task_ids. apply Permutation_map. now symmetry.
Qed.

(** ** [validate] and self-dependencies under the limit *)
Section LimitedValidate.
Import TaskDAG.

Lemma limited_validate_returns (depth : nat) (self s : TaskDAG.t) (b : bool) :
  Limited._has_cycle depth self = (Ok b, s) ->
  Limited.validate depth self = validate self.
Proof.
  intros H. unfold Limited.validate, validate.
  now rewrite H, (limited_has_cycle_returns _ _ _ _ H).
Qed.

(** X12.  [validate] on any graph, under a limit of [depth] nested calls of
    [dfs].  When it returns, [_has_cycle] has returned, and the list holds
    the message "DAG contains a cycle" if the answer was [True], then one
    message for each mention of a dependency that is not stored, and nothing
    else: "Some tasks are unreachable" is never reported.  The cycle message
    is present exactly when the forward index holds a cycle reachable from a
    stored id.  Two exceptions can leave [validate]: the [RecursionError] of
    its [_has_cycle], and a [KeyError] of its [topological_sort]. *)
Theorem validate_reports (depth : nat) (self : TaskDAG.t) :
  (forall errors, fst (Limited.validate depth self) = Ok errors ->
     exists b,
       fst (Limited._has_cycle depth self) = Ok b
       /\ errors = (if b then ["DAG contains a cycle"%string] else [])
                   ++ missing_dependency_errors (tasks self)
       /\ ~ In "Some tasks are unreachable"%string errors
       /\ (In "DAG contains a cycle"%string errors <->
           cycle_reachable (_adjacency_list self) (keys (tasks self))))
  /\ (forall e, fst (Limited.validate depth self) = Raise e ->
        (e = RecursionError
         /\ fst (Limited._has_cycle depth self) = Raise RecursionError)
        \/ exists k,
             e = KeyError k
             /\ fst (topological_sort (snd (Limited._has_cycle depth self)))
                = Raise (KeyError k)).
Proof.
  destruct (Limited._has_cycle depth self) as [[b|e0] s] eqn:E.
  - rewrite (limited_validate_returns _ _ _ _ E).
    pose proof (limited_has_cycle_returns _ _ _ _ E) as Hu.
    destruct (validate_messages self) as [Hok Hraise]. rewrite Hu in Hok, Hraise.
    cbn [fst snd] in *. split.
    + intros errors He. destruct (Hok errors He) as (Heq & Hnot & Hcyc).
      exists b. split; [reflexivity|]. split; [exact Heq|]. split; [exact Hnot|].
      rewrite Hcyc, <- has_cycle_spec, Hu. reflexivity.
    + intros e He. right. now apply Hraise.
  - assert (He0 : e0 = RecursionError)
      by (apply (limited_has_cycle_raises depth self); now rewrite E).
    subst e0. unfold Limited.validate. rewrite E. cbn [fst snd]. split.
    + discriminate.
    + intros e [= <-]. now left.
Qed.

(** X21.  A task that lists its own id among its dependencies is never
    accepted by [add_task], in any graph: the call raises the
    [DAGCycleError] that names the task, or [RecursionError] when [dfs] is
    cut off before it finds the cycle, which takes a graph with more nodes
    than the limit [depth]. *)
Theorem add_task_self_dependency (depth : nat) (task : Task) (self : TaskDAG.t) :
  In (id task) (dependencies task) ->
  let staged := add_edges task (with_tasks self (set (tasks self) (id task) task)) in
  let rejected :=
    Raise (DAGCycleError ("Adding task " ++ id task ++ " would create a cycle")%string) in
  (fst (Limited.add_task depth task self) = rejected
   \/ fst (Limited.add_task depth task self) = Raise RecursionError)
  /\ (length (nodes staged) <= depth ->
      fst (Limited.add_task depth task self) = rejected).
Proof.
  intros Hself. cbv zeta.
  pose proof (self_dependency_cyclic task self Hself) as Hunl.
  split.
  - destruct (limited_add_task_result depth task self) as [H|H]; [|exact H].
    exfalso. destruct (Limited.add_task depth task self) as [r s] eqn:E.
    simpl in H. subst r.
    rewrite (limited_add_task_returns _ _ _ _ _ E) in Hunl by discriminate.
    discriminate.
  - intros Hlen.
    destruct (nodes_closed
                (add_edges task (with_tasks self (set (tasks self) (id task) task))))
      as [Hc Hr].
    now rewrite (limited_add_task_enough _ depth task self Hc Hr Hlen).
Qed.

Lemma add_task_self_dependency_witness :
  In (id (new_task "A" ["A"] 1%Z 1%Z)) (dependencies (new_task "A" ["A"] 1%Z 1%Z))
  /\ fst (Limited.add_task 10 (new_task "A" ["A"] 1%Z 1%Z) chain_graph) =
       Raise (DAGCycleError "Adding task A would create a cycle").
Proof.
  assert (H : In (id (new_task "A" ["A"] 1%Z 1%Z))
                 (dependencies (new_task "A" ["A"] 1%Z 1%Z))) by (simpl; tauto).
  split; [exact H|].
  apply (proj2 (add_task_self_dependency 10 (new_task "A" ["A"] 1%Z 1%Z) chain_graph H)).
  vm_compute. repeat constructor.
Defined.

End LimitedValidate.
